(** * Connect Four with UCT: board engine and search tree

    A shallow embedding of [connect_four.py] (the [ConnectFour] board) and of
    [algorithm3_uct.py] ([MCTSNode], [MCTSAlgorithm.backpropagate] and
    [UCT.select_move]), with the properties of the board and of the search that
    the specification states. Further parts follow them: [simulate] and
    [UniformRandom.select_move] of [algorithm1_ur.py], [from_file] and
    [__str__], [play_game] of [tournament.py] and the [UCT] object of
    [main.py].

    Conventions of the embedding.
    - A Python [int] is a [Z]; a Python [str] is a [string].
    - A Python list is a [list]; [l[i]] follows Python's rule for indices
      (negative indices count from the end, anything else out of range
      raises [IndexError]). The rows of a board are lists of their own, as
      the constructor and [from_file] build them.
    - A Python call that raises ([IndexError], [KeyError], [ValueError]) is
      [None]; a [while] loop is a [Fixpoint] on a number of remaining
      iterations and is [None] when that number runs out. Every theorem that
      speaks of a result proves that the result is [Some].
    - The objects of the search tree live in a store; a reference to a node
      is its index in the store, so that a node and its parent share the
      counters that [backpropagate] updates.
    - [random] is a sequence of draws [rnd], one draw for every call of
      [random.choice]; [print] appends an event to the output of the search.
    - A Python [float] is an exact rational, or one of the two infinities:
      [wi / ni] is the quotient itself and comparisons are those of the
      rationals. Two quotients of visit counts below 2^26 differ by more than
      the spacing of the doubles in [-1, 1], so rounding maps them to
      different doubles in the same order, and the comparisons of the final
      decision come out as they do here. The score of [get_ucb_value] is the
      exact sum; [math.log] and [math.sqrt] are parameters. The division
      [wi / ni] of Python raises [OverflowError] when the quotient is beyond
      the range of a float; no count of a search comes near it, where
      [|wi| <= ni], and a property that speaks of other counters excludes
      it. *)

From Stdlib Require Import ZArith List Lia QArith Qcanon.
From stdpp Require Import base tactics option list numbers strings gmap sorting.

Local Open Scope Z_scope.

(** ** Python lists *)

Module Py.

(** The position that index [i] denotes in a list of length [n]. *)
Definition index (n : nat) (i : Z) : option nat :=
  if decide (0 ≤ i < Z.of_nat n) then Some (Z.to_nat i)
  else if decide (- Z.of_nat n ≤ i < 0) then Some (Z.to_nat (Z.of_nat n + i))
  else None.

(** [l[i]] *)
Definition getitem {A} (l : list A) (i : Z) : option A :=
  k ← index (length l) i; l !! k.

(** [l[i] = x] *)
Definition setitem {A} (l : list A) (i : Z) (x : A) : option (list A) :=
  k ← index (length l) i; Some (<[k:=x]> l).

(** [range(n)] for a literal [n]. *)
Definition range (n : nat) : list Z := Z.of_nat <$> seq 0 n.

End Py.

(** ** The board: [connect_four.py] *)

Definition ROWS : nat := 6.
Definition COLS : nat := 7.

(** [self.board], [self.last_move], [self.move_stack]. The stack grows at the
    end of the list, as [append] and [pop] do. *)
Record ConnectFour := mkConnectFour {
  board : list (list string);
  last_move : option (Z * Z);
  move_stack : list (Z * Z)
}.

(** [self.board[row][col]] *)
Definition cell (g : list (list string)) (row col : Z) : option string :=
  r ← Py.getitem g row; Py.getitem r col.

(** [self.board[row][col] = v] *)
Definition set_cell (g : list (list string)) (row col : Z) (v : string)
  : option (list (list string)) :=
  r ← Py.getitem g row; r' ← Py.setitem r col v; Py.setitem g row r'.

(** [ConnectFour()] *)
Definition empty_board : ConnectFour :=
  mkConnectFour (replicate ROWS (replicate COLS "O"%string)) None [].

(** [get_legal_moves]: the loop over [range(COLS)]. *)
Fixpoint legal_from (g : list (list string)) (cols : list Z) : option (list Z) :=
  match cols with
  | [] => Some []
  | col :: rest =>
      top ← cell g (Z.of_nat ROWS - 1) col;
      more ← legal_from g rest;
      Some (if decide (top = "O"%string) then (col + 1) :: more else more)
  end.

Definition get_legal_moves (b : ConnectFour) : option (list Z) :=
  legal_from (board b) (Py.range COLS).

(** [make_move]: the loop over [range(ROWS)], with its early [return True]. *)
Fixpoint drop_piece (b : ConnectFour) (col_idx : Z) (player : string)
    (rows : list Z) : option (bool * ConnectFour) :=
  match rows with
  | [] => Some (false, b)
  | row :: rest =>
      c ← cell (board b) row col_idx;
      if decide (c = "O"%string) then
        g' ← set_cell (board b) row col_idx player;
        Some (true, mkConnectFour g' (Some (row, col_idx))
                      (move_stack b ++ [(row, col_idx)]))
      else drop_piece b col_idx player rest
  end.

Definition make_move (b : ConnectFour) (column : Z) (player : string)
  : option (bool * ConnectFour) :=
  drop_piece b (column - 1) player (Py.range ROWS).

(** [self.move_stack[-1] if self.move_stack else None], as [undo_move] sets
    [last_move] on both of its paths. *)
Definition stack_top (s : list (Z * Z)) : option (Z * Z) := last s.

(** The fallback of [undo_move]: the loop over [range(ROWS - 1, -1, -1)]. *)
Fixpoint remove_topmost (b : ConnectFour) (col_idx : Z) (rows : list Z)
  : option ConnectFour :=
  match rows with
  | [] => Some b
  | row :: rest =>
      c ← cell (board b) row col_idx;
      if decide (c ≠ "O"%string) then
        g' ← set_cell (board b) row col_idx "O"%string;
        let s' := if decide (stack_top (move_stack b) = Some (row, col_idx))
                  then removelast (move_stack b) else move_stack b in
        Some (mkConnectFour g' (stack_top s') s')
      else remove_topmost b col_idx rest
  end.

Definition undo_move (b : ConnectFour) (column : Z) : option ConnectFour :=
  let col_idx := column - 1 in
  match stack_top (move_stack b) with
  | Some (row, col) =>
      if decide (col = col_idx) then
        g' ← set_cell (board b) row col "O"%string;
        let s' := removelast (move_stack b) in
        Some (mkConnectFour g' (stack_top s') s')
      else remove_topmost b col_idx (reverse (Py.range ROWS))
  | None => remove_topmost b col_idx (reverse (Py.range ROWS))
  end.

(** The inner [while] of [_check_win]: the number of times [count += 1] runs
    from [(r, c)] in direction [(dx, dy)]. [steps] bounds the iterations. *)
Fixpoint run_length (steps : nat) (g : list (list string)) (player : string)
    (r c dx dy : Z) : option nat :=
  match steps with
  | O => None
  | S steps' =>
      if decide (0 ≤ r < Z.of_nat ROWS ∧ 0 ≤ c < Z.of_nat COLS) then
        x ← cell g r c;
        if decide (x = player) then
          n ← run_length steps' g player (r + dx) (c + dy) dx dy; Some (S n)
        else Some O
      else Some O
  end.

(** A walk that stays on the board takes at most [max ROWS COLS] steps. *)
Definition run_steps : nat := S (ROWS `max` COLS).

Definition directions : list ((Z * Z) * (Z * Z)) :=
  [ ((0, 1), (0, -1));      (* horizontal *)
    ((1, 0), (-1, 0));      (* vertical *)
    ((1, 1), (-1, -1));     (* diagonal / *)
    ((1, -1), (-1, 1)) ].   (* diagonal \ *)

(** [count] after the two directions of one pair. *)
Definition axis_count (g : list (list string)) (player : string) (row col : Z)
    (dir_pair : (Z * Z) * (Z * Z)) : option nat :=
  let '((dx1, dy1), (dx2, dy2)) := dir_pair in
  n1 ← run_length run_steps g player (row + dx1) (col + dy1) dx1 dy1;
  n2 ← run_length run_steps g player (row + dx2) (col + dy2) dx2 dy2;
  Some (1 + n1 + n2)%nat.

Fixpoint check_axes (g : list (list string)) (player : string) (row col : Z)
    (dirs : list ((Z * Z) * (Z * Z))) : option (option string) :=
  match dirs with
  | [] => Some None
  | d :: rest =>
      count ← axis_count g player row col d;
      if decide (4 ≤ count)%nat then Some (Some player)
      else check_axes g player row col rest
  end.

Definition _check_win (b : ConnectFour) (row col : Z) : option (option string) :=
  player ← cell (board b) row col;
  check_axes (board b) player row col directions.

(** The cells in the order of the two nested loops of [_check_board_for_win]. *)
Definition all_cells : list (Z * Z) :=
  row ← Py.range ROWS; col ← Py.range COLS; [(row, col)].

Fixpoint scan_for_win (b : ConnectFour) (cells : list (Z * Z))
  : option (option string) :=
  match cells with
  | [] => Some None
  | (row, col) :: rest =>
      x ← cell (board b) row col;
      if decide (x ≠ "O"%string) then
        winner ← _check_win b row col;
        match winner with
        | Some w => Some (Some w)
        | None => scan_for_win b rest
        end
      else scan_for_win b rest
  end.

Definition _check_board_for_win (b : ConnectFour) : option (option string) :=
  scan_for_win b all_cells.

Definition is_terminal (b : ConnectFour) : option (bool * option Z) :=
  winner ← match last_move b with
           | Some (row, col) => _check_win b row col
           | None => _check_board_for_win b
           end;
  match winner with
  | Some w => Some (true, Some (if decide (w = "R"%string) then -1 else 1))
  | None =>
      legal ← get_legal_moves b;
      if decide (length legal = 0%nat) then Some (true, Some 0)
      else Some (false, None)
  end.

(** ** Numbers of [algorithm3_uct.py] *)

(** A [float]: a rational, [float("inf")] or [float("-inf")]. *)
Inductive float := NegInf | Fin (q : Qc) | PosInf.

(** [x < y] on floats. *)
Definition float_ltb (x y : float) : bool :=
  match x, y with
  | NegInf, NegInf => false
  | NegInf, _ => true
  | Fin _, NegInf => false
  | Fin a, Fin b => bool_decide (a < b)%Qc
  | Fin _, PosInf => true
  | PosInf, _ => false
  end.

(** The builtins [min(a, b)] and [max(a, b)]: the first argument unless the
    second is strictly better. *)
Definition py_min (a b : Qc) : Qc := if decide (b < a)%Qc then b else a.
Definition py_max (a b : Qc) : Qc := if decide (a < b)%Qc then b else a.

(** ** The search tree: [MCTSNode] *)

(** Nodes live in a store, a list indexed by the order of creation; a
    reference to a node is its index, and the root is node [0]. *)
Record MCTSNode := mkNode {
  wi : Z;
  ni : Z;
  children : gmap Z nat;
  parent : option nat;
  move : option Z
}.

(** [MCTSNode(parent, move)] *)
Definition new_node (parent : option nat) (move : option Z) : MCTSNode :=
  mkNode 0 0 ∅ parent move.

Definition get_value (n : MCTSNode) : Qc :=
  if decide (ni n = 0) then 0%Qc
  else
    let value := (Qc_of_Z (wi n) / Qc_of_Z (ni n))%Qc in
    py_max (-1)%Qc (py_min 1%Qc value).

Definition is_fully_expanded (n : MCTSNode) (legal_moves : list Z) : bool :=
  bool_decide (size (children n) = length legal_moves).

(** What [print] writes, one event per call; a number is kept as the number
    and not as its decimal rendering. *)
Inductive event :=
| PrintWi (w : Z)
| PrintNi (n : Z)
| PrintV (col : Z) (v : float)
| PrintMoveSelected (m : option Z)
| PrintNodeAdded
| PrintTerminalValue (v : Z)
| PrintUpdatedValues
| PrintColumn (col : Z) (v : option Qc)
| PrintFinalMove (m : Z).

(** [self.game], the nodes reachable from [self.root], the number of draws
    taken from [random], and what was printed. *)
Record search := mkSearch {
  game : ConnectFour;
  tree : list MCTSNode;
  drawn : nat;
  out : list event
}.

(** The attributes of a [UCT] object that [select_move] only reads. *)
Record UCT := mkUCT {
  player : string;
  num_simulations : Z;
  verbose : bool;
  brief : bool;
  suppress_output : bool;
  exploration_constant : Qc
}.

Definition is_max_player (u : UCT) : bool := bool_decide (player u = "Y"%string).

(** ["R" if current_player == "Y" else "Y"] *)
Definition other (current_player : string) : string :=
  if decide (current_player = "Y"%string) then "R"%string else "Y"%string.

(** [backpropagate]: the [while current is not None] loop. *)
Fixpoint backprop_loop (steps : nat) (t : list MCTSNode) (current : option nat)
    (depth : Z) (value : Z) (is_max : bool) : option (list MCTSNode) :=
  match current with
  | None => Some t
  | Some id =>
      match steps with
      | O => None
      | S steps' =>
          nd ← t !! id;
          let is_max_at_depth :=
            bool_decide (bool_decide (depth `mod` 2 = 0) = is_max) in
          let w := if is_max_at_depth then wi nd + value else wi nd - value in
          let nd' := mkNode w (ni nd + 1) (children nd) (parent nd) (move nd) in
          backprop_loop steps' (<[id:=nd']> t) (parent nd) (depth + 1) value is_max
      end
  end.

(** A walk to the root visits each node of the store at most once. *)
Definition backpropagate (is_max : bool) (t : list MCTSNode) (node : nat)
    (value : Z) : option (list MCTSNode) :=
  let value := Z.max (-1) (Z.min 1 value) in
  backprop_loop (length t) t (Some node) 0 value is_max.

(** [node.children[move] = new_node] *)
Definition add_child (n : MCTSNode) (mv : Z) (cid : nat) : MCTSNode :=
  mkNode (wi n) (ni n) (<[mv:=cid]> (children n)) (parent n) (move n).

Section Engine.

(** The draws of [random]: the [k]-th call of [random.choice] on a sequence of
    length [n] returns its element at position [rnd k mod n]. *)
Variable rnd : nat → nat.

(** [math.log] on the visit count of a parent, and [math.sqrt]. *)
Variable math_log : Z → Qc.
Variable math_sqrt : Qc → Qc.

Definition choice {A} (l : list A) (k : nat) : option A :=
  match l with
  | [] => None
  | _ => l !! (rnd k `mod` length l)%nat
  end.

Definition get_ucb_value (t : list MCTSNode) (n : MCTSNode)
    (exploration_constant : Qc) (is_max_player : bool) : option float :=
  if decide (ni n = 0) then Some (if is_max_player then PosInf else NegInf)
  else
    match parent n with
    | None => Some (Fin (get_value n))
    | Some p =>
        pn ← t !! p;
        if decide (ni pn = 0) then Some (Fin (get_value n))
        else
          let exploitation := get_value n in
          let exploration :=
            (exploration_constant
             * math_sqrt (math_log (ni pn) / Qc_of_Z (ni n)))%Qc in
          Some (Fin (if is_max_player then (exploitation + exploration)%Qc
                     else (exploitation - exploration)%Qc))
    end.

(** The [for move in legal_moves] loop of the selection step; the state is
    [(best_move, best_ucb, ucb_values)]. *)
Fixpoint ucb_loop (u : UCT) (t : list MCTSNode) (node : MCTSNode)
    (current_player : string) (moves : list Z)
    (acc : option Z * float * gmap Z float)
  : option (option Z * float * gmap Z float) :=
  match moves with
  | [] => Some acc
  | move :: rest =>
      let '(best_move, best_ucb, ucb_values) := acc in
      cid ← children node !! move;
      child ← t !! cid;
      let is_max := bool_decide (current_player = "Y"%string) in
      ucb ← get_ucb_value t child (exploration_constant u) is_max;
      let ucb_values := <[move:=ucb]> ucb_values in
      let better :=
        if decide (current_player = "Y"%string) then float_ltb best_ucb ucb
        else float_ltb ucb best_ucb in
      ucb_loop u t node current_player rest
        (if better then (Some move, ucb, ucb_values)
         else (best_move, best_ucb, ucb_values))
  end.

(** [print(f"V{col}: ...")] for every [col] of [sorted(legal_moves)]. *)
Definition print_ucb_values (legal_moves : list Z) (ucb_values : gmap Z float)
  : option (list event) :=
  mapM (λ col, v ← ucb_values !! col; Some (PrintV col v))
       (merge_sort Z.le legal_moves).

(** The variables of one simulation while the selection loop runs. *)
Record walk := mkWalk {
  w_search : search;
  w_node : nat;
  w_player : string;
  w_moves : list Z
}.

Definition emit (s : search) (on : bool) (es : list event) : search :=
  mkSearch (game s) (tree s) (drawn s) (if on then out s ++ es else out s).

(** Every iteration of the selection loop and of the rollout loop puts a piece
    on the board. *)
Definition loop_steps : nat := (ROWS * COLS + 2)%nat.

(** The selection and expansion loop of [select_move]. *)
Fixpoint selection (steps : nat) (u : UCT) (w : walk) : option walk :=
  match steps with
  | O => None
  | S steps' =>
      let s := w_search w in
      legal_moves ← get_legal_moves (game s);
      if decide (0 < length legal_moves)%nat then
        '(terminal, _) ← is_terminal (game s);
        if (terminal : bool) then Some w
        else
          node ← tree s !! w_node w;
          if is_fully_expanded node legal_moves then
            let best_ucb :=
              if decide (w_player w = "Y"%string) then NegInf else PosInf in
            '(best_move, _, ucb_values) ←
              ucb_loop u (tree s) node (w_player w) legal_moves
                       (None, best_ucb, ∅);
            lines ← (if verbose u then print_ucb_values legal_moves ucb_values
                     else Some []);
            let s := emit s (verbose u)
                       ([PrintWi (wi node); PrintNi (ni node)] ++ lines
                        ++ [PrintMoveSelected best_move]) in
            move ← best_move;
            cid ← children node !! move;
            '(_, g') ← make_move (game s) move (w_player w);
            selection steps' u
              (mkWalk (mkSearch g' (tree s) (drawn s) (out s)) cid
                      (other (w_player w)) (w_moves w ++ [move]))
          else
            let unexplored :=
              filter (λ m, children node !! m = None) legal_moves in
            move ← choice unexplored (drawn s);
            let cid := length (tree s) in
            let t' := <[w_node w:=add_child node move cid]> (tree s)
                      ++ [new_node (Some (w_node w)) (Some move)] in
            let s := emit s (verbose u)
                       [PrintWi (wi node); PrintNi (ni node);
                        PrintMoveSelected (Some move); PrintNodeAdded] in
            '(_, g') ← make_move (game s) move (w_player w);
            Some (mkWalk (mkSearch g' t' (S (drawn s)) (out s)) cid
                         (other (w_player w)) (w_moves w ++ [move]))
      else Some w
  end.

(** The rollout loop of [select_move]; the result holds [rollout_moves]. *)
Fixpoint rollout (steps : nat) (s : search) (current_player : string)
    (rollout_moves : list Z) : option (search * list Z) :=
  match steps with
  | O => None
  | S steps' =>
      legal_moves ← get_legal_moves (game s);
      if decide (0 < length legal_moves)%nat then
        '(terminal, _) ← is_terminal (game s);
        if (terminal : bool) then Some (s, rollout_moves)
        else
          move ← choice legal_moves (drawn s);
          '(_, g') ← make_move (game s) move current_player;
          rollout steps' (mkSearch g' (tree s) (S (drawn s)) (out s))
                  (other current_player) (rollout_moves ++ [move])
      else Some (s, rollout_moves)
  end.

(** [for move in moves: self.game.undo_move(move)] *)
Fixpoint undo_all (g : ConnectFour) (moves : list Z) : option ConnectFour :=
  match moves with
  | [] => Some g
  | move :: rest => g' ← undo_move g move; undo_all g' rest
  end.

(** The verbose report after backpropagation: [path], leaf first. *)
Fixpoint path_up (steps : nat) (t : list MCTSNode) (n : option nat)
  : option (list nat) :=
  match n with
  | None => Some []
  | Some id =>
      match steps with
      | O => None
      | S steps' =>
          nd ← t !! id; rest ← path_up steps' t (parent nd); Some (id :: rest)
      end
  end.

Definition print_updated (t : list MCTSNode) (node : nat) : option (list event) :=
  path ← path_up (length t) t (Some node);
  lines ← mapM (λ id, nd ← t !! id;
                      Some [PrintUpdatedValues; PrintWi (wi nd); PrintNi (ni nd)])
               (tail (reverse path));
  Some (concat lines).

(** The body of [for _ in range(self.num_simulations)]. *)
Definition simulation (u : UCT) (s : search) : option search :=
  w ← selection loop_steps u (mkWalk s 0%nat (player u) []);
  '(s, rollout_moves) ← rollout loop_steps (w_search w) (w_player w) [];
  '(_, terminal_value) ← is_terminal (game s);
  let terminal_value := default 0 terminal_value in
  let s := emit s (verbose u)
             (((λ m, PrintMoveSelected (Some m)) <$> rollout_moves)
              ++ [PrintTerminalValue terminal_value]) in
  g ← undo_all (game s) (reverse rollout_moves);
  g ← undo_all g (reverse (w_moves w));
  t ← backpropagate (is_max_player u) (tree s) (w_node w) terminal_value;
  lines ← (if verbose u then print_updated t (w_node w) else Some []);
  Some (mkSearch g t (drawn s) (out s ++ lines)).

Fixpoint simulations (n : nat) (u : UCT) (s : search) : option search :=
  match n with
  | O => Some s
  | S n' => s' ← simulation u s; simulations n' u s'
  end.

(** The [for move in legal_moves] loop of the final decision; the state is
    [(best_move, best_value, move_values)]. *)
Fixpoint decision_loop (u : UCT) (t : list MCTSNode) (root : MCTSNode)
    (moves : list Z) (acc : option Z * float * gmap Z Qc)
  : option (option Z * float * gmap Z Qc) :=
  match moves with
  | [] => Some acc
  | move :: rest =>
      let '(best_move, best_value, move_values) := acc in
      value ← match children root !! move with
              | Some cid => child ← t !! cid; Some (get_value child)
              | None => Some 0%Qc
              end;
      let move_values := <[move:=value]> move_values in
      let better :=
        if is_max_player u then float_ltb best_value (Fin value)
        else float_ltb (Fin value) best_value in
      decision_loop u t root rest
        (if better then (Some move, Fin value, move_values)
         else (best_move, best_value, move_values))
  end.

(** The part of [select_move] after the simulations. *)
Definition final_decision (u : UCT) (s : search) : option (Z * search) :=
  let best_value := if is_max_player u then NegInf else PosInf in
  legal_moves ← get_legal_moves (game s);
  root ← tree s !! 0%nat;
  '(best_move, _, move_values) ←
    decision_loop u (tree s) root legal_moves (None, best_value, ∅);
  let s := emit s (brief u || verbose u)
             ((λ col, PrintColumn col (move_values !! col))
                <$> (Z.of_nat <$> seq 1 7)) in
  let best_move :=
    match best_move with
    | Some m => m
    | None => match legal_moves with m :: _ => m | [] => 1 end
    end in
  let s := emit s (negb (suppress_output u)) [PrintFinalMove best_move] in
  Some (best_move, s).

Definition select_move (u : UCT) (s : search) : option (Z * search) :=
  s ← simulations (Z.to_nat (num_simulations u)) u s;
  final_decision u s.

End Engine.

(** A [UCT] object right after [__init__]: the tree is the root alone. *)
Definition init_search (g : ConnectFour) : search :=
  mkSearch g [new_node None None] 0 [].

(** ** Notions the properties are stated with *)

(** [make_move] called for every [(column, player)] of [ms] in turn, each call
    returning [True]. *)
Fixpoint make_moves (b : ConnectFour) (ms : list (Z * string))
  : option ConnectFour :=
  match ms with
  | [] => Some b
  | (column, who) :: rest =>
      '(ok, b') ← make_move b column who;
      if (ok : bool) then make_moves b' rest else None
  end.

(** A 6 x 7 grid. *)
Definition wf_grid (g : list (list string)) : Prop :=
  length g = ROWS ∧ Forall (λ r, length r = COLS) g.

(** A position of the 6 x 7 board. *)
Definition on_board (r c : Z) : Prop :=
  0 ≤ r < Z.of_nat ROWS ∧ 0 ≤ c < Z.of_nat COLS.

(** The cell [(r, c)] is on the board and holds the mark [who]. *)
Definition holds (g : list (list string)) (who : string) (r c : Z) : Prop :=
  on_board r c ∧ cell g r c = Some who.

(** Exactly [n] contiguous cells hold [who], from [(r, c)] on in direction
    [(dx, dy)]: the first [n] do and the one after them does not. *)
Definition contiguous (g : list (list string)) (who : string)
    (r c dx dy : Z) (n : nat) : Prop :=
  (∀ k : nat, (k < n)%nat → holds g who (r + Z.of_nat k * dx) (c + Z.of_nat k * dy))
  ∧ ¬ holds g who (r + Z.of_nat n * dx) (c + Z.of_nat n * dy).

(** The count of an axis pair through the placement cell [(row, col)]: the
    cell itself and the contiguous cells on either side of it. *)
Definition axis_total (g : list (list string)) (who : string) (row col : Z)
    (dir_pair : (Z * Z) * (Z * Z)) (count : nat) : Prop :=
  ∃ n1 n2 : nat,
    contiguous g who (row + dir_pair.1.1) (col + dir_pair.1.2)
               dir_pair.1.1 dir_pair.1.2 n1
    ∧ contiguous g who (row + dir_pair.2.1) (col + dir_pair.2.2)
                 dir_pair.2.1 dir_pair.2.2 n2
    ∧ count = (1 + n1 + n2)%nat.

(** One of the four axis pairs through [(row, col)] counts at least 4 cells
    with the mark of that cell. *)
Definition wins_at (g : list (list string)) (row col : Z) : Prop :=
  ∃ who dir_pair count,
    cell g row col = Some who ∧ dir_pair ∈ directions
    ∧ axis_total g who row col dir_pair count ∧ (4 ≤ count)%nat.

(** The four axes: horizontal, vertical and the two diagonals. *)
Definition axes : list (Z * Z) := [(0, 1); (1, 0); (1, 1); (1, -1)].

(** Four cells in a row with the same mark of a player, anywhere. *)
Definition line_of_four (g : list (list string)) : Prop :=
  ∃ (who : string) (r c dx dy : Z),
    who ≠ "O"%string ∧ (dx, dy) ∈ axes
    ∧ ∀ k : Z, 0 ≤ k < 4 → holds g who (r + k * dx) (c + k * dy).

(** Four cells in a row with the same mark of a player, the cell
    [(row, col)] one of them (the [k0]-th). *)
Definition line_through (g : list (list string)) (row col : Z) : Prop :=
  ∃ (who : string) (dx dy k0 : Z),
    who ≠ "O"%string ∧ (dx, dy) ∈ axes ∧ 0 ≤ k0 < 4
    ∧ ∀ k : Z, 0 ≤ k < 4 →
               holds g who (row + (k - k0) * dx) (col + (k - k0) * dy).

(** No cell of column [c] is empty. *)
Definition column_full (g : list (list string)) (c : Z) : Prop :=
  ∀ r, 0 ≤ r < Z.of_nat ROWS → cell g r c ≠ Some "O"%string.

Definition board_full (g : list (list string)) : Prop :=
  ∀ c, 0 ≤ c < Z.of_nat COLS → column_full g c.

(** Pieces rest on pieces: every cell above an empty cell is empty. *)
Definition gravity (g : list (list string)) : Prop :=
  ∀ r r' c, on_board r c → on_board r' c → r ≤ r' →
            cell g r c = Some "O"%string → cell g r' c = Some "O"%string.

(** What the win check of [is_terminal] looks at: the lines through the
    last move when there is one, the lines through every piece otherwise. *)
Definition win_seen (b : ConnectFour) : Prop :=
  match last_move b with
  | Some (row, col) => wins_at (board b) row col
  | None => ∃ row col who, on_board row col ∧ cell (board b) row col = Some who
                           ∧ who ≠ "O"%string ∧ wins_at (board b) row col
  end.

(** The last-move marker, when set, is on a piece on the board. *)
Definition marker_on_piece (b : ConnectFour) : Prop :=
  match last_move b with
  | Some (row, col) =>
      on_board row col
      ∧ ∃ who, cell (board b) row col = Some who ∧ who ≠ "O"%string
  | None => True
  end.

(** The lines of four that [is_terminal] can see: those through the last
    move when the marker is set, all of them when it is not. *)
Definition line_seen (b : ConnectFour) : Prop :=
  match last_move b with
  | Some (row, col) => line_through (board b) row col
  | None => line_of_four (board b)
  end.

(** [is_terminal] reports a win: [(True, 1)] or [(True, -1)]. *)
Definition reports_win (res : bool * option Z) : Prop :=
  res = (true, Some 1) ∨ res = (true, Some (-1)).

(** The last-move marker, when set, names a cell of the grid. *)
Definition marker_ok (b : ConnectFour) : Prop :=
  match last_move b with
  | Some (row, col) => is_Some (cell (board b) row col)
  | None => True
  end.

(** ** Boards the properties are checked on *)

(** One row of a board file, ["RRYYOOO"], as [list(line)] reads it. *)
Fixpoint row_of (line : string) : list string :=
  match line with
  | EmptyString => []
  | String a rest => String a EmptyString :: row_of rest
  end.

(** A full board, bottom row first, with four ["R"] in the bottom row, as
    [from_file] loads it: the marker is the last piece in reading order. *)
Definition unseen_line : ConnectFour :=
  mkConnectFour
    (row_of <$> ["RRRRYYR"; "YYRRYYR"; "RRYYRRY"; "YYRRYYR"; "RRYYRRY"; "YYRRYYR"]%string)
    (Some (5, 6)) [(5, 6)].

(** "Y" has just completed four in the bottom row. *)
Definition yellow_won : ConnectFour :=
  mkConnectFour
    (row_of <$> ["YYYYOOO"; "RRROOOO"; "OOOOOOO"; "OOOOOOO"; "OOOOOOO"; "OOOOOOO"]%string)
    (Some (0, 3))
    [(0, 0); (1, 0); (0, 1); (1, 1); (0, 2); (1, 2); (0, 3)].

(** A full board without a line of four. *)
Definition drawn_board : ConnectFour :=
  mkConnectFour
    (row_of <$> ["RRYYRRY"; "YYRRYYR"; "RRYYRRY"; "YYRRYYR"; "RRYYRRY"; "YYRRYYR"]%string)
    (Some (5, 6)) [(5, 6)].

(** ** Notions about the tree *)

(** What one iteration of the loop of [backpropagate] does to the node it
    visits at [depth]. *)
Definition visit (is_max : bool) (depth value : Z) (nd : MCTSNode) : MCTSNode :=
  mkNode (if bool_decide (bool_decide (depth `mod` 2 = 0) = is_max)
          then wi nd + value else wi nd - value)
         (ni nd + 1) (children nd) (parent nd) (move nd).

(** The references a node holds. *)
Definition links (nd : MCTSNode) : gmap Z nat * option nat * option Z :=
  (children nd, parent nd, move nd).

(** A node is created after its parent. *)
Definition parents_below (t : list MCTSNode) : Prop :=
  ∀ id nd p, t !! id = Some nd → parent nd = Some p → (p < id)%nat.

(** Only node [0] has no parent. *)
Definition single_root (t : list MCTSNode) : Prop :=
  ∀ id nd, t !! id = Some nd → parent nd = None → id = 0%nat.

(** [|W| <= N] *)
Definition counts_ok (nd : MCTSNode) : Prop := Z.abs (wi nd) ≤ ni nd.

(** The nodes from [node] up to the root, [node] first. *)
Definition ancestors (t : list MCTSNode) (node : nat) : option (list nat) :=
  path_up (length t) t (Some node).

(** A root and its one child, reached by move 3: the tree after the
    expansion step of the first simulation. *)
Definition two_nodes : list MCTSNode :=
  [ mkNode 0 0 {[ 3 := 1%nat ]} None None;
    mkNode 0 0 ∅ (Some 0%nat) (Some 3) ].

(** ** Notions about the search *)

(** The number of empty cells of the board: what bounds the moves that can
    still be made. *)
Definition empties (g : ConnectFour) : nat :=
  length (filter (λ rc, cell (board g) rc.1 rc.2 = Some "O"%string) all_cells).

(** The marker is the top of the move stack, as every method of
    [ConnectFour] leaves it. *)
Definition marker_top (g : ConnectFour) : Prop :=
  last_move g = stack_top (move_stack g).

(** A board as the constructor, [from_file], [make_move] and [undo_move]
    leave it. *)
Definition valid_game (g : ConnectFour) : Prop :=
  wf_grid (board g) ∧ marker_ok g ∧ marker_top g.

(** ['R'] or ['Y'] *)
Definition valid_player (p : string) : Prop := p = "R"%string ∨ p = "Y"%string.

(** The tree of one call of [select_move] on the board [g0]: every node
    stands for a position, [pos] lists the board and the player to move of
    each node; a child stands for the position after its move, which is legal
    in the position of its parent. *)
Definition tree_inv (u : UCT) (g0 : ConnectFour) (t : list MCTSNode)
    (pos : list (ConnectFour * string)) : Prop :=
  length pos = length t
  ∧ pos !! 0%nat = Some (g0, player u)
  ∧ parents_below t
  ∧ Forall counts_ok t
  ∧ ∀ id nd m cid, t !! id = Some nd → children nd !! m = Some cid →
      ∃ g p g' l nc,
        pos !! id = Some (g, p) ∧ get_legal_moves g = Some l ∧ m ∈ l
        ∧ make_move g m p = Some (true, g') ∧ pos !! cid = Some (g', other p)
        ∧ t !! cid = Some nc ∧ parent nc = Some id.

(** The variables of a simulation during the selection loop: the board is
    the position of the current node, reached from [g0] by the moves [pm]. *)
Definition walk_inv (g0 : ConnectFour) (pos : list (ConnectFour * string))
    (w : walk) (pm : list (Z * string)) : Prop :=
  pos !! w_node w = Some (game (w_search w), w_player w)
  ∧ make_moves g0 pm = Some (game (w_search w))
  ∧ pm.*1 = w_moves w
  ∧ wf_grid (board (game (w_search w)))
  ∧ marker_ok (game (w_search w))
  ∧ valid_player (w_player w).

(** ** Notions about the final decision *)

(** The value the final decision gives to a move: the plain average of the
    move's child, and 0 for a move without a child. *)
Definition move_value (t : list MCTSNode) (root : MCTSNode) (m : Z) : Qc :=
  match children root !! m with
  | Some cid => match t !! cid with
                | Some child => get_value child
                | None => 0%Qc
                end
  | None => 0%Qc
  end.

(** [a] is at least as good as [b] for the deciding player. *)
Definition as_good (is_max : bool) (a b : Qc) : Prop :=
  if is_max then (b ≤ a)%Qc else (a ≤ b)%Qc.

(** [a] is strictly better than [b] for the deciding player. *)
Definition better (is_max : bool) (a b : Qc) : Prop :=
  if is_max then (b < a)%Qc else (a < b)%Qc.

Global Instance better_dec is_max a b : Decision (better is_max a b).
Proof. destruct is_max; simpl; apply _. Defined.

(** [m] is the first move of [l] whose value is the best: no move of [l] is
    better, and every move before it is strictly worse. *)
Definition first_best (is_max : bool) (val : Z → Qc) (l : list Z) (m : Z) : Prop :=
  ∃ i : nat,
    l !! i = Some m
    ∧ (∀ j m', l !! j = Some m' → as_good is_max (val m) (val m'))
    ∧ (∀ j m', (j < i)%nat → l !! j = Some m' → better is_max (val m) (val m')).

(** The state [(best_move, best_value)] of the loop of the final decision
    after the moves [seen]. *)
Definition decided (is_max : bool) (val : Z → Qc) (seen : list Z)
    (best_move : option Z) (best_value : float) : Prop :=
  match best_move with
  | None => seen = [] ∧ best_value = (if is_max then NegInf else PosInf)
  | Some m => best_value = Fin (val m) ∧ first_best is_max val seen m
  end.

(** ** A search the properties are checked on *)

(** "Y" decides with three simulations, without reports. *)
Definition three_simulations : UCT := mkUCT "Y" 3 false false true 1%Qc.

(** The draws 0, 1, 2, ... *)
Definition count_up (k : nat) : nat := k.

(** Stand-ins for [math.log] and [math.sqrt] on the rationals. *)
Definition log_stub (n : Z) : Qc := Qc_of_Z (Z.log2 n).
Definition sqrt_stub (q : Qc) : Qc := q.

(** "Y" decides with one simulation, without reports. *)
Definition one_simulation : UCT := mkUCT "Y" 1 false false true 1%Qc.

(** A board with one empty cell in each of the columns 1 and 2, and no line
    of four; nobody has moved on it through [make_move]. *)
Definition two_left : ConnectFour :=
  mkConnectFour
    (row_of <$> ["RRYYRRY"; "YYRRYYR"; "RRYYRRY"; "YYRRYYR"; "RRYYRRY"; "OORRYYR"]%string)
    None [].

(** Every draw is 1: of two legal moves the second is chosen. *)
Definition always_one (k : nat) : nat := 1%nat.

(** Three moves on the empty board, and the board after them. *)
Definition three_moves : list (Z * string) :=
  [(4, "Y"); (4, "R"); (3, "Y")]%string.

Definition after_three_moves : ConnectFour :=
  mkConnectFour
    (row_of <$> ["OOYYOOO"; "OOOROOO"; "OOOOOOO"; "OOOOOOO"; "OOOOOOO"; "OOOOOOO"]%string)
    (Some (0, 2)) [(0, 3); (1, 3); (0, 2)].

(** ** Notions about reporting *)

(** The same search with every report switched off. *)
Definition quiet (u : UCT) : UCT :=
  mkUCT (player u) (num_simulations u) false false true (exploration_constant u).

(** The state of a search without what it printed. *)
Definition silence (s : search) : search :=
  mkSearch (game s) (tree s) (drawn s) [].

Definition silence_walk (w : walk) : walk :=
  mkWalk (silence (w_search w)) (w_node w) (w_player w) (w_moves w).

(** What one backpropagation may do to a node: nothing, or one visit more
    with [W] moved by at most 1. *)
Definition one_visit (before after : MCTSNode) : Prop :=
  (ni after = ni before ∧ wi after = wi before)
  ∨ (ni after = ni before + 1 ∧ Z.abs (wi after - wi before) ≤ 1).

(** * Further parts of the program *)

(** The board before the last of the [three_moves]. *)
Definition after_two_moves : ConnectFour :=
  mkConnectFour
    (row_of <$> ["OOOYOOO"; "OOOROOO"; "OOOOOOO"; "OOOOOOO"; "OOOOOOO"; "OOOOOOO"]%string)
    (Some (1, 3)) [(0, 3); (1, 3)].

(** Four cells in a row that hold the mark [who]. *)
Definition line_of (g : list (list string)) (who : string) : Prop :=
  ∃ r c dx dy : Z,
    (dx, dy) ∈ axes ∧ ∀ k : Z, 0 ≤ k < 4 → holds g who (r + k * dx) (c + k * dy).

(** ** Notions about the visit counts *)

(** The visit counts between two simulations: every node but the root has
    been visited, and no node more often than its parent. *)
Definition visits_ok (t : list MCTSNode) : Prop :=
  ∀ id nd, t !! id = Some nd →
    0 ≤ ni nd ∧ (id ≠ 0%nat → 1 ≤ ni nd)
    ∧ ∀ p pn, parent nd = Some p → t !! p = Some pn → ni nd ≤ ni pn.

(** The visit counts after the expansion step: the node [leaf] may be new. *)
Definition visits_pending (t : list MCTSNode) (leaf : nat) : Prop :=
  ∀ id nd, t !! id = Some nd →
    0 ≤ ni nd ∧ (id ≠ 0%nat → id ≠ leaf → 1 ≤ ni nd)
    ∧ ∀ p pn, parent nd = Some p → t !! p = Some pn → ni nd ≤ ni pn.

(** The tree after [n] simulations. *)
Definition searched (n : nat) (t : list MCTSNode) : Prop :=
  single_root t
  ∧ (∃ root, t !! 0%nat = Some root ∧ parent root = None
             ∧ ni root = Z.of_nat n)
  ∧ (length t ≤ S n)%nat
  ∧ visits_ok t.

(** * [algorithm1_ur.py] *)

(** [MCTSAlgorithm.simulate(game, current_player)], the same in
    [algorithm1_ur.py] and [algorithm3_uct.py]: the [while True] loop, which
    changes [game] and does not undo its moves. The result is the returned
    value, the board as the call leaves it and the number of draws taken
    from [random] so far; [k] is that number before the call. *)
Fixpoint simulate (rnd : nat → nat) (steps : nat) (g : ConnectFour)
    (current_player : string) (k : nat) : option (Z * ConnectFour * nat) :=
  match steps with
  | O => None
  | S steps' =>
      '(terminal, value) ← is_terminal g;
      if (terminal : bool) then Some (default 0 value, g, k)
      else
        legal_moves ← get_legal_moves g;
        if decide (length legal_moves = 0%nat) then Some (0, g, k)
        else
          move ← choice rnd legal_moves k;
          '(_, g') ← make_move g move current_player;
          simulate rnd steps' g' (other current_player) (S k)
  end.

Module UniformRandom.

(** [UniformRandom.select_move]; the object has the attributes of
    [MCTSAlgorithm], of which the method reads [suppress_output]. *)
Definition select_move (rnd : nat → nat) (u : UCT) (s : search)
  : option (Z * search) :=
  legal_moves ← get_legal_moves (game s);
  if decide (length legal_moves = 0%nat) then Some (1, s)
  else
    move ← choice rnd legal_moves (drawn s);
    let s := mkSearch (game s) (tree s) (S (drawn s)) (out s) in
    Some (move, emit s (negb (suppress_output u)) [PrintFinalMove move]).

End UniformRandom.

(** The players of [n] turns in a row, [p] first. *)
Fixpoint turns (p : string) (n : nat) : list string :=
  match n with
  | O => []
  | S n' => p :: turns (other p) n'
  end.

(** * Loading and printing a board *)

(** The loop that ends [from_file]: every piece met in the scan, bottom row
    first and left to right, becomes the marker and the only entry of the
    move stack ([[(row, col)] if game.last_move else []] is the list, the
    marker just set being a pair). *)
Fixpoint mark_last_piece (g : ConnectFour) (cells : list (Z * Z))
  : option ConnectFour :=
  match cells with
  | [] => Some g
  | (row, col) :: rest =>
      x ← cell (board g) row col;
      if decide (x ≠ "O"%string) then
        mark_last_piece (mkConnectFour (board g) (Some (row, col)) [(row, col)])
                        rest
      else mark_last_piece g rest
  end.

(** [from_file], from the list [lines] of the stripped lines of the file on;
    a [ValueError] or [IndexError] is [None]. A character is a byte. *)
Definition from_file (lines : list string)
  : option (ConnectFour * string * string) :=
  algorithm ← Py.getitem lines 0;
  player ← Py.getitem lines 1;
  if decide (length lines < 8)%nat then None
  else
    let board_lines := take (8 - 2) (drop 2 lines) in
    board ← mapM (λ line, if decide (String.length line ≠ COLS) then None
                          else Some (row_of line)) board_lines;
    let board := reverse board in
    game ← mark_last_piece (mkConnectFour board None []) all_cells;
    Some (game, algorithm, player).

(** The line feed. *)
Definition newline : string := String (Ascii.ascii_of_nat 10) EmptyString.

(** [str(game)] *)
Definition __str__ (b : ConnectFour) : option string :=
  lines ← mapM (λ row, r ← Py.getitem (board b) row;
                       Some (String.concat EmptyString r))
               (reverse (Py.range ROWS));
  Some (String.concat newline lines).

(** [(r', c')] comes after [(r, c)] in the scan of the board, bottom row
    first and left to right. *)
Definition scanned_after (rc rc' : Z * Z) : Prop :=
  rc.1 < rc'.1 ∨ (rc.1 = rc'.1 ∧ rc.2 < rc'.2).

(** A board file: a full bottom row over an empty board, "Y" to move. *)
Definition board_file : list string :=
  ["UCT"; "Y"; "OOOOOOO"; "OOOOOOO"; "OOOOOOO"; "OOOOOOO"; "OOOOOOO";
   "RYRYRYR"]%string.

(** The board that [from_file] makes of it. *)
Definition board_file_game : ConnectFour :=
  mkConnectFour
    (row_of <$> ["RYRYRYR"; "OOOOOOO"; "OOOOOOO"; "OOOOOOO"; "OOOOOOO";
                 "OOOOOOO"]%string)
    (Some (0, 6)) [(0, 6)].

(** * [tournament.py] *)

(** The objects that [_create_algorithm] makes; each holds the attributes of
    [MCTSAlgorithm] (the exploration constant is read by [UCT] alone). *)
Inductive algorithm :=
| UR_object (u : UCT)
| PMCGS_object (u : UCT)
| UCT_object (u : UCT).

Section Tournament.

Variable rnd : nat → nat.
Variable math_log : Z → Qc.
Variable math_sqrt : Qc → Qc.

(** [math.sqrt(2)], the default of [exploration_constant]. *)
Variable sqrt_2 : Qc.

(** [PMCGS.select_move] of [algorithm2_pmcgs.py], a module that is not among
    the sources: from the object, the board and the number of draws taken
    to the move, the board and the number of draws. *)
Variable PMCGS_select_move :
  UCT → ConnectFour → nat → option (Z * ConnectFour * nat).

(** [_create_algorithm(algo_name, param, game, player)]; the [ValueError]
    is [None]. The board is shared with the caller: it is passed to
    [algo_select_move] below. *)
Definition _create_algorithm (algo_name : string) (param : Z)
    (player : string) : option algorithm :=
  if decide (algo_name = "UR"%string) then
    Some (UR_object (mkUCT player 0 false false true sqrt_2))
  else if decide (algo_name = "PMCGS"%string) then
    Some (PMCGS_object (mkUCT player param false false true sqrt_2))
  else if decide (algo_name = "UCT"%string) then
    Some (UCT_object (mkUCT player param false false true sqrt_2))
  else None.

(** [algo.select_move()] on a fresh object *)
Definition algo_select_move (algo : algorithm) (g : ConnectFour) (k : nat)
  : option (Z * ConnectFour * nat) :=
  match algo with
  | UR_object u =>
      '(move, s) ← UniformRandom.select_move
                     rnd u (mkSearch g [new_node None None] k []);
      Some (move, game s, drawn s)
  | PMCGS_object u => PMCGS_select_move u g k
  | UCT_object u =>
      '(move, s) ← select_move rnd math_log math_sqrt u
                               (mkSearch g [new_node None None] k []);
      Some (move, game s, drawn s)
  end.

(** The [while True] loop of [play_game]. The result of [make_move] is
    dropped, as in the source; [steps] bounds the iterations. *)
Fixpoint play_loop (steps : nat) (algo1_name : string) (algo1_param : Z)
    (algo2_name : string) (algo2_param : Z) (g : ConnectFour)
    (current_player : string) (k : nat)
  : option (string * ConnectFour * nat) :=
  match steps with
  | O => None
  | S steps' =>
      '(terminal, value) ← is_terminal g;
      if (terminal : bool) then
        Some (if decide (value = Some 1) then "algo2"%string
              else if decide (value = Some (-1)) then "algo1"%string
              else "draw"%string, g, k)
      else
        algo ← (if decide (current_player = "Y"%string)
                then _create_algorithm algo2_name algo2_param "Y"
                else _create_algorithm algo1_name algo1_param "R");
        '(move, g, k) ← algo_select_move algo g k;
        '(_, g) ← make_move g move current_player;
        play_loop steps' algo1_name algo1_param algo2_name algo2_param g
                  (if decide (current_player = "Y"%string) then "R"%string
                   else "Y"%string) k
  end.

(** [play_game]: the result, and the board and the number of draws at the
    end. *)
Definition play_game (algo1_name : string) (algo1_param : Z)
    (algo2_name : string) (algo2_param : Z) (algo1_starts : bool) (k : nat)
  : option (string * ConnectFour * nat) :=
  play_loop loop_steps algo1_name algo1_param algo2_name algo2_param
            empty_board (if algo1_starts then "R"%string else "Y"%string) k.

End Tournament.

(** A stand-in for the missing [PMCGS.select_move]: it raises. *)
Definition no_pmcgs (u : UCT) (g : ConnectFour) (k : nat)
  : option (Z * ConnectFour * nat) := None.

(** * [main.py] *)

(** A [bool] where a number is expected: [False] is 0 and [True] is 1. *)
Definition number_of_bool (b : bool) : Qc := if b then 1%Qc else 0%Qc.

(** The parameters of [UCT.__init__] after [game], in their order. *)
Definition UCT_init (player : string) (num_simulations : Z)
    (verbose brief : bool) (exploration_constant : Qc)
    (suppress_output : bool) : UCT :=
  mkUCT player num_simulations verbose brief suppress_output
        exploration_constant.

(** The object [main] makes for the algorithm "UCT":
    [UCT(game, player, parameter, verbose, brief, suppress_output)] with
    [suppress_output = False]. The arguments are positional, so the last of
    them is bound to the parameter [exploration_constant], and the parameter
    [suppress_output] keeps its default, [False]. *)
Definition main_UCT (player : string) (parameter : Z) (verbose brief : bool)
  : UCT :=
  let suppress_output := false in
  UCT_init player parameter verbose brief (number_of_bool suppress_output)
           false.

(** The lines [Column 1: ...] to [Column 7: ...] of the final decision: the
    value of a legal move, [Null] for another column. *)
Definition column_lines (t : list MCTSNode) (root : MCTSNode) (l : list Z)
  : list event :=
  (λ col, PrintColumn col (if decide (col ∈ l) then Some (move_value t root col)
                           else None))
    <$> (Z.of_nat <$> seq 1 7).

(** The board file of [unseen_line]: a full board, top row first. *)
Definition unseen_line_file : list string :=
  ["UCT"; "R"; "YYRRYYR"; "RRYYRRY"; "YYRRYYR"; "RRYYRRY"; "YYRRYYR";
   "RRRRYYR"]%string.

(** A board file of a game that "R" has won, with four in the bottom row,
    and the board that [from_file] makes of it: the marker is on the last
    piece of the second row. *)
Definition red_won_file : list string :=
  ["UCT"; "Y"; "OOOOOOO"; "OOOOOOO"; "OOOOOOO"; "OOOOOOO"; "YYYOOOO";
   "RRRROOO"]%string.

Definition red_won_game : ConnectFour :=
  mkConnectFour
    (row_of <$> ["RRRROOO"; "YYYOOOO"; "OOOOOOO"; "OOOOOOO"; "OOOOOOO";
                 "OOOOOOO"]%string)
    (Some (1, 2)) [(1, 2)].

(** * Properties of the board *)

(** ** Python indexing *)

Lemma index_lt n i k : Py.index n i = Some k → (k < n)%nat.
Proof.
  unfold Py.index. repeat case_decide; intros; simplify_eq; lia.
Qed.

Lemma index_nonneg n i : 0 ≤ i < Z.of_nat n → Py.index n i = Some (Z.to_nat i).
Proof. intros. unfold Py.index. by rewrite decide_True. Qed.

Lemma getitem_nonneg {A} (l : list A) i :
  0 ≤ i → Py.getitem l i = l !! Z.to_nat i.
Proof.
  intros Hi. unfold Py.getitem, Py.index.
  destruct (decide (0 ≤ i < Z.of_nat (length l))); simpl; [done|].
  rewrite decide_False by lia. simpl.
  symmetry. apply lookup_ge_None. lia.
Qed.

Lemma setitem_getitem {A} (l l' : list A) i x y :
  Py.getitem l i = Some x → Py.setitem l i y = Some l' →
  Py.getitem l' i = Some y ∧ Py.setitem l' i x = Some l ∧ length l' = length l.
Proof.
  unfold Py.getitem, Py.setitem. intros Hg Hs.
  destruct (Py.index (length l) i) as [k|] eqn:Hk; simplify_eq/=.
  rewrite length_insert, Hk. simpl.
  pose proof (index_lt _ _ _ Hk).
  rewrite list_lookup_insert_eq by done.
  by rewrite list_insert_insert_eq, list_insert_id.
Qed.

(** Writing a cell and then writing its old content back restores the grid. *)
Lemma set_cell_restore g g' row col x y :
  cell g row col = Some x → set_cell g row col y = Some g' →
  set_cell g' row col x = Some g.
Proof.
  unfold cell, set_cell. intros Hc Hs.
  destruct (Py.getitem g row) as [r|] eqn:Hr; simplify_eq/=.
  destruct (Py.setitem r col y) as [r'|] eqn:Hr'; simplify_eq/=.
  destruct (setitem_getitem _ _ _ _ _ Hr Hs) as (-> & Hback & _). simpl.
  destruct (setitem_getitem _ _ _ _ _ Hc Hr') as (_ & -> & _). simpl.
  done.
Qed.

(** ** [make_move] followed by [undo_move] *)

Lemma drop_piece_true b col_idx who rows b' :
  drop_piece b col_idx who rows = Some (true, b') →
  ∃ row, cell (board b) row col_idx = Some "O"%string
         ∧ set_cell (board b) row col_idx who = Some (board b')
         ∧ move_stack b' = move_stack b ++ [(row, col_idx)]
         ∧ last_move b' = Some (row, col_idx)
         ∧ row ∈ rows.
Proof.
  induction rows as [|row rest IH]; simpl; [done|].
  destruct (cell (board b) row col_idx) as [c|] eqn:Hc; simpl; [|done].
  case_decide as Hd.
  - subst c. destruct (set_cell (board b) row col_idx who) eqn:Hs; simpl; [|done].
    intros [= <-]. exists row. simpl. repeat split; try done. left.
  - intros H. destruct (IH H) as (r & ? & ? & ? & ? & ?).
    exists r. repeat split; try done. by right.
Qed.

Lemma make_move_true b column who b' :
  make_move b column who = Some (true, b') →
  ∃ row, cell (board b) row (column - 1) = Some "O"%string
         ∧ set_cell (board b) row (column - 1) who = Some (board b')
         ∧ move_stack b' = move_stack b ++ [(row, column - 1)]
         ∧ last_move b' = Some (row, column - 1).
Proof.
  intros H. destruct (drop_piece_true _ _ _ _ _ H) as (r & ? & ? & ? & ? & _).
  eauto.
Qed.

Lemma stack_top_snoc s x : stack_top (s ++ [x]) = Some x.
Proof. apply last_snoc. Qed.

(** [undo_move] takes its fast path after a successful [make_move] of the same
    column, whatever [last_move] is, and restores grid and stack. *)
Lemma undo_after_make b column who b1 b1' :
  make_move b column who = Some (true, b1) →
  board b1' = board b1 → move_stack b1' = move_stack b1 →
  undo_move b1' column
  = Some (mkConnectFour (board b) (stack_top (move_stack b)) (move_stack b)).
Proof.
  intros Hm Hb Hs.
  destruct (make_move_true _ _ _ _ Hm) as (row & Hc & Hset & Hst & _).
  unfold undo_move. rewrite Hs, Hst, stack_top_snoc.
  rewrite decide_True by done.
  rewrite Hb, (set_cell_restore _ _ _ _ _ _ Hc Hset). simpl.
  by rewrite removelast_last.
Qed.

Lemma undo_all_app g ms1 ms2 :
  undo_all g (ms1 ++ ms2) = g' ← undo_all g ms1; undo_all g' ms2.
Proof.
  revert g. induction ms1 as [|m ms1 IH]; intros g; simpl; [done|].
  destruct (undo_move g m); simpl; [apply IH|done].
Qed.

(** The state after undoing [ms] in reverse: grid and stack of the start, and
    [last_move] the top of the stack unless no move was made. *)
Lemma make_moves_undo_all b ms b' :
  make_moves b ms = Some b' →
  ∃ b'', undo_all b' (reverse ms.*1) = Some b''
         ∧ board b'' = board b ∧ move_stack b'' = move_stack b
         ∧ (ms = [] ∨ last_move b'' = stack_top (move_stack b)).
Proof.
  revert b. induction ms as [|[column who] rest IH]; intros b.
  - intros [= <-]. exists b. auto.
  - cbn [make_moves].
    destruct (make_move b column who) as [[[] b1]|] eqn:Hm;
      cbn [mbind option_bind]; try done.
    intros Hrest. destruct (IH _ Hrest) as (b1' & Hu & Hb & Hs & _).
    rewrite fmap_cons, reverse_cons, undo_all_app, Hu. simpl.
    rewrite (undo_after_make _ _ _ _ _ Hm Hb Hs). simpl.
    eexists. split; [done|]. simpl. auto.
Qed.

(** C3. Undoing a sequence of successful moves, same columns in reverse order,
    restores the grid, and with it the legal moves (and the move stack). *)
Theorem make_undo_roundtrip (b : ConnectFour) (ms : list (Z * string))
    (b' : ConnectFour) :
  make_moves b ms = Some b' →
  ∃ b'', undo_all b' (reverse ms.*1) = Some b''
         ∧ board b'' = board b
         ∧ get_legal_moves b'' = get_legal_moves b
         ∧ move_stack b'' = move_stack b.
Proof.
  intros H. destruct (make_moves_undo_all _ _ _ H) as (b'' & Hu & Hb & Hs & _).
  exists b''. unfold get_legal_moves. rewrite Hb. done.
Qed.

Lemma make_undo_roundtrip_witness :
  ∃ b'', undo_all after_three_moves (reverse three_moves.*1) = Some b''
         ∧ board b'' = board empty_board
         ∧ get_legal_moves b'' = get_legal_moves empty_board
         ∧ move_stack b'' = move_stack empty_board.
Proof.
  apply (make_undo_roundtrip empty_board three_moves after_three_moves).
  reflexivity.
Defined.

(** ** Cells of a 6 x 7 grid *)

Lemma cell_nonneg g r c :
  0 ≤ r → 0 ≤ c →
  cell g r c = row ← g !! Z.to_nat r; row !! Z.to_nat c.
Proof.
  intros Hr Hc. unfold cell. rewrite getitem_nonneg by done.
  destruct (g !! Z.to_nat r); simpl; [|done]. by apply getitem_nonneg.
Qed.

Lemma cell_on_board g r c :
  wf_grid g → on_board r c → is_Some (cell g r c).
Proof.
  intros [Hlen Hrows] [Hr Hc]. rewrite cell_nonneg by lia.
  destruct (lookup_lt_is_Some_2 g (Z.to_nat r)) as [row Hrow]; [unfold ROWS in *; lia|].
  rewrite Hrow. simpl. apply lookup_lt_is_Some_2.
  rewrite Forall_lookup in Hrows. rewrite (Hrows _ _ Hrow). unfold COLS in *. lia.
Qed.

Lemma setitem_length {A} (l l' : list A) i x :
  Py.setitem l i x = Some l' → length l' = length l.
Proof.
  unfold Py.setitem. destruct (Py.index _ _); simpl; [|done].
  intros [= <-]. apply length_insert.
Qed.

Lemma set_cell_wf g g' r c x :
  wf_grid g → set_cell g r c x = Some g' → wf_grid g'.
Proof.
  intros [Hlen Hrows]. unfold set_cell, Py.getitem.
  destruct (Py.index (length g) r) as [k|] eqn:Hk; simpl; [|done].
  destruct (g !! k) as [row|] eqn:Hrow; simpl; [|done].
  destruct (Py.setitem row c x) as [row'|] eqn:Hrow'; simpl; [|done].
  unfold Py.setitem. rewrite Hk. simpl. intros [= <-]. split.
  - by rewrite length_insert.
  - apply Forall_insert; [done|]. rewrite (setitem_length _ _ _ _ Hrow').
    rewrite Forall_lookup in Hrows. eauto.
Qed.

(** ** The walk of [_check_win] in one direction *)

Section Run.
Context (g : list (list string)) (who : string) (dx dy : Z).

(** The walk ends: a measure [mu] drops at every step taken on the board. *)
Lemma run_length_total (mu : Z → Z → nat) steps r c :
  wf_grid g →
  (∀ r c, on_board r c → (mu (r + dx)%Z (c + dy)%Z < mu r c)%nat) →
  (on_board r c → (mu r c ≤ steps)%nat) →
  is_Some (run_length (S steps) g who r c dx dy).
Proof.
  intros Hwf Hmu. revert r c.
  induction steps as [|steps IH]; intros r c Hlt;
    cbn [run_length]; (case_decide as Hon; [|by eexists]);
    destruct (cell_on_board g r c Hwf Hon) as [x ->]; simpl;
    (case_decide; [|by eexists]);
    specialize (Hmu _ _ Hon); specialize (Hlt Hon).
  - lia.
  - destruct (IH (r + dx) (c + dy)) as [n Hn]; [lia|].
    cbn [run_length] in Hn. rewrite Hn. by eexists.
Qed.

(** What the walk counts. *)
Lemma run_length_contiguous steps r c n :
  run_length steps g who r c dx dy = Some n → contiguous g who r c dx dy n.
Proof.
  revert r c n. induction steps as [|steps IH]; intros r c n; simpl; [done|].
  case_decide as Hon.
  - destruct (cell g r c) as [x|] eqn:Hx; simpl; [|done].
    case_decide as Heq.
    + destruct (run_length steps g who (r + dx) (c + dy) dx dy) as [m|] eqn:Hm;
        simpl; [|done].
      intros [= <-]. destruct (IH _ _ _ Hm) as [Hall Hstop]. split.
      * intros [|k] Hk.
        -- rewrite !Z.add_0_r. split; [done|]. by subst.
        -- replace (r + Z.of_nat (S k) * dx) with (r + dx + Z.of_nat k * dx) by lia.
           replace (c + Z.of_nat (S k) * dy) with (c + dy + Z.of_nat k * dy) by lia.
           apply Hall. lia.
      * replace (r + Z.of_nat (S m) * dx) with (r + dx + Z.of_nat m * dx) by lia.
        replace (c + Z.of_nat (S m) * dy) with (c + dy + Z.of_nat m * dy) by lia.
        done.
    + intros [= <-]. split; [intros; lia|].
      rewrite !Z.add_0_r. intros [_ ?]. congruence.
  - intros [= <-]. split; [intros; lia|].
    rewrite !Z.add_0_r. by intros [? _].
Qed.

Lemma contiguous_unique r c n m :
  contiguous g who r c dx dy n → contiguous g who r c dx dy m → n = m.
Proof.
  intros [Hn Hn'] [Hm Hm'].
  destruct (lt_eq_lt_dec n m) as [[Hlt| ->]|Hlt]; [|done|].
  - destruct Hn'. by apply Hm.
  - destruct Hm'. by apply Hn.
Qed.
End Run.

(** ** [_check_win] *)

Lemma run_length_directions g who r c d dx dy :
  wf_grid g → d ∈ directions → (dx, dy) = d.1 ∨ (dx, dy) = d.2 →
  is_Some (run_length run_steps g who r c dx dy).
Proof.
  intros Hwf Hd Hdir.
  assert (dy = 1 ∨ dy = -1 ∨ (dy = 0 ∧ dx = 1) ∨ (dy = 0 ∧ dx = -1)) as Hcases.
  { unfold directions in Hd. set_unfold.
    destruct Hd as [->|[->|[->|[->|[]]]]]; destruct Hdir; simplify_eq/=; lia. }
  change run_steps with (S 7).
  destruct Hcases as [->|[->|[[-> ->]|[-> ->]]]].
  - apply (run_length_total g who dx 1 (λ _ c, Z.to_nat (7 - c))); [done|..];
      unfold on_board, ROWS, COLS; intros; lia.
  - apply (run_length_total g who dx (-1) (λ _ c, Z.to_nat (c + 1))); [done|..];
      unfold on_board, ROWS, COLS; intros; lia.
  - apply (run_length_total g who 1 0 (λ r _, Z.to_nat (6 - r))); [done|..];
      unfold on_board, ROWS, COLS; intros; lia.
  - apply (run_length_total g who (-1) 0 (λ r _, Z.to_nat (r + 1))); [done|..];
      unfold on_board, ROWS, COLS; intros; lia.
Qed.

Lemma axis_total_unique g who row col d n m :
  axis_total g who row col d n → axis_total g who row col d m → n = m.
Proof.
  intros (a1 & a2 & Ha1 & Ha2 & ->) (b1 & b2 & Hb1 & Hb2 & ->).
  by rewrite (contiguous_unique _ _ _ _ _ _ _ _ Ha1 Hb1),
             (contiguous_unique _ _ _ _ _ _ _ _ Ha2 Hb2).
Qed.

Lemma axis_count_total g who row col d :
  wf_grid g → d ∈ directions →
  ∃ count, axis_count g who row col d = Some count
           ∧ axis_total g who row col d count.
Proof.
  intros Hwf Hd. destruct d as [[dx1 dy1] [dx2 dy2]]. unfold axis_count.
  destruct (run_length_directions g who (row + dx1) (col + dy1) _ dx1 dy1 Hwf Hd)
    as [n1 H1]; [by left|].
  destruct (run_length_directions g who (row + dx2) (col + dy2) _ dx2 dy2 Hwf Hd)
    as [n2 H2]; [by right|].
  rewrite H1, H2. simpl. eexists. split; [done|].
  exists n1, n2. eauto using run_length_contiguous.
Qed.

Lemma check_axes_spec g who row col dirs :
  wf_grid g → dirs ⊆ directions →
  ∃ res, check_axes g who row col dirs = Some res
         ∧ (res = Some who ∨ res = None)
         ∧ (res = Some who ↔
            ∃ d count, d ∈ dirs ∧ axis_total g who row col d count
                       ∧ (4 ≤ count)%nat).
Proof.
  intros Hwf. induction dirs as [|d rest IH]; intros Hsub; simpl.
  - eexists. split; [done|]. split; [by right|]. split; [done|].
    intros (? & ? & []%elem_of_nil & _).
  - destruct (axis_count_total g who row col d Hwf) as (count & -> & Htot);
      [set_solver|]. simpl.
    case_decide as Hfour.
    + eexists. split; [done|]. split; [by left|]. split; [|done].
      intros _. exists d, count. split; [left|done].
    + destruct IH as (res & -> & Hres & Hiff); [set_solver|].
      eexists. split; [done|]. split; [done|]. rewrite Hiff. split.
      * intros (d' & n & ? & ? & ?). exists d', n. split; [by right|done].
      * intros (d' & n & [->|?]%elem_of_cons & Hn & ?).
        -- rewrite (axis_total_unique _ _ _ _ _ _ _ Hn Htot) in *. lia.
        -- eauto.
Qed.

(** [_check_win] returns the mark of the cell when an axis through the cell
    counts four, and [None] otherwise. *)
Lemma check_win_spec b row col who :
  wf_grid (board b) → cell (board b) row col = Some who →
  ∃ res, _check_win b row col = Some res
         ∧ (res = Some who ∨ res = None)
         ∧ (res = Some who ↔ wins_at (board b) row col).
Proof.
  intros Hwf Hc. unfold _check_win. rewrite Hc. cbn [mbind option_bind].
  destruct (check_axes_spec (board b) who row col directions Hwf)
    as (res & -> & Hres & Hiff); [done|].
  eexists. split; [done|]. split; [done|]. rewrite Hiff. unfold wins_at. split.
  - intros (d & n & ? & ? & ?). by exists who, d, n.
  - intros (who' & d & n & ? & ? & ? & ?). simplify_eq. eauto.
Qed.

(** ** [get_legal_moves] *)

Lemma legal_from_filter g cols :
  wf_grid g → Forall (λ c, 0 ≤ c < Z.of_nat COLS) cols →
  legal_from g cols
  = Some ((λ c, c + 1) <$>
          filter (λ c, cell g (Z.of_nat ROWS - 1) c = Some "O"%string) cols).
Proof.
  intros Hwf. induction 1 as [|c cols Hc _ IH]; [done|].
  cbn [legal_from].
  destruct (cell_on_board g (Z.of_nat ROWS - 1) c Hwf) as [x Hx].
  { unfold on_board, ROWS in *. lia. }
  rewrite Hx, IH. cbn [mbind option_bind]. rewrite filter_cons.
  repeat case_decide; simplify_eq; done.
Qed.

Lemma range_bounds n c : c ∈ Py.range n ↔ 0 ≤ c < Z.of_nat n.
Proof.
  unfold Py.range. rewrite list_elem_of_fmap. setoid_rewrite elem_of_seq. split.
  - intros (k & -> & ?). lia.
  - intros ?. exists (Z.to_nat c). lia.
Qed.

Lemma range_sorted n : StronglySorted Z.lt (Py.range n).
Proof.
  unfold Py.range. generalize 0%nat.
  induction n as [|n IH]; intros k; simpl; constructor; [apply IH|].
  apply Forall_forall. intros c (j & -> & Hj%elem_of_seq)%list_elem_of_fmap. lia.
Qed.

Lemma sorted_filter_succ (P : Z → Prop) `{!∀ c, Decision (P c)} cols :
  StronglySorted Z.lt cols →
  StronglySorted Z.lt ((λ c, c + 1) <$> filter P cols).
Proof.
  induction 1 as [|c cols _ IH Hall]; [constructor|].
  rewrite filter_cons. case_decide; [|done].
  rewrite fmap_cons. constructor; [done|].
  apply Forall_forall. intros m (c' & -> & [_ Hc']%list_elem_of_filter)%list_elem_of_fmap.
  rewrite Forall_forall in Hall. specialize (Hall _ Hc'). lia.
Qed.

(** The legal moves: the columns, numbered from 1, whose top cell is empty,
    in ascending order. *)
Lemma get_legal_moves_spec b :
  wf_grid (board b) →
  ∃ l, get_legal_moves b = Some l
       ∧ (∀ m, m ∈ l ↔ 1 ≤ m ≤ Z.of_nat COLS
                       ∧ cell (board b) (Z.of_nat ROWS - 1) (m - 1) = Some "O"%string)
       ∧ StronglySorted Z.lt l.
Proof.
  intros Hwf. unfold get_legal_moves.
  rewrite legal_from_filter; [|done|by apply Forall_forall; intros ? ?%range_bounds].
  eexists. split; [done|]. split.
  - intros m. rewrite list_elem_of_fmap. setoid_rewrite list_elem_of_filter.
    setoid_rewrite range_bounds. split.
    + intros (c & -> & ? & ?). replace (c + 1 - 1) with c by lia. split; [lia|done].
    + intros [? ?]. exists (m - 1). split; [lia|]. split; [done|lia].
  - apply sorted_filter_succ, range_sorted.
Qed.

(** No legal move: the top cell of every column is taken. *)
Lemma no_legal_moves b l :
  wf_grid (board b) → get_legal_moves b = Some l →
  l = [] ↔ ∀ c, 0 ≤ c < Z.of_nat COLS →
                cell (board b) (Z.of_nat ROWS - 1) c ≠ Some "O"%string.
Proof.
  intros Hwf Hl. destruct (get_legal_moves_spec b Hwf) as (l' & Hl' & Hmem & _).
  simplify_eq. split.
  - intros -> c Hc Htop. apply (not_elem_of_nil (c + 1)), Hmem.
    replace (c + 1 - 1) with c by lia. split; [lia|done].
  - intros Hfull. destruct l as [|m l]; [done|].
    destruct (proj1 (Hmem m)) as [Hm Htop]; [left|].
    destruct (Hfull (m - 1)); [lia|done].
Qed.

Lemma full_top_cells g :
  gravity g →
  board_full g ↔ ∀ c, 0 ≤ c < Z.of_nat COLS →
                      cell g (Z.of_nat ROWS - 1) c ≠ Some "O"%string.
Proof.
  intros Hgrav. split.
  - intros Hfull c Hc. apply Hfull; [done|]. unfold ROWS. lia.
  - intros Htop c Hc r Hr Hempty. apply (Htop c Hc).
    apply (Hgrav r); unfold on_board, ROWS in *; try done; lia.
Qed.

(** ** [is_terminal] *)

Lemma all_cells_on_board r c : (r, c) ∈ all_cells ↔ on_board r c.
Proof.
  unfold all_cells, on_board. rewrite list_elem_of_bind. split.
  - intros (r' & (c' & Hin & Hc)%list_elem_of_bind & Hr).
    apply list_elem_of_singleton in Hin. simplify_eq.
    by rewrite <-!range_bounds.
  - intros [Hr Hc]. exists r. rewrite list_elem_of_bind, range_bounds. split; [|done].
    exists c. rewrite range_bounds, list_elem_of_singleton. done.
Qed.

(** The scan of the whole board finds a winner when an axis through some
    piece counts four; the winner is the mark of such a piece. *)
Lemma scan_for_win_spec b cells :
  wf_grid (board b) → (∀ r c, (r, c) ∈ cells → on_board r c) →
  ∃ res, scan_for_win b cells = Some res
    ∧ (∀ w, res = Some w → w ≠ "O"%string)
    ∧ (is_Some res ↔
       ∃ r c who, (r, c) ∈ cells ∧ cell (board b) r c = Some who
                  ∧ who ≠ "O"%string ∧ wins_at (board b) r c).
Proof.
  intros Hwf. induction cells as [|[r c] rest IH]; intros Hon; cbn [scan_for_win].
  - eexists. split; [done|]. split; [done|]. split; [by intros []|].
    intros (? & ? & ? & []%elem_of_nil & _).
  - destruct (cell_on_board (board b) r c Hwf) as [x Hx]; [apply Hon; left|].
    destruct IH as (res & Hres & Hmark & Hiff); [intros; apply Hon; by right|].
    rewrite Hx. cbn [mbind option_bind]. case_decide as Hpiece.
    + destruct (check_win_spec b r c x Hwf Hx) as (w & -> & Hw & Hwin).
      cbn [mbind option_bind]. destruct Hw as [->| ->].
      * eexists. split; [done|]. split; [by intros ? [= <-]|].
        split; [|by eexists]. intros _. exists r, c, x.
        split; [left|]. split; [done|]. split; [done|]. by apply Hwin.
      * rewrite Hres. eexists. split; [done|]. split; [done|]. rewrite Hiff.
        split.
        -- intros (r' & c' & who & ? & ?). exists r', c', who. split; [by right|done].
        -- intros (r' & c' & who & [[= -> ->]|?]%elem_of_cons & Hc & Hne & Hwins).
           ++ simplify_eq. by apply Hwin in Hwins.
           ++ eauto 10.
    + rewrite Hres. eexists. split; [done|]. split; [done|]. rewrite Hiff.
      split.
      * intros (r' & c' & who & ? & ?). exists r', c', who. split; [by right|done].
      * intros (r' & c' & who & [[= -> ->]|?]%elem_of_cons & Hc & Hne & Hwins).
        -- by simplify_eq.
        -- eauto 10.
Qed.

(** The first step of [is_terminal]: the winner the check finds, if any. *)
Lemma winner_spec b :
  wf_grid (board b) → marker_ok b →
  ∃ winner,
    match last_move b with
    | Some (row, col) => _check_win b row col
    | None => _check_board_for_win b
    end = Some winner
    ∧ (is_Some winner ↔ win_seen b)
    ∧ (∀ row col, last_move b = Some (row, col) →
                  winner = None ∨ winner = cell (board b) row col).
Proof.
  intros Hwf Hok. unfold marker_ok, win_seen in *.
  destruct (last_move b) as [[row col]|].
  - destruct Hok as [who Hc].
    destruct (check_win_spec b row col who Hwf Hc) as (res & -> & Hres & Hwin).
    eexists. split; [done|]. split.
    + rewrite <-Hwin. destruct Hres as [-> | ->]; split; try done; by intros [].
    + intros ?? [= <- <-]. rewrite Hc. destruct Hres; auto.
  - unfold _check_board_for_win.
    destruct (scan_for_win_spec b all_cells Hwf) as (res & -> & _ & Hiff).
    { intros. by apply all_cells_on_board. }
    eexists. split; [done|]. split; [|done]. rewrite Hiff.
    by setoid_rewrite all_cells_on_board.
Qed.

(** [is_terminal] returns, and what it returns. *)
Lemma is_terminal_spec b :
  wf_grid (board b) → marker_ok b →
  ∃ res l, is_terminal b = Some res ∧ get_legal_moves b = Some l
    ∧ (reports_win res ↔ win_seen b)
    ∧ (res = (true, Some 0) ↔ ¬ win_seen b ∧ l = [])
    ∧ (res = (false, None) ↔ ¬ win_seen b ∧ l ≠ [])
    ∧ (∀ row col who, last_move b = Some (row, col) →
         cell (board b) row col = Some who → win_seen b →
         res = (true, Some (if decide (who = "R"%string) then -1 else 1))).
Proof.
  intros Hwf Hok. unfold is_terminal.
  destruct (winner_spec b Hwf Hok) as (winner & -> & Hseen & Hmark).
  destruct (get_legal_moves_spec b Hwf) as (l & Hl & _).
  cbn [mbind option_bind]. destruct winner as [w|].
  - assert (win_seen b) as Hwin by (apply Hseen; by eexists).
    eexists _, l. split; [done|]. split; [done|]. unfold reports_win.
    split; [|split; [|split]].
    + split; [done|]. intros _. case_decide; auto.
    + split; [case_decide; done|]. by intros [? _].
    + split; [done|]. by intros [? _].
    + intros row col who Hlast Hc _.
      destruct (Hmark _ _ Hlast) as [?|Hw]; [done|].
      rewrite Hc in Hw. by simplify_eq.
  - assert (¬ win_seen b) as Hno by (rewrite <-Hseen; by intros []).
    rewrite Hl. cbn [mbind option_bind]. exists (if decide (length l = 0%nat) then (true, Some 0) else (false, None)), l.
    split; [by case_decide|]. split; [done|].
    unfold reports_win. destruct l as [|m l]; simpl.
    + split; [|split; [|split]]; [split; [by intros [|]|done]|done|split; [done|by intros [_ ?]]|done].
    + split; [|split; [|split]]; [split; [by intros [|]|done]|split; [done|by intros [_ ?]]|done|done].
Qed.

(** The table of [_check_win] holds the four axes, each with its opposite
    direction. *)
Lemma directions_axes d :
  d ∈ directions → d.1 ∈ axes ∧ d.2 = (- d.1.1, - d.1.2).
Proof.
  unfold directions, axes. intros Hd. set_unfold.
  destruct Hd as [->|[->|[->|[->|[]]]]]; simpl; auto 10.
Qed.

Lemma axes_directions dx dy :
  (dx, dy) ∈ axes → ((dx, dy), (- dx, - dy)) ∈ directions.
Proof.
  unfold directions, axes. intros Hd. set_unfold.
  destruct Hd as [?|[?|[?|[?|[]]]]]; simplify_eq; simpl; auto 10.
Qed.

(** C6. With the last-move marker on a cell holding [who], [is_terminal]
    reports a win exactly when along one of the four axes (horizontal
    [(0, 1)], vertical [(1, 0)], the diagonals [(1, 1)] and [(1, -1)]) the
    contiguous cells holding [who] on the two sides of that cell, [n1] in
    the direction of the axis and [n2] in the opposite one, make at least
    four together with the cell itself; the value is -1 for "R" and +1 for
    "Y". *)
Theorem is_terminal_win_at_last_move (b : ConnectFour) (row col : Z) (who : string) :
  wf_grid (board b) → last_move b = Some (row, col) →
  cell (board b) row col = Some who →
  ∃ res, is_terminal b = Some res
    ∧ (reports_win res ↔
       ∃ (dx dy : Z) (n1 n2 : nat),
         (dx, dy) ∈ [(0, 1); (1, 0); (1, 1); (1, -1)]
         ∧ contiguous (board b) who (row + dx) (col + dy) dx dy n1
         ∧ contiguous (board b) who (row - dx) (col - dy) (- dx) (- dy) n2
         ∧ (4 ≤ 1 + n1 + n2)%nat)
    ∧ (reports_win res →
       (who = "R"%string → res = (true, Some (-1)))
       ∧ (who = "Y"%string → res = (true, Some 1))).
Proof.
  intros Hwf Hlast Hc.
  assert (marker_ok b) as Hok by (unfold marker_ok; rewrite Hlast; by eexists).
  destruct (is_terminal_spec b Hwf Hok) as (res & l & Hres & _ & Hwin & _ & _ & Hval).
  exists res. split; [done|].
  assert (win_seen b ↔
          ∃ (dx dy : Z) (n1 n2 : nat),
            (dx, dy) ∈ [(0, 1); (1, 0); (1, 1); (1, -1)]
            ∧ contiguous (board b) who (row + dx) (col + dy) dx dy n1
            ∧ contiguous (board b) who (row - dx) (col - dy) (- dx) (- dy) n2
            ∧ (4 ≤ 1 + n1 + n2)%nat)
    as Hseen.
  { unfold win_seen, wins_at. rewrite Hlast. split.
    - intros (who' & d & n & Hc' & Hd & (n1 & n2 & H1 & H2 & ->) & Hfour).
      assert (who' = who) as -> by congruence.
      destruct (directions_axes d Hd) as [Hax Hopp].
      destruct d as [[dx dy] [dx' dy']]. simpl in *. injection Hopp as -> ->.
      exists dx, dy, n1, n2. split; [exact Hax|]. split; [done|].
      split; [exact H2|done].
    - intros (dx & dy & n1 & n2 & Hax & H1 & H2 & Hfour).
      exists who, ((dx, dy), (- dx, - dy)), (1 + n1 + n2)%nat.
      split; [done|]. split; [by apply axes_directions|]. split; [|done].
      exists n1, n2. split; [done|]. split; [exact H2|done]. }
  split; [by rewrite Hwin|].
  intros Hrep%Hwin. rewrite (Hval _ _ _ Hlast Hc Hrep).
  split; intros ->; done.
Qed.

Lemma is_terminal_win_at_last_move_witness :
  ∃ res, is_terminal yellow_won = Some res
    ∧ (reports_win res ↔
       ∃ (dx dy : Z) (n1 n2 : nat),
         (dx, dy) ∈ [(0, 1); (1, 0); (1, 1); (1, -1)]
         ∧ contiguous (board yellow_won) "Y" (0 + dx) (3 + dy) dx dy n1
         ∧ contiguous (board yellow_won) "Y" (0 - dx) (3 - dy) (- dx) (- dy) n2
         ∧ (4 ≤ 1 + n1 + n2)%nat)
    ∧ (reports_win res →
       ("Y" = "R" → res = (true, Some (-1)))
       ∧ ("Y" = "Y" → res = (true, Some 1)))%string.
Proof.
  apply (is_terminal_win_at_last_move yellow_won 0 3 "Y").
  - split; [reflexivity|]. repeat constructor.
  - reflexivity.
  - reflexivity.
Defined.

Example yellow_won_value : is_terminal yellow_won = Some (true, Some 1).
Proof. reflexivity. Qed.

(** ** Counts and lines of four *)

(** An axis through a piece counts four exactly when the piece lies on a line
    of four. *)
Lemma wins_at_line_through g row col who :
  wf_grid g → on_board row col → cell g row col = Some who →
  who ≠ "O"%string →
  wins_at g row col ↔ line_through g row col.
Proof.
  intros Hwf Hon Hc Hpiece. split.
  - intros (who' & d & count & Hc' & Hd & (n1 & n2 & [H1 _] & [H2 _] & ->) & Hfour).
    simplify_eq. destruct (directions_axes d Hd) as [Hax Hneg].
    destruct d as [[dx dy] [dx' dy']]. simpl in *. simplify_eq.
    exists who, dx, dy, (Z.min (Z.of_nat n2) 3).
    split; [done|]. split; [done|]. split; [lia|].
    intros k Hk.
    destruct (Z.lt_trichotomy (k - Z.min (Z.of_nat n2) 3) 0) as [Hlt|[Heq|Hgt]].
    + specialize (H2 (Z.to_nat (- (k - Z.min (Z.of_nat n2) 3) - 1))).
      rewrite Z2Nat.id in H2 by lia.
      replace (row + (k - Z.of_nat n2 `min` 3) * dx)
        with (row + - dx + (- (k - Z.of_nat n2 `min` 3) - 1) * - dx) by lia.
      replace (col + (k - Z.of_nat n2 `min` 3) * dy)
        with (col + - dy + (- (k - Z.of_nat n2 `min` 3) - 1) * - dy) by lia.
      apply H2. lia.
    + rewrite Heq, !Z.mul_0_l, !Z.add_0_r. done.
    + specialize (H1 (Z.to_nat (k - Z.min (Z.of_nat n2) 3 - 1))).
      rewrite Z2Nat.id in H1 by lia.
      replace (row + (k - Z.of_nat n2 `min` 3) * dx)
        with (row + dx + (k - Z.of_nat n2 `min` 3 - 1) * dx) by lia.
      replace (col + (k - Z.of_nat n2 `min` 3) * dy)
        with (col + dy + (k - Z.of_nat n2 `min` 3 - 1) * dy) by lia.
      apply H1. lia.
  - intros (who' & dx & dy & k0 & _ & Hax & Hk0 & Hline).
    assert (who' = who) as ->.
    { destruct (Hline k0) as [_ Hc']; [lia|].
      rewrite Z.sub_diag, !Z.mul_0_l, !Z.add_0_r in Hc'. congruence. }
    pose proof (axes_directions dx dy Hax) as Hd.
    destruct (axis_count_total g who row col _ Hwf Hd)
      as (count & _ & Htot).
    exists who, ((dx, dy), (- dx, - dy)), count.
    split; [done|]. split; [done|]. split; [done|].
    destruct Htot as (n1 & n2 & [_ H1] & [_ H2] & ->). simpl in *.
    assert (3 - k0 ≤ Z.of_nat n1).
    { apply Z.le_ngt. intros Hlt. apply H1.
      replace (row + dx + Z.of_nat n1 * dx)
        with (row + (Z.of_nat n1 + 1 + k0 - k0) * dx) by lia.
      replace (col + dy + Z.of_nat n1 * dy)
        with (col + (Z.of_nat n1 + 1 + k0 - k0) * dy) by lia.
      apply Hline. lia. }
    assert (k0 ≤ Z.of_nat n2).
    { apply Z.le_ngt. intros Hlt. apply H2.
      replace (row + - dx + Z.of_nat n2 * - dx)
        with (row + (k0 - Z.of_nat n2 - 1 - k0) * dx) by lia.
      replace (col + - dy + Z.of_nat n2 * - dy)
        with (col + (k0 - Z.of_nat n2 - 1 - k0) * dy) by lia.
      apply Hline. lia. }
    lia.
Qed.

(** What the win check of [is_terminal] finds, in terms of lines of four. *)
Lemma win_seen_line_seen b :
  wf_grid (board b) → marker_on_piece b → win_seen b ↔ line_seen b.
Proof.
  intros Hwf Hmark. unfold win_seen, line_seen, marker_on_piece in *.
  destruct (last_move b) as [[row col]|].
  - destruct Hmark as (Hon & who & Hc & Hpiece).
    by apply wins_at_line_through with who.
  - split.
    + intros (row & col & who & Hon & Hc & Hpiece & Hwin).
      apply (wins_at_line_through _ _ _ who) in Hwin; [|done..].
      destruct Hwin as (who' & dx & dy & k0 & ? & ? & ? & Hline).
      exists who', (row - k0 * dx), (col - k0 * dy), dx, dy.
      split; [done|]. split; [done|]. intros k Hk.
      replace (row - k0 * dx + k * dx) with (row + (k - k0) * dx) by lia.
      replace (col - k0 * dy + k * dy) with (col + (k - k0) * dy) by lia.
      by apply Hline.
    + intros (who & r & c & dx & dy & Hpiece & Hax & Hline).
      destruct (Hline 0) as [Hon Hc]; [lia|].
      rewrite !Z.mul_0_l, !Z.add_0_r in Hon, Hc.
      exists r, c, who. split; [done|]. split; [done|]. split; [done|].
      apply (wins_at_line_through _ _ _ who); [done..|].
      exists who, dx, dy, 0. split; [done|]. split; [done|]. split; [lia|].
      intros k Hk. rewrite Z.sub_0_r. by apply Hline.
Qed.

Lemma marker_on_piece_ok b : marker_on_piece b → marker_ok b.
Proof.
  unfold marker_on_piece, marker_ok. destruct (last_move b) as [[row col]|]; [|done].
  intros (_ & who & -> & _). by eexists.
Qed.

(** Gravity, checked cell by cell. *)
Lemma gravity_by_cells g :
  Forall (λ rc, Forall (λ r', rc.1 ≤ r' → cell g rc.1 rc.2 = Some "O"%string →
                              cell g r' rc.2 = Some "O"%string)
                       (Py.range ROWS)) all_cells →
  gravity g.
Proof.
  intros Hall r r' c Hon Hon' Hle Hc.
  rewrite Forall_forall in Hall.
  specialize (Hall (r, c) (proj2 (all_cells_on_board r c) Hon)).
  rewrite Forall_forall in Hall. apply Hall; try done.
  apply range_bounds, Hon'.
Qed.

(** The legal moves, and the draws that [is_terminal] reports. On a 6 x 7
    board where pieces rest on pieces and the last-move marker, if set, is
    on a piece: the legal moves are the columns (numbered from 1) whose top
    cell is empty, in ascending order; there is none exactly when every
    column is full; and [is_terminal] reports a draw exactly when the board
    is full and its win check finds no line of four, which looks at the
    lines through the last move when the marker is set, and at all lines
    when it is not. *)
Theorem legal_moves_and_draw (b : ConnectFour) :
  wf_grid (board b) → gravity (board b) → marker_on_piece b →
  ∃ l res, get_legal_moves b = Some l ∧ is_terminal b = Some res
    ∧ (∀ m, m ∈ l ↔ 1 ≤ m ≤ Z.of_nat COLS
                    ∧ cell (board b) (Z.of_nat ROWS - 1) (m - 1) = Some "O"%string)
    ∧ StronglySorted Z.lt l
    ∧ (l = [] ↔ board_full (board b))
    ∧ (res = (true, Some 0) ↔ board_full (board b) ∧ ¬ line_seen b).
Proof.
  intros Hwf Hgrav Hmark. pose proof (marker_on_piece_ok b Hmark) as Hok.
  destruct (is_terminal_spec b Hwf Hok) as (res & l & Hres & Hl & _ & Hdraw & _).
  destruct (get_legal_moves_spec b Hwf) as (l' & Hl' & Hmem & Hsort).
  simplify_eq. exists l, res.
  assert (l = [] ↔ board_full (board b)) as Hfull.
  { by rewrite (no_legal_moves b l Hwf Hl), full_top_cells. }
  do 5 (split; [done|]).
  rewrite Hdraw, Hfull, (win_seen_line_seen b Hwf Hmark). tauto.
Qed.

Lemma full_grid_gravity g :
  Forall (λ rc, cell g rc.1 rc.2 ≠ Some "O"%string) all_cells → gravity g.
Proof.
  intros Hall r r' c Hon _ _ Hc. rewrite Forall_forall in Hall.
  by destruct (Hall (r, c) (proj2 (all_cells_on_board r c) Hon)).
Qed.

Lemma legal_moves_and_draw_witness :
  ∃ l res, get_legal_moves drawn_board = Some l ∧ is_terminal drawn_board = Some res
    ∧ (∀ m, m ∈ l ↔ 1 ≤ m ≤ Z.of_nat COLS
                    ∧ cell (board drawn_board) (Z.of_nat ROWS - 1) (m - 1) = Some "O"%string)
    ∧ StronglySorted Z.lt l
    ∧ (l = [] ↔ board_full (board drawn_board))
    ∧ (res = (true, Some 0) ↔ board_full (board drawn_board) ∧ ¬ line_seen drawn_board).
Proof.
  apply (legal_moves_and_draw drawn_board).
  - split; [reflexivity|]. repeat constructor.
  - apply full_grid_gravity. apply (bool_decide_unpack _). vm_compute. exact I.
  - split; [unfold on_board, ROWS, COLS; lia|].
    exists "R"%string. split; [reflexivity|done].
Defined.

Example drawn_board_is_draw : is_terminal drawn_board = Some (true, Some 0).
Proof. reflexivity. Qed.

(** Four "R" in the bottom row of [unseen_line]. *)
Lemma unseen_line_has_line : line_of_four (board unseen_line).
Proof.
  exists "R"%string, 0, 0, 0, 1.
  split; [done|]. split; [unfold axes; set_solver|].
  intros k Hk. assert (k = 0 ∨ k = 1 ∨ k = 2 ∨ k = 3) as [->|[->|[->| ->]]] by lia;
    (split; [unfold on_board, ROWS, COLS; lia|reflexivity]).
Qed.

(** C5. [is_terminal] reports a draw on a full board that has a line of
    four. [from_file] loads the board [unseen_line] from the file
    [unseen_line_file]: no move is legal on it, every column is full, and
    its bottom row begins with four "R". The marker that [from_file] sets is
    the top right cell, the last piece of its scan; no line of four passes
    through that cell, the win check of [is_terminal] looks at no other
    line, and the call returns [(True, 0)]. *)
Theorem draw_reported_on_won_board :
  from_file unseen_line_file = Some (unseen_line, "UCT"%string, "R"%string)
  ∧ get_legal_moves unseen_line = Some []
  ∧ board_full (board unseen_line)
  ∧ (∀ k, 0 ≤ k < 4 → holds (board unseen_line) "R" 0 k)
  ∧ line_of_four (board unseen_line)
  ∧ is_terminal unseen_line = Some (true, Some 0).
Proof.
  split; [reflexivity|]. split; [reflexivity|]. split; [|split; [|split]].
  - assert (Forall (λ rc, cell (board unseen_line) rc.1 rc.2 ≠ Some "O"%string)
                   all_cells) as Hall
      by (apply (bool_decide_unpack _); vm_compute; exact I).
    intros c Hc r Hr. rewrite Forall_forall in Hall.
    apply (Hall (r, c)), all_cells_on_board. by split.
  - intros k Hk.
    assert (k = 0 ∨ k = 1 ∨ k = 2 ∨ k = 3) as [->|[->|[->| ->]]] by lia;
      (split; [unfold on_board, ROWS, COLS; lia|reflexivity]).
  - exact unseen_line_has_line.
  - reflexivity.
Qed.

(** At that board a draw is not the same as a full board without a line of
    four. *)
Lemma draw_reported_despite_line :
  ¬ (is_terminal unseen_line = Some (true, Some 0)
     ↔ board_full (board unseen_line) ∧ ¬ line_of_four (board unseen_line)).
Proof.
  intros [Hdraw _]. destruct Hdraw as [_ Hno]; [reflexivity|].
  apply Hno, unseen_line_has_line.
Qed.

(** The same on a board that is not full: "R" has four in the bottom row
    of the loaded board [red_won_game], the marker is on the third "Y" of
    the second row, and [is_terminal] reports a game that goes on. *)
Example won_board_not_terminal :
  from_file red_won_file = Some (red_won_game, "UCT"%string, "Y"%string)
  ∧ (∀ k, 0 ≤ k < 4 → holds (board red_won_game) "R" 0 k)
  ∧ gravity (board red_won_game)
  ∧ is_terminal red_won_game = Some (false, None).
Proof.
  split; [reflexivity|]. split; [|split; [|reflexivity]].
  - intros k Hk.
    assert (k = 0 ∨ k = 1 ∨ k = 2 ∨ k = 3) as [->|[->|[->| ->]]] by lia;
      (split; [unfold on_board, ROWS, COLS; lia|reflexivity]).
  - apply gravity_by_cells. apply (bool_decide_unpack _). vm_compute. exact I.
Qed.


(** * Properties of the search tree *)

Implicit Types (t : list MCTSNode) (nd : MCTSNode) (id node : nat).

(** ** Stores that differ in the counters only *)

Lemma links_visit is_max depth value nd : links (visit is_max depth value nd) = links nd.
Proof. done. Qed.

Lemma links_insert t id nd nd' :
  t !! id = Some nd → links nd' = links nd →
  links <$> <[id:=nd']> t = links <$> t.
Proof.
  intros Hnd Hl. rewrite list_fmap_insert, Hl.
  apply list_insert_id. by rewrite list_lookup_fmap, Hnd.
Qed.

Lemma links_lookup t t' id nd :
  links <$> t = links <$> t' → t !! id = Some nd →
  ∃ nd', t' !! id = Some nd' ∧ links nd' = links nd.
Proof.
  intros Heq Hnd.
  assert ((links <$> t') !! id = Some (links nd)) as H
    by (by rewrite <-Heq, list_lookup_fmap, Hnd).
  rewrite list_lookup_fmap in H.
  destruct (t' !! id) as [nd'|]; simpl in H; [|done].
  apply (inj Some) in H. eauto.
Qed.

Lemma links_length t t' : links <$> t = links <$> t' → length t = length t'.
Proof. intros H. by rewrite <-(length_fmap links t), H, length_fmap. Qed.

Lemma parents_below_links t t' :
  links <$> t = links <$> t' → parents_below t → parents_below t'.
Proof.
  intros Heq Hpb id nd p Hnd Hp.
  destruct (links_lookup t' t id nd (eq_sym Heq) Hnd) as (nd0 & Hnd0 & [= _ Hpar _]).
  apply (Hpb id nd0); congruence.
Qed.

Lemma single_root_links t t' :
  links <$> t = links <$> t' → single_root t → single_root t'.
Proof.
  intros Heq Hsr id nd Hnd Hp.
  destruct (links_lookup t' t id nd (eq_sym Heq) Hnd) as (nd0 & Hnd0 & [= _ Hpar _]).
  apply (Hsr id nd0); congruence.
Qed.

Lemma path_up_links steps t t' cur :
  links <$> t = links <$> t' → path_up steps t cur = path_up steps t' cur.
Proof.
  intros Heq. revert cur. induction steps as [|steps IH]; intros [id|]; simpl; try done.
  destruct (t !! id) as [nd|] eqn:Hnd.
  - destruct (links_lookup t t' id nd Heq Hnd) as (nd' & -> & [= _ Hpar _]).
    simpl. by rewrite Hpar, IH.
  - destruct (t' !! id) as [nd'|] eqn:Hnd'; [|done].
    destruct (links_lookup t' t id nd' (eq_sym Heq) Hnd') as (? & ? & _). congruence.
Qed.

(** ** [backpropagate] *)

Lemma backprop_loop_step steps t id depth value is_max nd :
  t !! id = Some nd →
  backprop_loop (S steps) t (Some id) depth value is_max
  = backprop_loop steps (<[id:=visit is_max depth value nd]> t) (parent nd)
                  (depth + 1) value is_max.
Proof. intros Hnd. simpl. by rewrite Hnd. Qed.

(** The walk changes counters only. *)
Lemma backprop_loop_links steps t cur depth value is_max t' :
  backprop_loop steps t cur depth value is_max = Some t' →
  links <$> t' = links <$> t.
Proof.
  revert t cur depth. induction steps as [|steps IH]; intros t [id|] depth;
    simpl; try done; try by intros [= <-].
  destruct (t !! id) as [nd|] eqn:Hnd; simpl; [|done].
  intros H%IH. rewrite H. by apply (links_insert t id nd).
Qed.

(** The walk reaches the root when every parent was created before its
    child. *)
Lemma backprop_loop_total steps t id depth value is_max :
  parents_below t → (id < steps)%nat → (id < length t)%nat →
  is_Some (backprop_loop steps t (Some id) depth value is_max).
Proof.
  revert t id depth. induction steps as [|steps IH]; intros t id depth Hpb Hs Hlen;
    [lia|].
  destruct (lookup_lt_is_Some_2 t id Hlen) as [nd Hnd].
  rewrite (backprop_loop_step _ _ _ _ _ _ nd Hnd).
  destruct (parent nd) as [p|] eqn:Hp.
  - pose proof (Hpb _ _ _ Hnd Hp). apply IH.
    + eapply parents_below_links; [|done]. symmetry. by apply (links_insert t id nd).
    + lia.
    + rewrite length_insert. lia.
  - destruct steps; by eexists.
Qed.

Lemma backpropagate_total is_max t node value :
  parents_below t → (node < length t)%nat →
  is_Some (backpropagate is_max t node value).
Proof. intros. by apply backprop_loop_total. Qed.

Lemma counts_ok_visit is_max depth value nd :
  -1 ≤ value ≤ 1 → counts_ok nd → counts_ok (visit is_max depth value nd).
Proof. unfold counts_ok, visit. simpl. intros. case_bool_decide; lia. Qed.

(** [|W| <= N] holds after the walk if it held before. *)
Lemma backprop_loop_counts steps t cur depth value is_max t' :
  -1 ≤ value ≤ 1 → Forall counts_ok t →
  backprop_loop steps t cur depth value is_max = Some t' → Forall counts_ok t'.
Proof.
  intros Hv. revert t cur depth.
  induction steps as [|steps IH]; intros t [id|] depth Hall;
    simpl; try done; try by intros [= <-].
  destruct (t !! id) as [nd|] eqn:Hnd; simpl; [|done].
  apply IH. apply Forall_insert; [done|].
  apply (counts_ok_visit is_max depth value nd Hv).
  by apply (Forall_lookup_1 _ _ _ _ Hall Hnd).
Qed.

Lemma backpropagate_counts is_max t node value t' :
  Forall counts_ok t → backpropagate is_max t node value = Some t' →
  Forall counts_ok t'.
Proof. apply backprop_loop_counts. lia. Qed.

(** The walk visits a node at most once: every node is left alone or gets one
    visit. *)
Lemma backprop_loop_one_visit steps t cur depth value is_max t' :
  -1 ≤ value ≤ 1 → parents_below t →
  backprop_loop steps t cur depth value is_max = Some t' →
  (∀ k, (∀ id, cur = Some id → (id < k)%nat) → t' !! k = t !! k)
  ∧ Forall2 one_visit t t'.
Proof.
  intros Hv. revert t cur depth.
  induction steps as [|steps IH]; intros t [id|] depth Hpb; simpl; try done;
    try (intros [= <-]; split; [done|]; apply Forall2_same_length_lookup;
         split; [done|]; intros i x y Hx Hy; simplify_eq; by left).
  destruct (t !! id) as [nd|] eqn:Hnd; simpl; [|done].
  fold (visit is_max depth value nd). intros Hloop.
  assert (links <$> <[id:=visit is_max depth value nd]> t = links <$> t) as Hl
    by by apply (links_insert t id nd).
  destruct (IH _ _ _ (parents_below_links _ _ (eq_sym Hl) Hpb) Hloop)
    as [Hsame Hall].
  assert (t' !! id = Some (visit is_max depth value nd)) as Hid.
  { rewrite Hsame; [apply list_lookup_insert_eq; by eapply lookup_lt_Some|].
    intros p Hp. by eapply Hpb. }
  split.
  - intros k Hk. pose proof (Hk id eq_refl).
    rewrite Hsame; [apply list_lookup_insert_ne; lia|].
    intros p Hp. pose proof (Hpb _ _ _ Hnd Hp). lia.
  - apply Forall2_same_length_lookup in Hall as [Hlen Hall].
    apply Forall2_same_length_lookup. rewrite length_insert in Hlen.
    split; [done|]. intros i x y Hx Hy.
    destruct (decide (i = id)) as [->|Hne].
    + simplify_eq. right. unfold visit. simpl. split; [done|].
      case_bool_decide; lia.
    + apply (Hall i); [by rewrite list_lookup_insert_ne|done].
Qed.

Lemma backpropagate_one_visit is_max t node value t' :
  parents_below t → backpropagate is_max t node value = Some t' →
  Forall2 one_visit t t'.
Proof.
  intros Hpb Hbp. eapply backprop_loop_one_visit; [|done..]. lia.
Qed.

(** The root after the walk: one more visit, and the value added or
    subtracted by the parity of the number of nodes below it on the path. *)
Lemma backprop_loop_root steps t id depth value is_max t' root :
  parents_below t → single_root t → t !! 0%nat = Some root →
  backprop_loop steps t (Some id) depth value is_max = Some t' →
  ∃ path, path_up steps t (Some id) = Some path
          ∧ t' !! 0%nat
            = Some (visit is_max (depth + Z.of_nat (length path) - 1) value root).
Proof.
  revert t id depth. induction steps as [|steps IH];
    intros t id depth Hpb Hsr Hroot; [done|].
  cbn [backprop_loop path_up].
  destruct (t !! id) as [nd|] eqn:Hnd; cbn [mbind option_bind]; [|done].
  fold (visit is_max depth value nd).
  assert (links <$> <[id:=visit is_max depth value nd]> t = links <$> t) as Hl
    by by apply (links_insert t id nd).
  destruct (parent nd) as [p|] eqn:Hp.
  - assert (id ≠ 0%nat) as Hid by (pose proof (Hpb _ _ _ Hnd Hp); lia).
    intros Hloop. edestruct IH as (path & Hpath & Hr); [..|exact Hloop|].
    + by eapply parents_below_links.
    + by eapply single_root_links.
    + by rewrite list_lookup_insert_ne.
    + rewrite (path_up_links _ _ _ _ Hl) in Hpath. rewrite Hpath.
      eexists. split; [done|]. rewrite Hr. simpl length. do 2 f_equal. lia.
  - assert (id = 0%nat) as -> by (by eapply Hsr). simplify_eq.
    destruct steps; simpl; intros [= <-]; (eexists; split; [done|]);
      (rewrite list_lookup_insert_eq by (eapply lookup_lt_Some; eassumption));
      simpl; do 2 f_equal; lia.
Qed.

(** What [backpropagate] does to the root, for a leaf [d] levels below it:
    [N] grows by one, and [W] grows by the value when
    [(d % 2 == 0) == is_max_player] and shrinks by it otherwise. The depth
    that decides the sign is counted from the leaf, so for a leaf at odd depth
    under the maximizing player the root's [W] moves against the outcome. *)
Lemma backpropagate_root is_max t node value t' root path :
  parents_below t → single_root t → t !! 0%nat = Some root →
  ancestors t node = Some path →
  backpropagate is_max t node value = Some t' →
  ∃ root', t' !! 0%nat = Some root'
    ∧ ni root' = ni root + 1
    ∧ wi root' = let v := Z.max (-1) (Z.min 1 value) in
                 let d := Z.of_nat (length path) - 1 in
                 if bool_decide (bool_decide (d `mod` 2 = 0) = is_max)
                 then wi root + v else wi root - v.
Proof.
  intros Hpb Hsr Hroot Hanc Hbp.
  destruct (backprop_loop_root _ _ _ _ _ _ _ _ Hpb Hsr Hroot Hbp)
    as (path' & Hpath & Hr).
  unfold ancestors in Hanc. simplify_eq.
  eexists. split; [done|]. split; [done|]. simpl.
  by replace (0 + Z.of_nat (length path) - 1) with (Z.of_nat (length path) - 1) by lia.
Qed.

(** C1 at the tree of the first simulation: the leaf is the root's child,
    the deciding player is maximizing ("Y") and the outcome is +1. The root's
    [N] becomes 1 and its [W] becomes -1: it decreases by the outcome. *)
Lemma backpropagate_root_of_child :
  fmap (M:=list) (λ nd, (wi nd, ni nd)) <$> backpropagate true two_nodes 1%nat 1
  = Some [(-1, 1); (1, 1)].
Proof. reflexivity. Qed.

(** ** The nodes that [backpropagate] visits *)

Lemma path_up_none steps t path : path_up steps t None = Some path → path = [].
Proof. destruct steps; simpl; congruence. Qed.

Lemma path_up_head steps t id path :
  path_up steps t (Some id) = Some path → id ∈ path.
Proof.
  destruct steps; simpl; [done|].
  destruct (t !! id) as [nd|]; simpl; [|done].
  destruct (path_up steps t (parent nd)); simpl; [|done].
  intros [= <-]. left.
Qed.

Lemma path_up_below steps t cur path :
  parents_below t → path_up steps t cur = Some path →
  ∀ a id, cur = Some id → a ∈ path → (a ≤ id)%nat.
Proof.
  intros Hpb. revert cur path.
  induction steps as [|steps IH]; intros [id|] path; simpl; try done.
  destruct (t !! id) as [nd|] eqn:Hnd; simpl; [|done].
  destruct (path_up steps t (parent nd)) as [rest|] eqn:Hrest; simpl; [|done].
  intros [= <-] a id' [= <-] [->|Hin]%elem_of_cons; [lia|].
  destruct (parent nd) as [p|] eqn:Hp.
  - pose proof (IH _ _ Hrest a p eq_refl Hin).
    pose proof (Hpb _ _ _ Hnd Hp). lia.
  - apply path_up_none in Hrest as ->. by apply elem_of_nil in Hin.
Qed.

(** The path starts at the node the walk starts at, and goes from each node
    to its parent. *)
Lemma path_up_chain steps t cur path :
  path_up steps t cur = Some path →
  path !! 0%nat = cur
  ∧ ∀ i k nd, path !! i = Some k → t !! k = Some nd → path !! S i = parent nd.
Proof.
  revert cur path.
  induction steps as [|steps IH]; intros [id|] path; simpl; try done;
    try (intros [= <-]; split; [done|]; by intros i k nd Hi).
  destruct (t !! id) as [nd0|] eqn:Hnd; simpl; [|done].
  destruct (path_up steps t (parent nd0)) as [rest|] eqn:Hrest; simpl; [|done].
  intros [= <-]. destruct (IH _ _ Hrest) as [Hhead Hchain].
  split; [done|]. intros [|i] k nd Hi Hk; simpl in *.
  - by simplify_eq.
  - by eapply Hchain.
Qed.

(** What the loop of [backpropagate] does: the [i]-th node of the path, the
    start being the 0-th, gets the update of depth [depth + i]; every other
    node is left as it is. *)
Lemma backprop_loop_effect steps t cur depth value is_max t' path :
  parents_below t →
  backprop_loop steps t cur depth value is_max = Some t' →
  path_up steps t cur = Some path →
  (∀ i k, path !! i = Some k →
     ∃ nd, t !! k = Some nd
           ∧ t' !! k = Some (visit is_max (depth + Z.of_nat i) value nd))
  ∧ (∀ k, k ∉ path → t' !! k = t !! k).
Proof.
  revert t cur depth path.
  induction steps as [|steps IH]; intros t [id|] depth path Hpb;
    cbn [backprop_loop path_up]; try done;
    try (intros [= <-] [= <-]; split; [by intros i k Hi|done]).
  destruct (t !! id) as [nd0|] eqn:Hnd; cbn [mbind option_bind]; [|done].
  fold (visit is_max depth value nd0). intros Hloop.
  destruct (path_up steps t (parent nd0)) as [rest|] eqn:Hrest;
    cbn [mbind option_bind]; [|done].
  intros [= <-].
  assert (links <$> <[id:=visit is_max depth value nd0]> t = links <$> t) as Hl
    by by apply (links_insert t id nd0).
  assert (id ∉ rest) as Hfresh.
  { intros Hin. destruct (parent nd0) as [p|] eqn:Hp.
    - pose proof (path_up_below _ _ _ _ Hpb Hrest id p eq_refl Hin).
      pose proof (Hpb _ _ _ Hnd Hp). lia.
    - apply path_up_none in Hrest as ->. by apply elem_of_nil in Hin. }
  rewrite <-(path_up_links _ _ _ _ Hl) in Hrest.
  destruct (IH _ _ _ _ (parents_below_links _ _ (eq_sym Hl) Hpb) Hloop Hrest)
    as [Hon Hoff].
  split.
  - intros [|i] k Hi; simpl in Hi.
    + injection Hi as <-. exists nd0. split; [done|].
      rewrite (Hoff id Hfresh), Z.add_0_r.
      apply list_lookup_insert_eq. by eapply lookup_lt_Some.
    + destruct (Hon i k Hi) as (nd & Hk & Hk').
      assert (k ≠ id) as Hne.
      { intros ->. apply Hfresh. by eapply list_elem_of_lookup_2. }
      rewrite list_lookup_insert_ne in Hk by done.
      exists nd. split; [done|]. rewrite Hk'. do 2 f_equal. lia.
  - intros k Hk. rewrite Hoff by (intros ?; apply Hk; by right).
    apply list_lookup_insert_ne. intros ->. apply Hk. left.
Qed.

(** ** [get_value] and [get_ucb_value] *)

Lemma Qc_of_Z_quotient_bounds (w n : Z) :
  0 < n → Z.abs w ≤ n → (-1 ≤ Qc_of_Z w / Qc_of_Z n ≤ 1)%Qc.
Proof.
  intros Hn Hw.
  assert (inject_Z 0 < inject_Z n)%Q as Hpos by (by rewrite <-Zlt_Qlt).
  change (inject_Z 0) with 0%Q in Hpos.
  unfold Qcle, Qcdiv, Qcmult, Qcinv, Qc_of_Z. simpl.
  rewrite !Qred_correct. split.
  - apply Qle_shift_div_l; [done|].
    unfold Qle, Qmult, Qopp, inject_Z. simpl. lia.
  - apply Qle_shift_div_r; [done|].
    unfold Qle, Qmult, inject_Z. simpl. lia.
Qed.

Lemma py_clamp_id (v : Qc) : (-1 ≤ v ≤ 1)%Qc → py_max (-1)%Qc (py_min 1%Qc v) = v.
Proof.
  intros [Hlo Hhi]. unfold py_max, py_min.
  destruct (decide (v < 1)%Qc) as [Hlt|Hge].
  - case_decide as Hlt'; [done|].
    apply Qcle_antisym; [done|by apply Qcnot_lt_le].
  - assert (v = 1%Qc) as -> by (apply Qcle_antisym; [done|by apply Qcnot_lt_le]).
    by rewrite decide_True.
Qed.

(** With [|W| <= N] the quotient lies in [-1, 1] and the clamp of
    [get_value] returns it unchanged. *)
Lemma get_value_quotient nd :
  counts_ok nd → ni nd ≠ 0 →
  get_value nd = (Qc_of_Z (wi nd) / Qc_of_Z (ni nd))%Qc
  ∧ (-1 ≤ Qc_of_Z (wi nd) / Qc_of_Z (ni nd) ≤ 1)%Qc.
Proof.
  unfold counts_ok. intros Hc Hn.
  assert (-1 ≤ Qc_of_Z (wi nd) / Qc_of_Z (ni nd) ≤ 1)%Qc as Hb
    by (apply Qc_of_Z_quotient_bounds; lia).
  split; [|done]. unfold get_value. rewrite decide_False by done.
  by apply py_clamp_id.
Qed.

(** C7. [get_ucb_value]: an unvisited node scores +infinity for the
    maximizing mover and -infinity for the minimizing one; a visited node
    whose parent is absent or unvisited scores its plain value; any other node
    scores its value plus (maximizing) or minus (minimizing)
    [c * sqrt(ln(parent.N) / N)]. *)
Theorem get_ucb_value_cases (math_log : Z → Qc) (math_sqrt : Qc → Qc)
    (t : list MCTSNode) (n : MCTSNode) (c : Qc) (is_max : bool) :
  (ni n = 0 →
   get_ucb_value math_log math_sqrt t n c is_max
   = Some (if is_max then PosInf else NegInf))
  ∧ (ni n ≠ 0 →
     (parent n = None
      ∨ ∃ p pn, parent n = Some p ∧ t !! p = Some pn ∧ ni pn = 0) →
     get_ucb_value math_log math_sqrt t n c is_max = Some (Fin (get_value n)))
  ∧ (ni n ≠ 0 → ∀ p pn, parent n = Some p → t !! p = Some pn → ni pn ≠ 0 →
     let exploration := (c * math_sqrt (math_log (ni pn) / Qc_of_Z (ni n)))%Qc in
     get_ucb_value math_log math_sqrt t n c is_max
     = Some (Fin (if is_max then (get_value n + exploration)%Qc
                  else (get_value n - exploration)%Qc))).
Proof.
  unfold get_ucb_value. split; [|split].
  - intros Hn. by rewrite decide_True.
  - intros Hn [Hp|(p & pn & Hp & Hpn & Hz)]; rewrite decide_False by done; rewrite Hp.
    + done.
    + rewrite Hpn. simpl. by rewrite decide_True.
  - intros Hn p pn Hp Hpn Hnz. rewrite decide_False by done. rewrite Hp, Hpn.
    simpl. by rewrite decide_False.
Qed.

(** The score of a child is never the starting value of the comparison it
    enters: not -infinity for the maximizing mover, not +infinity for the
    minimizing one. *)
Lemma get_ucb_value_total (math_log : Z → Qc) (math_sqrt : Qc → Qc)
    t n c is_max p :
  parent n = Some p → is_Some (t !! p) →
  ∃ x, get_ucb_value math_log math_sqrt t n c is_max = Some x
       ∧ x ≠ (if is_max then NegInf else PosInf).
Proof.
  intros Hp [pn Hpn]. unfold get_ucb_value. rewrite Hp, Hpn. simpl.
  repeat case_decide; eexists; (split; [done|]); by destruct is_max.
Qed.

(** * Moves on a 6 x 7 board *)

Lemma setitem_nonneg {A} (l : list A) i x :
  0 ≤ i < Z.of_nat (length l) → Py.setitem l i x = Some (<[Z.to_nat i:=x]> l).
Proof. intros Hi. unfold Py.setitem. by rewrite index_nonneg. Qed.

Lemma set_cell_on_board g r c v :
  wf_grid g → on_board r c →
  ∃ row, g !! Z.to_nat r = Some row
         ∧ set_cell g r c v
           = Some (<[Z.to_nat r:=<[Z.to_nat c:=v]> row]> g).
Proof.
  intros [Hlen Hrows] [Hr Hc]. unfold set_cell.
  rewrite getitem_nonneg by lia.
  destruct (lookup_lt_is_Some_2 g (Z.to_nat r)) as [row Hrow]; [unfold ROWS in *; lia|].
  exists row. split; [done|]. rewrite Hrow. simpl.
  rewrite Forall_lookup in Hrows. pose proof (Hrows _ _ Hrow) as Hlr.
  rewrite setitem_nonneg by (rewrite Hlr; unfold COLS in *; lia). simpl.
  apply setitem_nonneg. unfold ROWS in *. lia.
Qed.

(** Reading the grid after one cell was written. *)
Lemma cell_set_cell g g' r c v r' c' :
  wf_grid g → on_board r c → on_board r' c' → set_cell g r c v = Some g' →
  cell g' r' c' = if decide (r' = r ∧ c' = c) then Some v else cell g r' c'.
Proof.
  intros Hwf Hon Hon' Hset.
  destruct (set_cell_on_board g r c v Hwf Hon) as (row & Hrow & Hset').
  rewrite Hset' in Hset. simplify_eq.
  destruct Hwf as [Hlen Hrows]. rewrite Forall_lookup in Hrows.
  pose proof (Hrows _ _ Hrow) as Hlr.
  destruct Hon as [Hr Hc], Hon' as [Hr' Hc'].
  rewrite !cell_nonneg by lia.
  destruct (decide (r' = r)) as [->|Hne].
  - rewrite list_lookup_insert_eq by (by eapply lookup_lt_Some).
    rewrite Hrow. simpl. destruct (decide (c' = c)) as [->|Hne].
    + rewrite decide_True by done.
      apply list_lookup_insert_eq. rewrite Hlr. unfold COLS in *. lia.
    + rewrite decide_False by tauto. apply list_lookup_insert_ne. lia.
  - rewrite decide_False by tauto. rewrite list_lookup_insert_ne by lia. done.
Qed.

(** Fewer cells are empty after a piece was put on an empty cell. *)
Lemma filter_length_lt {A} (P Q : A → Prop)
    `{!∀ x, Decision (P x), !∀ x, Decision (Q x)} (l : list A) x0 :
  (∀ x, x ∈ l → Q x → P x) → x0 ∈ l → P x0 → ¬ Q x0 →
  (length (filter Q l) < length (filter P l))%nat.
Proof.
  intros Himp Hin HP HQ.
  assert (∀ l', (∀ x, x ∈ l' → Q x → P x) →
                (length (filter Q l') ≤ length (filter P l'))%nat) as Hle.
  { induction l' as [|x l' IH]; intros Hsub; [done|].
    rewrite !filter_cons.
    specialize (IH (λ y Hy, Hsub y (list_elem_of_further _ _ _ Hy))).
    pose proof (Hsub x (list_elem_of_here _ _)).
    repeat case_decide; simpl; try lia. tauto. }
  induction l as [|x l IH]; [by apply elem_of_nil in Hin|].
  rewrite !filter_cons.
  specialize (Hle l (λ y Hy, Himp y (list_elem_of_further _ _ _ Hy))).
  apply elem_of_cons in Hin as [<-|Hin].
  - destruct (decide (P x0)); [|done]. destruct (decide (Q x0)); [done|].
    simpl. lia.
  - specialize (IH (λ y Hy, Himp y (list_elem_of_further _ _ _ Hy)) Hin).
    pose proof (Himp x (list_elem_of_here _ _)).
    repeat case_decide; simpl; try lia. tauto.
Qed.

Lemma empties_bound g : (empties g ≤ ROWS * COLS)%nat.
Proof. unfold empties. etrans; [apply length_filter|]. done. Qed.

(** A successful [make_move] of a player's piece on a 6 x 7 board. *)
Lemma make_move_valid g column who g' :
  wf_grid (board g) → 1 ≤ column ≤ Z.of_nat COLS →
  make_move g column who = Some (true, g') →
  wf_grid (board g') ∧ marker_ok g' ∧ marker_top g'
  ∧ (who ≠ "O"%string → (empties g' < empties g)%nat).
Proof.
  intros Hwf Hcol Hm.
  destruct (drop_piece_true _ _ _ _ _ Hm) as (row & Hc & Hset & Hst & Hlast & Hrow).
  apply range_bounds in Hrow.
  assert (on_board row (column - 1)) as Hon by (unfold on_board; lia).
  assert (wf_grid (board g')) as Hwf' by (by eapply set_cell_wf).
  split; [done|]. split; [|split].
  - unfold marker_ok. rewrite Hlast. by apply cell_on_board.
  - unfold marker_top. by rewrite Hlast, Hst, stack_top_snoc.
  - intros Hwho. unfold empties.
    apply (filter_length_lt _ _ _ (row, column - 1)).
    + intros [r c] Hin%all_cells_on_board. simpl.
      rewrite (cell_set_cell _ _ _ _ _ _ _ Hwf Hon Hin Hset).
      case_decide; [|done]. intros ?. simplify_eq.
    + by apply all_cells_on_board.
    + done.
    + simpl. rewrite (cell_set_cell _ _ _ _ _ _ _ Hwf Hon Hon Hset).
      rewrite decide_True by done. intros ?. simplify_eq.
Qed.

(** A legal move succeeds. *)
Lemma drop_piece_total b col_idx who rows row0 :
  wf_grid (board b) → 0 ≤ col_idx < Z.of_nat COLS →
  (∀ r, r ∈ rows → 0 ≤ r < Z.of_nat ROWS) →
  row0 ∈ rows → cell (board b) row0 col_idx = Some "O"%string →
  ∃ b', drop_piece b col_idx who rows = Some (true, b').
Proof.
  intros Hwf Hc. induction rows as [|row rest IH]; intros Hrows Hin Hempty.
  - by apply elem_of_nil in Hin.
  - cbn [drop_piece].
    assert (on_board row col_idx) as Hon.
    { split; [|done]. apply Hrows. left. }
    destruct (cell_on_board _ _ _ Hwf Hon) as [x Hx]. rewrite Hx.
    cbn [mbind option_bind]. case_decide as Hd.
    + destruct (set_cell_on_board (board b) row col_idx who Hwf Hon)
        as (? & _ & ->). simpl. by eexists.
    + apply IH; [intros; apply Hrows; by right| |done].
      apply elem_of_cons in Hin as [->|?]; [|done]. congruence.
Qed.

Lemma make_move_legal g l m who :
  wf_grid (board g) → get_legal_moves g = Some l → m ∈ l →
  1 ≤ m ≤ Z.of_nat COLS ∧ ∃ g', make_move g m who = Some (true, g').
Proof.
  intros Hwf Hl Hm.
  destruct (get_legal_moves_spec g Hwf) as (l' & Hl' & Hmem & _). simplify_eq.
  apply Hmem in Hm as [Hm Htop]. split; [done|].
  apply (drop_piece_total g (m - 1) who (Py.range ROWS) (Z.of_nat ROWS - 1));
    [done|lia|by intros ? ?%range_bounds| |done].
  apply range_bounds. unfold ROWS. lia.
Qed.

Lemma make_moves_snoc b ms m who :
  make_moves b (ms ++ [(m, who)])
  = b' ← make_moves b ms; '(ok, b'') ← make_move b' m who;
    if (ok : bool) then Some b'' else None.
Proof.
  revert b. induction ms as [|[m' who'] ms IH]; intros b; cbn [make_moves app].
  - cbn [mbind option_bind].
    destruct (make_move b m who) as [[[] ?]|]; reflexivity.
  - destruct (make_move b m' who') as [[[] b1]|]; cbn [mbind option_bind];
      try reflexivity.
    apply IH.
Qed.

(** * Properties of the search *)

Lemma valid_player_other p : valid_player (other p).
Proof. unfold valid_player, other. case_decide; auto. Qed.

Lemma valid_player_piece p : valid_player p → p ≠ "O"%string.
Proof. by intros [-> | ->]. Qed.

Lemma sorted_lt_NoDup (l : list Z) : StronglySorted Z.lt l → NoDup l.
Proof.
  induction 1 as [|x l _ IH Hall]; constructor; [|done].
  intros Hin. rewrite Forall_forall in Hall. specialize (Hall _ Hin). lia.
Qed.

(** ** Nodes and legal moves *)

Section Expanded.
Context (u : UCT) (g0 : ConnectFour) (t : list MCTSNode)
        (pos : list (ConnectFour * string)).
Context (id : nat) (nd : MCTSNode) (g : ConnectFour) (p : string) (l : list Z).
Hypothesis Hinv : tree_inv u g0 t pos.
Hypothesis Hnd : t !! id = Some nd.
Hypothesis Hpos : pos !! id = Some (g, p).
Hypothesis Hwf : wf_grid (board g).
Hypothesis Hl : get_legal_moves g = Some l.

(** The moves that have a child are legal. *)
Lemma children_legal : dom (children nd) ⊆ (list_to_set l : gset Z).
Proof.
  intros m [cid Hcid]%elem_of_dom.
  destruct Hinv as (_ & _ & _ & _ & Hch).
  destruct (Hch _ _ _ _ Hnd Hcid) as (g1 & p1 & _ & l1 & _ & Hp1 & Hl1 & Hm & _).
  simplify_eq. by apply elem_of_list_to_set.
Qed.

Lemma legal_NoDup : NoDup l.
Proof.
  destruct (get_legal_moves_spec g Hwf) as (l' & Hl' & _ & Hsort).
  simplify_eq. by apply sorted_lt_NoDup.
Qed.

(** At a fully expanded node every legal move has a child. *)
Lemma fully_expanded_child m :
  is_fully_expanded nd l = true → m ∈ l →
  ∃ cid nc g',
    children nd !! m = Some cid ∧ t !! cid = Some nc ∧ parent nc = Some id
    ∧ make_move g m p = Some (true, g') ∧ pos !! cid = Some (g', other p).
Proof.
  intros Hfull%bool_decide_eq_true Hm.
  assert (dom (children nd) = (list_to_set l : gset Z)) as Hdom.
  { apply set_subseteq_size_eq; [apply children_legal|].
    rewrite size_dom, size_list_to_set by apply legal_NoDup. lia. }
  assert (m ∈ dom (children nd)) as [cid Hcid]%elem_of_dom
    by (rewrite Hdom; by apply elem_of_list_to_set).
  destruct Hinv as (_ & _ & _ & _ & Hch).
  destruct (Hch _ _ _ _ Hnd Hcid) as (g1 & p1 & g' & l1 & nc & ? & ? & ? & ? & ? & ? & ?).
  simplify_eq. eauto 10.
Qed.

(** At any other node some legal move has no child. *)
Lemma unexplored_nonempty :
  is_fully_expanded nd l = false →
  filter (λ m, children nd !! m = None) l ≠ [].
Proof.
  intros Hfull%bool_decide_eq_false Hnil. apply Hfull.
  assert (dom (children nd) = (list_to_set l : gset Z)) as Hdom.
  { apply (anti_symm (⊆)); [apply children_legal|].
    intros m Hm%elem_of_list_to_set. apply elem_of_dom.
    destruct (children nd !! m) eqn:Hc; [done|].
    assert (m ∈ filter (λ m, children nd !! m = None) l) as Hin
      by (by apply list_elem_of_filter).
    rewrite Hnil in Hin. by apply elem_of_nil in Hin. }
  rewrite <-size_dom, Hdom. apply size_list_to_set, legal_NoDup.
Qed.
End Expanded.

Lemma choice_elem {A} (rnd : nat → nat) (l : list A) k :
  l ≠ [] → ∃ x, choice rnd l k = Some x ∧ x ∈ l.
Proof.
  intros Hl. destruct l as [|a l]; [done|]. unfold choice.
  destruct (lookup_lt_is_Some_2 (a :: l) (rnd k `mod` length (a :: l))%nat) as [x Hx].
  { apply Nat.mod_upper_bound. done. }
  exists x. split; [done|]. by eapply list_elem_of_lookup_2.
Qed.

(** ** The UCB comparison loop *)

Section Ucb.
Context (math_log : Z → Qc) (math_sqrt : Qc → Qc).
Context (u : UCT) (t : list MCTSNode) (id : nat) (node : MCTSNode) (who : string).
Hypothesis Hnode : t !! id = Some node.

(** The loop runs through when every move has a child of this node; it
    records a score for every move, and it picks a move of the list unless
    it had one already. *)
Lemma ucb_loop_total moves best_move best_ucb ucb_values :
  (∀ m, m ∈ moves → ∃ cid nc, children node !! m = Some cid
                              ∧ t !! cid = Some nc ∧ parent nc = Some id) →
  (best_move = None →
   best_ucb = if decide (who = "Y"%string) then NegInf else PosInf) →
  ∃ best_move' best_ucb' ucb_values',
    ucb_loop math_log math_sqrt u t node who moves
             (best_move, best_ucb, ucb_values)
    = Some (best_move', best_ucb', ucb_values')
    ∧ (∀ m, m ∈ moves ∨ is_Some (ucb_values !! m) → is_Some (ucb_values' !! m))
    ∧ (∀ m, best_move' = Some m → best_move = Some m ∨ m ∈ moves)
    ∧ (moves ≠ [] ∨ is_Some best_move → is_Some best_move').
Proof.
  revert best_move best_ucb ucb_values.
  induction moves as [|m rest IH]; intros bm bu vals Hch Hstart.
  - eexists _, _, _. split; [done|]. split; [|split].
    + intros m [[]%elem_of_nil|?]. done.
    + auto.
    + intros [?|?]; done.
  - cbn [ucb_loop].
    destruct (Hch m) as (cid & nc & Hcid & Hnc & Hp); [left|].
    rewrite Hcid. cbn [mbind option_bind]. rewrite Hnc.
    cbn [mbind option_bind].
    destruct (get_ucb_value_total math_log math_sqrt t nc
                (exploration_constant u) (bool_decide (who = "Y"%string)) id Hp)
      as (x & -> & Hx); [by eexists|].
    cbn [mbind option_bind].
    set (better := if decide (who = "Y"%string) then float_ltb bu x
                   else float_ltb x bu).
    assert (bm = None → better = true) as Hfirst.
    { intros Hbm. unfold better. rewrite (Hstart Hbm).
      case_decide as Hy.
      - rewrite bool_decide_eq_true_2 in Hx by done. by destruct x.
      - rewrite bool_decide_eq_false_2 in Hx by done. by destruct x. }
    destruct (IH (if better then Some m else bm) (if better then x else bu)
                 (<[m:=x]> vals))
      as (bm' & bu' & vals' & Hloop & Hvals & Hbm & Hsome).
    { intros; apply Hch; by right. }
    { destruct better; [done|]. intros Hbm'. by specialize (Hfirst Hbm'). }
    exists bm', bu', vals'. split; [by destruct better|].
    split; [|split].
    + intros m' [[->|Hin]%elem_of_cons|Hold]; apply Hvals.
      * right. rewrite lookup_insert_eq. by eexists.
      * by left.
      * right. rewrite lookup_insert. destruct (decide (m = m')); [by eexists|done].
    + intros m' Hm'. destruct (Hbm _ Hm') as [Hold|?]; [|right; by right].
      destruct better; simplify_eq; [right; left|by left].
    + intros _. apply Hsome. right.
      destruct bm; [destruct better; by eexists|].
      rewrite Hfirst by done. by eexists.
Qed.
End Ucb.

(** The verbose report of the scores prints a line for every legal move. *)
Lemma print_ucb_values_total (legal_moves : list Z) (ucb_values : gmap Z float) :
  (∀ m, m ∈ legal_moves → is_Some (ucb_values !! m)) →
  is_Some (print_ucb_values legal_moves ucb_values).
Proof.
  intros Hall. unfold print_ucb_values. apply mapM_is_Some, Forall_forall.
  intros col Hcol. rewrite (merge_sort_Permutation Z.le legal_moves) in Hcol.
  destruct (Hall col Hcol) as [v Hv]. simpl. rewrite Hv. by eexists.
Qed.

(** ** The tree stays a tree of positions *)

Lemma tree_inv_counters u g0 t t' pos :
  tree_inv u g0 t pos → links <$> t' = links <$> t → Forall counts_ok t' →
  tree_inv u g0 t' pos.
Proof.
  intros (Hlen & Hroot & Hpb & _ & Hch) Hl Hc.
  split; [by rewrite Hlen, (links_length _ _ Hl)|]. split; [done|].
  split; [by eapply parents_below_links|]. split; [done|].
  intros id nd m cid Hnd Hcid.
  destruct (links_lookup _ _ _ _ Hl Hnd) as (nd0 & Hnd0 & [= Hc0 _ _]).
  rewrite <-Hc0 in Hcid.
  destruct (Hch _ _ _ _ Hnd0 Hcid)
    as (g & p & g' & l & nc & ? & ? & ? & ? & ? & Hnc & Hp).
  destruct (links_lookup _ _ _ _ (eq_sym Hl) Hnc) as (nc' & Hnc' & [= _ Hp' _]).
  exists g, p, g', l, nc'. repeat (split; [done|]). congruence.
Qed.

Lemma tree_inv_expand u g0 t pos id nd g p l m g' :
  tree_inv u g0 t pos → t !! id = Some nd → pos !! id = Some (g, p) →
  get_legal_moves g = Some l → m ∈ l → make_move g m p = Some (true, g') →
  tree_inv u g0
    (<[id:=add_child nd m (length t)]> t ++ [new_node (Some id) (Some m)])
    (pos ++ [(g', other p)]).
Proof.
  intros (Hlen & Hroot & Hpb & Hc & Hch) Hnd Hpos Hl Hm Hmove.
  pose proof (lookup_lt_Some _ _ _ Hnd) as Hid.
  assert (∀ k ndk,
            (<[id:=add_child nd m (length t)]> t
             ++ [new_node (Some id) (Some m)]) !! k = Some ndk →
            (k = length t ∧ ndk = new_node (Some id) (Some m))
            ∨ (∃ nd0, t !! k = Some nd0 ∧ parent ndk = parent nd0
                      ∧ wi ndk = wi nd0 ∧ ni ndk = ni nd0
                      ∧ children ndk = if decide (k = id)
                                       then <[m:=length t]> (children nd0)
                                       else children nd0)) as Hlook.
  { intros k ndk Hk. apply lookup_app_Some in Hk as [Hk|[Hge Hk]].
    - right. apply list_lookup_insert_Some in Hk as [(-> & <- & _)|[Hne Hk]].
      + exists nd. rewrite decide_True by done. done.
      + exists ndk. rewrite decide_False by done. done.
    - left. rewrite length_insert in Hge, Hk.
      apply list_lookup_singleton_Some in Hk as [Hk <-]. split; [lia|done]. }
  assert (∀ k ndk, t !! k = Some ndk →
            ∃ ndk', (<[id:=add_child nd m (length t)]> t
                     ++ [new_node (Some id) (Some m)]) !! k = Some ndk'
                    ∧ parent ndk' = parent ndk) as Hkeep.
  { intros k ndk Hk. pose proof (lookup_lt_Some _ _ _ Hk).
    rewrite lookup_app_l by (by rewrite length_insert).
    destruct (decide (k = id)) as [->|Hne].
    - rewrite list_lookup_insert_eq by done. simplify_eq. by eexists.
    - rewrite list_lookup_insert_ne by done. by eexists. }
  split; [by rewrite !length_app, length_insert, Hlen|].
  split; [rewrite lookup_app_l; [done|]; rewrite Hlen; lia|].
  split; [|split].
  - intros k ndk q Hk Hq. destruct (Hlook _ _ Hk) as [[-> ->]|(nd0 & Hk0 & Hp0 & _)].
    + simpl in Hq. by simplify_eq.
    + rewrite Hp0 in Hq. by eapply Hpb.
  - apply Forall_app. split.
    + apply Forall_insert; [done|]. by apply (Forall_lookup_1 _ _ _ _ Hc Hnd).
    + by repeat constructor.
  - intros k ndk m' cid Hk Hcid.
    destruct (Hlook _ _ Hk) as [[-> ->]|(nd0 & Hk0 & _ & _ & _ & Hch0)].
    { simpl in Hcid. by rewrite lookup_empty in Hcid. }
    rewrite Hch0 in Hcid.
    destruct (decide (k = id ∧ m' = m)) as [[-> ->]|Hother].
    + rewrite decide_True, lookup_insert_eq in Hcid by done. simplify_eq.
      exists g, p, g', l, (new_node (Some id) (Some m)).
      split; [by apply lookup_app_l_Some|]. split; [done|]. split; [done|].
      split; [done|]. split; [by rewrite <-Hlen, list_lookup_middle|].
      split; [|done].
      apply list_lookup_middle. by rewrite length_insert.
    + assert (children nd0 !! m' = Some cid) as Hcid0.
      { case_decide as Hk'; [|done]. rewrite lookup_insert_ne in Hcid; [done|].
        intros ->. tauto. }
      destruct (Hch _ _ _ _ Hk0 Hcid0)
        as (g1 & p1 & g1' & l1 & nc & ? & ? & ? & ? & ? & Hnc & Hp).
      destruct (Hkeep _ _ Hnc) as (nc' & Hnc' & Hp').
      exists g1, p1, g1', l1, nc'.
      split; [by apply lookup_app_l_Some|]. split; [done|]. split; [done|].
      split; [done|]. split; [by apply lookup_app_l_Some|].
      split; [done|]. congruence.
Qed.

(** ** The selection loop *)

Section Selection.
Context (rnd : nat → nat) (math_log : Z → Qc) (math_sqrt : Qc → Qc).
Context (u : UCT) (g0 : ConnectFour).

(** The selection loop runs through: it ends within the number of empty
    cells of the board, the tree it leaves is a tree of positions, and the
    board is the position of the node it ends at. *)
Lemma selection_total steps pos w pm :
  tree_inv u g0 (tree (w_search w)) pos → walk_inv g0 pos w pm →
  (empties (game (w_search w)) < steps)%nat →
  ∃ w' pos' pm',
    selection rnd math_log math_sqrt steps u w = Some w'
    ∧ tree_inv u g0 (tree (w_search w')) pos' ∧ walk_inv g0 pos' w' pm'.
Proof.
  revert pos w pm. induction steps as [|steps IH]; intros pos w pm Hinv Hwalk Hfuel;
    [lia|].
  destruct w as [[g t k o] id p mv].
  destruct Hwalk as (Hpos & Hmk & Hmv & Hwf & Hok & Hvp). simpl in *.
  destruct (is_terminal_spec g Hwf Hok) as ([term v] & l & Hres & Hl & _).
  rewrite Hl. cbn [mbind option_bind].
  case_decide as Hlen; [|by eexists _, pos, pm].
  rewrite Hres. cbn [mbind option_bind].
  destruct term; [by eexists _, pos, pm|].
  pose proof Hinv as (Hplen & _).
  destruct (lookup_lt_is_Some_2 t id) as [nd Hnd].
  { rewrite <-Hplen. by eapply lookup_lt_Some. }
  rewrite Hnd. cbn [mbind option_bind].
  destruct (is_fully_expanded nd l) eqn:Hfull.
  - destruct (ucb_loop_total math_log math_sqrt u t id nd p Hnd l None
                (if decide (p = "Y"%string) then NegInf else PosInf) ∅)
      as (bm & bu & vals & Hloop & Hvals & Hbm & Hsome).
    { intros m Hm.
      destruct (fully_expanded_child u g0 t pos id nd g p l Hinv Hnd Hpos Hwf Hl m Hfull Hm)
        as (cid & nc & _ & ? & ? & ? & _). eauto. }
    { done. }
    rewrite Hloop. cbn [mbind option_bind].
    destruct (print_ucb_values_total l vals) as [lines Hlines]; [auto|].
    destruct Hsome as [m ->]; [left; intros ->; simpl in Hlen; lia|].
    assert (m ∈ l) as Hm by (by destruct (Hbm m eq_refl)).
    destruct (fully_expanded_child u g0 t pos id nd g p l Hinv Hnd Hpos Hwf Hl m Hfull Hm)
      as (cid & nc & g' & Hcid & Hnc & Hpar & Hmove & Hpos').
    destruct (make_move_legal g l m p Hwf Hl Hm) as [Hcol _].
    destruct (make_move_valid g m p g' Hwf Hcol Hmove) as (Hwf' & Hok' & _ & Hless).
    specialize (Hless (valid_player_piece p Hvp)).
    assert (∀ o', ∃ w' pos' pm',
              selection rnd math_log math_sqrt steps u
                (mkWalk (mkSearch g' t k o') cid (other p) (mv ++ [m])) = Some w'
              ∧ tree_inv u g0 (tree (w_search w')) pos' ∧ walk_inv g0 pos' w' pm')
      as Hnext.
    { intros o'. apply (IH pos _ (pm ++ [(m, p)])); simpl; [done| |lia].
      split; [done|]. split.
      - rewrite make_moves_snoc, Hmk. simpl. by rewrite Hmove.
      - rewrite fmap_app, Hmv. simpl. do 3 (split; [done|]).
        apply valid_player_other. }
    destruct (verbose u); [rewrite Hlines|]; cbn [mbind option_bind];
      simpl; rewrite Hcid; cbn [mbind option_bind]; rewrite Hmove;
      cbn [mbind option_bind]; apply Hnext.
  - destruct (choice_elem rnd (filter (λ m, children nd !! m = None) l) k)
      as (m & Hchoice & [Hnone Hm]%list_elem_of_filter).
    { by eapply unexplored_nonempty. }
    rewrite Hchoice. cbn [mbind option_bind].
    destruct (make_move_legal g l m p Hwf Hl Hm) as [Hcol [g' Hmove]].
    destruct (make_move_valid g m p g' Hwf Hcol Hmove) as (Hwf' & Hok' & _).
    simpl. rewrite Hmove. cbn [mbind option_bind].
    eexists _, (pos ++ [(g', other p)]), (pm ++ [(m, p)]).
    split; [done|]. simpl. split.
    + by eapply tree_inv_expand.
    + split; [by apply list_lookup_middle|]. split.
      * rewrite make_moves_snoc, Hmk. simpl. by rewrite Hmove.
      * rewrite fmap_app, Hmv. simpl. do 3 (split; [done|]).
        apply valid_player_other.
Qed.
End Selection.

(** ** The rollout loop *)

Lemma rollout_total (rnd : nat → nat) (g0 : ConnectFour) steps s p moves pm :
  make_moves g0 pm = Some (game s) →
  wf_grid (board (game s)) → marker_ok (game s) → valid_player p →
  (empties (game s) < steps)%nat →
  ∃ s' pm',
    rollout rnd steps s p moves = Some (s', moves ++ pm'.*1)
    ∧ tree s' = tree s ∧ out s' = out s
    ∧ make_moves g0 (pm ++ pm') = Some (game s')
    ∧ wf_grid (board (game s')) ∧ marker_ok (game s').
Proof.
  revert s p moves pm. induction steps as [|steps IH];
    intros [g t k o] p moves pm Hmk Hwf Hok Hvp Hfuel; [lia|].
  simpl in *.
  assert (∃ s' pm', Some (mkSearch g t k o, moves) = Some (s', moves ++ pm'.*1)
            ∧ tree s' = t ∧ out s' = o
            ∧ make_moves g0 (pm ++ pm') = Some (game s')
            ∧ wf_grid (board (game s')) ∧ marker_ok (game s')) as Hstop.
  { exists (mkSearch g t k o), []. rewrite !app_nil_r. done. }
  destruct (is_terminal_spec g Hwf Hok) as ([term v] & l & Hres & Hl & _).
  rewrite Hl. cbn [mbind option_bind].
  case_decide as Hlen; [|done].
  rewrite Hres. cbn [mbind option_bind]. destruct term; [done|].
  destruct (choice_elem rnd l k) as (m & -> & Hm).
  { intros ->. simpl in Hlen. lia. }
  cbn [mbind option_bind].
  destruct (make_move_legal g l m p Hwf Hl Hm) as [Hcol [g' Hmove]].
  destruct (make_move_valid g m p g' Hwf Hcol Hmove) as (Hwf' & Hok' & _ & Hless).
  specialize (Hless (valid_player_piece p Hvp)).
  rewrite Hmove. cbn [mbind option_bind].
  destruct (IH (mkSearch g' t (S k) o) (other p) (moves ++ [m]) (pm ++ [(m, p)]))
    as (s' & pm' & Hroll & Ht & Ho & Hmk' & Hwf'' & Hok''); simpl.
  - rewrite make_moves_snoc, Hmk. simpl. by rewrite Hmove.
  - done.
  - done.
  - apply valid_player_other.
  - lia.
  - exists s', ((m, p) :: pm'). rewrite Hroll. simpl in *.
    rewrite <-!app_assoc in *. done.
Qed.

(** ** Undoing the moves of a simulation *)

(** Undoing first the rollout moves and then the selection moves, each in
    reverse, gives back the board the simulation started from. *)
Lemma undo_simulation g0 pm1 pm2 g :
  marker_top g0 → make_moves g0 (pm1 ++ pm2) = Some g →
  ∃ g1, undo_all g (reverse pm2.*1) = Some g1
        ∧ undo_all g1 (reverse pm1.*1) = Some g0.
Proof.
  intros Htop Hmk.
  destruct (make_moves_undo_all _ _ _ Hmk) as (b & Hu & Hb & Hs & Hlast).
  destruct Hlast as [Hnil|Hlast].
  { apply app_eq_nil in Hnil as [-> ->]. simpl in Hmk. simplify_eq.
    by exists g. }
  rewrite fmap_app, reverse_app, undo_all_app in Hu.
  destruct (undo_all g (reverse pm2.*1)) as [g1|]; [|done].
  exists g1. split; [done|]. simpl in Hu. rewrite Hu. f_equal.
  destruct b, g0. unfold marker_top in Htop. simpl in *. congruence.
Qed.

(** ** The report of the updated values *)

Lemma backprop_loop_path steps t cur depth value is_max t' :
  backprop_loop steps t cur depth value is_max = Some t' →
  ∃ path, path_up steps t cur = Some path
          ∧ Forall (λ a, is_Some (t !! a)) path.
Proof.
  revert t cur depth. induction steps as [|steps IH]; intros t [id|] depth;
    simpl; try done; try (by exists []).
  destruct (t !! id) as [nd|] eqn:Hnd; simpl; [|done].
  intros Hloop. destruct (IH _ _ _ Hloop) as (path & Hpath & Hall).
  assert (links <$> <[id:=visit is_max depth value nd]> t = links <$> t) as Hl
    by by apply (links_insert t id nd).
  rewrite (path_up_links _ _ _ _ Hl) in Hpath. rewrite Hpath. simpl.
  eexists. split; [done|]. constructor; [by eexists|].
  eapply Forall_impl; [done|]. intros a [x Hx]. simpl in Hx.
  destruct (links_lookup _ _ _ _ Hl Hx) as (? & ? & _). by eexists.
Qed.

(** The verbose report after a backpropagation that returned prints. *)
Lemma print_updated_total is_max t node value t' :
  backpropagate is_max t node value = Some t' →
  is_Some (print_updated t' node).
Proof.
  intros Hbp. pose proof (backprop_loop_links _ _ _ _ _ _ _ Hbp) as Hl.
  destruct (backprop_loop_path _ _ _ _ _ _ _ Hbp) as (path & Hpath & Hall).
  unfold print_updated.
  rewrite (links_length _ _ Hl), (path_up_links _ _ _ _ Hl), Hpath.
  cbn [mbind option_bind].
  assert (is_Some (mapM (λ id, nd ← t' !! id;
                                Some [PrintUpdatedValues; PrintWi (wi nd); PrintNi (ni nd)])
                        (tail (reverse path)))) as [lines ->]; [|by eexists].
  apply mapM_is_Some, Forall_forall. intros a Ha.
  assert (a ∈ path) as Hin.
  { apply elem_of_reverse. destruct (reverse path); [done|]. by right. }
  rewrite Forall_forall in Hall. destruct (Hall _ Hin) as [x Hx].
  destruct (links_lookup _ _ _ _ (eq_sym Hl) Hx) as (x' & Hx' & _).
  simpl. rewrite Hx'. by eexists.
Qed.

(** ** One simulation, and any number of them *)

Section Simulation.
Context (rnd : nat → nat) (math_log : Z → Qc) (math_sqrt : Qc → Qc).
Context (u : UCT) (g0 : ConnectFour).
Hypothesis Hvalid : valid_game g0.
Hypothesis Hplayer : valid_player (player u).

Lemma loop_steps_enough g : (empties g < loop_steps)%nat.
Proof.
  pose proof (empties_bound g). unfold loop_steps, ROWS, COLS in *. lia.
Qed.

(** A simulation returns; it leaves the board as it found it, and the
    tree a tree of positions with at most one node more. *)
Lemma simulation_total s pos :
  game s = g0 → tree_inv u g0 (tree s) pos →
  ∃ s' pos',
    simulation rnd math_log math_sqrt u s = Some s'
    ∧ game s' = g0 ∧ tree_inv u g0 (tree s') pos'
    ∧ ∃ w value,
        selection rnd math_log math_sqrt loop_steps u
                  (mkWalk s 0%nat (player u) []) = Some w
        ∧ backpropagate (is_max_player u) (tree (w_search w)) (w_node w) value
          = Some (tree s').
Proof.
  intros Hg Hinv. destruct Hvalid as (Hwf0 & Hok0 & Htop0).
  destruct (selection_total rnd math_log math_sqrt u g0 loop_steps pos
              (mkWalk s 0%nat (player u) []) [])
    as (w & pos' & pm1 & Hsel & Hinv' & Hwalk).
  { done. }
  { pose proof Hinv as (_ & Hroot & _). unfold walk_inv. simpl.
    rewrite Hg. done. }
  { apply loop_steps_enough. }
  destruct Hwalk as (Hpos & Hmk & Hmv & Hwf & Hok & Hvp).
  destruct (rollout_total rnd g0 loop_steps (w_search w) (w_player w) [] pm1)
    as (s1 & pm2 & Hroll & Ht & Ho & Hmk' & Hwf' & Hok');
    [done..|apply loop_steps_enough|].
  destruct (is_terminal_spec (game s1) Hwf' Hok') as ([term v] & _ & Hres & _).
  destruct (undo_simulation g0 pm1 pm2 (game s1) Htop0 Hmk') as (g1 & Hu1 & Hu2).
  pose proof Hinv' as (Hlen & _ & Hpb & Hc & _).
  destruct (backpropagate_total (is_max_player u) (tree s1) (w_node w) (default 0 v))
    as [t' Hbp].
  { by rewrite Ht. }
  { rewrite Ht, <-Hlen. by eapply lookup_lt_Some. }
  destruct (print_updated_total _ _ _ _ _ Hbp) as [lines Hlines].
  assert (tree_inv u g0 t' pos') as Hinv''.
  { apply (tree_inv_counters u g0 (tree s1)); [by rewrite Ht| |].
    - by eapply backprop_loop_links.
    - eapply backpropagate_counts; [|done]. by rewrite Ht. }
  unfold simulation. rewrite Hsel. cbn [mbind option_bind].
  rewrite Hroll. cbn [mbind option_bind]. rewrite Hres. cbn [mbind option_bind].
  simpl. rewrite Hu1. cbn [mbind option_bind]. rewrite <-Hmv, Hu2.
  cbn [mbind option_bind]. rewrite Hbp. cbn [mbind option_bind].
  rewrite Ht in Hbp.
  destruct (verbose u); [rewrite Hlines|]; cbn [mbind option_bind];
    (eexists _, pos'; split; [done|]; split; [done|]; split; [done|]);
    by exists w, (default 0 v).
Qed.

Lemma simulations_total n s pos :
  game s = g0 → tree_inv u g0 (tree s) pos →
  ∃ s' pos',
    simulations rnd math_log math_sqrt n u s = Some s'
    ∧ game s' = g0 ∧ tree_inv u g0 (tree s') pos'.
Proof.
  revert s pos. induction n as [|n IH]; intros s pos Hg Hinv; simpl.
  - by exists s, pos.
  - destruct (simulation_total s pos Hg Hinv)
      as (s1 & pos1 & -> & Hg1 & Hinv1 & _).
    simpl. by apply (IH s1 pos1).
Qed.

(** The tree of a fresh [UCT] object is a tree of positions. *)
Lemma tree_inv_init : tree_inv u g0 [new_node None None] [(g0, player u)].
Proof.
  split; [done|]. split; [done|]. split; [|split].
  - intros [|id] nd p Hnd Hp; simplify_eq/=.
  - repeat constructor. unfold counts_ok. simpl. lia.
  - intros [|id] nd m cid Hnd Hcid; simplify_eq/=.
Qed.
End Simulation.

(** * The final decision *)

Lemma better_as_good is_max a b : better is_max a b → as_good is_max a b.
Proof. destruct is_max; apply Qclt_le_weak. Qed.

Lemma not_better_as_good is_max a b : ¬ better is_max a b → as_good is_max b a.
Proof. destruct is_max; apply Qcnot_lt_le. Qed.

Lemma as_good_refl is_max a : as_good is_max a a.
Proof. destruct is_max; apply Qcle_refl. Qed.

Lemma as_good_trans is_max a b c :
  as_good is_max a b → as_good is_max b c → as_good is_max a c.
Proof. destruct is_max; simpl; eauto using Qcle_trans. Qed.

Lemma better_as_good_trans is_max a b c :
  better is_max a b → as_good is_max b c → better is_max a c.
Proof. destruct is_max; simpl; eauto using Qcle_lt_trans, Qclt_le_trans. Qed.

Section Decision.
Context (u : UCT) (t : list MCTSNode) (root : MCTSNode).
Hypothesis Hchildren :
  ∀ m cid, children root !! m = Some cid → is_Some (t !! cid).

Abbreviation val := (move_value t root).
Abbreviation is_max := (is_max_player u).

Lemma decision_loop_spec moves seen best_move best_value move_values :
  decided is_max val seen best_move best_value →
  ∃ best_move' best_value' move_values',
    decision_loop u t root moves (best_move, best_value, move_values)
    = Some (best_move', best_value', move_values')
    ∧ decided is_max val (seen ++ moves) best_move' best_value'.
Proof.
  revert seen best_move best_value move_values.
  induction moves as [|m rest IH]; intros seen bm bv mv Hdec.
  - rewrite app_nil_r. by eexists _, _, _.
  - cbn [decision_loop].
    assert (match children root !! m with
            | Some cid => child ← t !! cid; Some (get_value child)
            | None => Some 0%Qc
            end = Some (val m)) as ->.
    { unfold val, move_value. destruct (children root !! m) as [cid|] eqn:Hc; [|done].
      by destruct (Hchildren _ _ Hc) as [child ->]. }
    cbn [mbind option_bind].
    set (take := if is_max_player u then float_ltb bv (Fin (val m))
                 else float_ltb (Fin (val m)) bv).
    replace (seen ++ m :: rest) with ((seen ++ [m]) ++ rest)
      by (by rewrite <-app_assoc).
    unfold decided in Hdec. fold is_max in take.
    destruct bm as [b|].
    + destruct Hdec as [-> (i & Hi & Hall & Hbefore)].
      assert (take = bool_decide (better is_max (val m) (val b))) as ->
        by (unfold take, better; by destruct is_max).
      case_bool_decide as Hbetter; apply IH; unfold decided.
      * split; [done|]. exists (length seen).
        split; [by apply list_lookup_middle|]. split.
        -- intros j m' [Hj|[_ Hj]]%lookup_app_Some.
           ++ apply better_as_good.
              eapply better_as_good_trans; [done|]. by eapply Hall.
           ++ apply list_lookup_singleton_Some in Hj as [_ <-].
              apply as_good_refl.
        -- intros j m' Hlt Hj. rewrite lookup_app_l in Hj by done.
           eapply better_as_good_trans; [done|]. by eapply Hall.
      * split; [done|]. exists i. split; [by apply lookup_app_l_Some|]. split.
        -- intros j m' [Hj|[_ Hj]]%lookup_app_Some; [by eapply Hall|].
           apply list_lookup_singleton_Some in Hj as [_ <-].
           by apply not_better_as_good.
        -- intros j m' Hlt Hj. pose proof (lookup_lt_Some _ _ _ Hi).
           rewrite lookup_app_l in Hj by lia. by eapply Hbefore.
    + destruct Hdec as [-> ->].
      assert (take = true) as -> by (unfold take; by destruct is_max).
      apply IH. unfold decided.
      split; [done|]. exists 0%nat. split; [done|]. split.
      * intros [|j] m' Hj; simplify_eq/=. apply as_good_refl.
      * intros; lia.
Qed.

(** The final decision returns: with a legal move, the first one of best
    value; with none, column 1. It leaves board and tree alone. *)
Lemma final_decision_spec s l :
  tree s = t → t !! 0%nat = Some root → get_legal_moves (game s) = Some l →
  ∃ m s', final_decision u s = Some (m, s')
          ∧ game s' = game s ∧ tree s' = tree s
          ∧ (l ≠ [] → first_best is_max val l m)
          ∧ (l = [] → m = 1).
Proof.
  intros Ht Hroot Hl. unfold final_decision. rewrite Hl, Ht, Hroot.
  cbn [mbind option_bind].
  destruct (decision_loop_spec l [] None (if is_max then NegInf else PosInf) ∅)
    as (bm & bv & mv & Hloop & Hdec); [done|].
  fold is_max. rewrite Hloop. cbn [mbind option_bind].
  eexists _, _. split; [done|]. simpl. rewrite Ht.
  split; [done|]. split; [done|].
  unfold decided in Hdec. simpl in Hdec. destruct bm as [b|].
  - destruct Hdec as [_ Hfirst]. split; [done|].
    intros ->. by destruct Hfirst as (? & ? & _).
  - destruct Hdec as [-> _]. done.
Qed.
End Decision.

(** * [select_move] *)

Section SelectMove.
Context (rnd : nat → nat) (math_log : Z → Qc) (math_sqrt : Qc → Qc).
Context (u : UCT) (g : ConnectFour).
Hypothesis Hvalid : valid_game g.
Hypothesis Hplayer : valid_player (player u).

(** [select_move] returns; the simulations leave the board as it was and
    build a tree of positions, and the move is decided on that tree. *)
Lemma select_move_spec :
  ∃ s pos l root m s',
    simulations rnd math_log math_sqrt (Z.to_nat (num_simulations u)) u
                (init_search g) = Some s
    ∧ game s = g ∧ tree_inv u g (tree s) pos
    ∧ get_legal_moves g = Some l ∧ tree s !! 0%nat = Some root
    ∧ select_move rnd math_log math_sqrt u (init_search g) = Some (m, s')
    ∧ game s' = g ∧ tree s' = tree s
    ∧ (l ≠ [] → first_best (is_max_player u) (move_value (tree s) root) l m)
    ∧ (l = [] → m = 1).
Proof.
  destruct (simulations_total rnd math_log math_sqrt u g Hvalid Hplayer
              (Z.to_nat (num_simulations u)) (init_search g) [(g, player u)])
    as (s & pos & Hsims & Hg & Hinv); [done|apply tree_inv_init|].
  destruct Hvalid as (Hwf & _).
  destruct (get_legal_moves_spec g Hwf) as (l & Hl & _).
  pose proof Hinv as (Hlen & Hroot & _ & _ & Hch).
  destruct (lookup_lt_is_Some_2 (tree s) 0) as [root Hr].
  { rewrite <-Hlen. by eapply lookup_lt_Some. }
  destruct (final_decision_spec u (tree s) root) with (s := s) (l := l)
    as (m & s' & Hfin & Hg' & Ht' & Hbest & Hnone); [|done|done|by rewrite Hg|].
  { intros m cid Hc. destruct (Hch _ _ _ _ Hr Hc) as (? & ? & ? & ? & ? & ? & ? & ? & ? & ? & ? & ?).
    by eexists. }
  exists s, pos, l, root, m, s'. unfold select_move. rewrite Hsims. simpl.
  rewrite Hfin, Hg', Hg. done.
Qed.
End SelectMove.

(** C4. One call of [select_move], for any number of simulations and any
    draws, returns and leaves the board as it was before the call: the same
    grid, the same move stack and the same last-move marker. *)
Theorem select_move_restores_board (rnd : nat → nat) (math_log : Z → Qc)
    (math_sqrt : Qc → Qc) (u : UCT) (g : ConnectFour) :
  valid_game g → valid_player (player u) →
  ∃ m s', select_move rnd math_log math_sqrt u (init_search g) = Some (m, s')
          ∧ game s' = g.
Proof.
  intros Hvalid Hplayer.
  destruct (select_move_spec rnd math_log math_sqrt u g Hvalid Hplayer)
    as (s & pos & l & root & m & s' & _ & _ & _ & _ & _ & Hsel & Hg & _).
  by exists m, s'.
Qed.

Lemma valid_empty_board : valid_game empty_board.
Proof. split; [|done]. split; [reflexivity|]. repeat constructor. Defined.

Lemma select_move_restores_board_witness :
  ∃ m s', select_move count_up log_stub sqrt_stub three_simulations
                      (init_search empty_board) = Some (m, s')
          ∧ game s' = empty_board.
Proof.
  apply (select_move_restores_board count_up log_stub sqrt_stub
           three_simulations empty_board).
  - exact valid_empty_board.
  - right. reflexivity.
Defined.

(** C8. The final decision of [select_move] runs over the legal moves of the
    root in ascending column order and values each by the plain average of
    its child, a move without a child by 0; it returns the first move of best
    value: the largest for the maximizing player, the smallest otherwise. *)
Theorem final_move_is_first_best (rnd : nat → nat) (math_log : Z → Qc)
    (math_sqrt : Qc → Qc) (u : UCT) (g : ConnectFour) :
  valid_game g → valid_player (player u) →
  ∃ s l root m s',
    simulations rnd math_log math_sqrt (Z.to_nat (num_simulations u)) u
                (init_search g) = Some s
    ∧ select_move rnd math_log math_sqrt u (init_search g) = Some (m, s')
    ∧ get_legal_moves g = Some l ∧ StronglySorted Z.lt l
    ∧ tree s !! 0%nat = Some root
    ∧ (l ≠ [] → first_best (is_max_player u) (move_value (tree s) root) l m).
Proof.
  intros Hvalid Hplayer.
  destruct (select_move_spec rnd math_log math_sqrt u g Hvalid Hplayer)
    as (s & pos & l & root & m & s' & Hsims & _ & _ & Hl & Hroot & Hsel & _ & _ & Hbest & _).
  exists s, l, root, m, s'. repeat (split; [done|]).
  destruct Hvalid as (Hwf & _).
  destruct (get_legal_moves_spec g Hwf) as (l' & Hl' & _ & Hsort).
  by simplify_eq.
Qed.

Lemma final_move_is_first_best_witness :
  ∃ s l root m s',
    simulations count_up log_stub sqrt_stub
                (Z.to_nat (num_simulations three_simulations)) three_simulations
                (init_search empty_board) = Some s
    ∧ select_move count_up log_stub sqrt_stub three_simulations
                  (init_search empty_board) = Some (m, s')
    ∧ get_legal_moves empty_board = Some l ∧ StronglySorted Z.lt l
    ∧ tree s !! 0%nat = Some root
    ∧ (l ≠ [] → first_best (is_max_player three_simulations)
                           (move_value (tree s) root) l m).
Proof.
  apply (final_move_is_first_best count_up log_stub sqrt_stub
           three_simulations empty_board).
  - exact valid_empty_board.
  - right. reflexivity.
Defined.

(** What one call of [backpropagate] does to the tree: the [i]-th node on
    the way from [node] to the root gets the update of depth [i], every
    other node is left as it is. *)
Lemma backpropagate_effect is_max t node value t' :
  parents_below t → backpropagate is_max t node value = Some t' →
  ∃ path,
    ancestors t node = Some path
    ∧ path !! 0%nat = Some node
    ∧ (∀ i k nd, path !! i = Some k → t !! k = Some nd →
                 path !! S i = parent nd)
    ∧ (∀ i k, path !! i = Some k →
         ∃ nd, t !! k = Some nd
               ∧ t' !! k = Some (visit is_max (Z.of_nat i)
                                       (Z.max (-1) (Z.min 1 value)) nd))
    ∧ (∀ k, k ∉ path → t' !! k = t !! k).
Proof.
  intros Hpb Hbp. unfold backpropagate in Hbp. unfold ancestors.
  destruct (backprop_loop_path _ _ _ _ _ _ _ Hbp) as (path & Hpath & _).
  destruct (path_up_chain _ _ _ _ Hpath) as [Hhead Hchain].
  destruct (backprop_loop_effect _ _ _ _ _ _ _ _ Hpb Hbp Hpath) as [Hon Hoff].
  exists path. do 3 (split; [done|]). split; [|done].
  intros i k Hi. destruct (Hon i k Hi) as (nd & ? & ?). by exists nd.
Qed.

(** C10. After any number of simulations every node of the tree has
    [|W| <= N]; the quotient [W / N] of a visited node lies in [-1, 1], and
    [get_value] returns it as it is: the clamp changes nothing. A further
    backpropagation, of any value from any node, returns. It walks the path
    from that node to the root, each node followed by its parent; every
    node of the path gets [N + 1], and its [W] grows or shrinks by the value
    clamped to [-1, 1], by the parity of its place on the path, so it moves
    by at most 1; every other node stays as it is; and [|W| <= N] holds
    afterwards. *)
Theorem counts_bounded (rnd : nat → nat) (math_log : Z → Qc)
    (math_sqrt : Qc → Qc) (u : UCT) (g : ConnectFour) (n : nat) :
  valid_game g → valid_player (player u) →
  ∃ s, simulations rnd math_log math_sqrt n u (init_search g) = Some s
       ∧ Forall (λ nd, Z.abs (wi nd) ≤ ni nd
                       ∧ (ni nd ≠ 0 →
                          get_value nd = (Qc_of_Z (wi nd) / Qc_of_Z (ni nd))%Qc
                          ∧ (-1 ≤ Qc_of_Z (wi nd) / Qc_of_Z (ni nd) ≤ 1)%Qc))
                (tree s)
       ∧ ∀ node value, (node < length (tree s))%nat →
           ∃ t' (path : list nat),
             backpropagate (is_max_player u) (tree s) node value = Some t'
             ∧ length t' = length (tree s)
             ∧ path !! 0%nat = Some node
             ∧ (∀ i k nd, path !! i = Some k → tree s !! k = Some nd →
                          path !! S i = parent nd)
             ∧ (∀ i k, path !! i = Some k →
                  ∃ nd nd',
                    tree s !! k = Some nd ∧ t' !! k = Some nd'
                    ∧ ni nd' = ni nd + 1
                    ∧ wi nd'
                      = (let v := Z.max (-1) (Z.min 1 value) in
                         if bool_decide (bool_decide (Z.of_nat i `mod` 2 = 0)
                                         = is_max_player u)
                         then wi nd + v else wi nd - v)
                    ∧ Z.abs (wi nd' - wi nd) ≤ 1
                    ∧ children nd' = children nd ∧ parent nd' = parent nd
                    ∧ move nd' = move nd)
             ∧ (∀ k, k ∉ path → t' !! k = tree s !! k)
             ∧ Forall2 one_visit (tree s) t'
             ∧ Forall (λ nd, Z.abs (wi nd) ≤ ni nd) t'.
Proof.
  intros Hvalid Hplayer.
  destruct (simulations_total rnd math_log math_sqrt u g Hvalid Hplayer
              n (init_search g) [(g, player u)])
    as (s & pos & Hsims & _ & (_ & _ & Hpb & Hc & _)); [done|apply tree_inv_init|].
  exists s. split; [done|]. split.
  - eapply Forall_impl; [done|].
    intros nd Hnd. split; [done|]. intros Hn. by apply get_value_quotient.
  - intros node value Hnode.
    destruct (backpropagate_total (is_max_player u) (tree s) node value Hpb Hnode)
      as [t' Hbp].
    destruct (backpropagate_effect _ _ _ _ _ Hpb Hbp)
      as (path & _ & Hhead & Hchain & Hon & Hoff).
    exists t', path. split; [done|]. split.
    { pose proof Hbp as Hl. unfold backpropagate in Hl.
      apply backprop_loop_links, links_length in Hl. done. }
    split; [done|]. split; [done|]. split; [|split; [done|split]].
    + intros i k Hi. destruct (Hon i k Hi) as (nd & Hk & Hk').
      exists nd, (visit (is_max_player u) (Z.of_nat i)
                        (Z.max (-1) (Z.min 1 value)) nd).
      split; [done|]. split; [done|]. unfold visit. cbn [ni wi children parent move].
      split; [done|]. split; [done|]. split; [|done].
      case_bool_decide; lia.
    + by eapply backpropagate_one_visit.
    + by eapply backpropagate_counts.
Qed.

Lemma counts_bounded_witness :
  ∃ s, simulations count_up log_stub sqrt_stub 3 three_simulations
                   (init_search empty_board) = Some s
       ∧ Forall (λ nd, Z.abs (wi nd) ≤ ni nd
                       ∧ (ni nd ≠ 0 →
                          get_value nd = (Qc_of_Z (wi nd) / Qc_of_Z (ni nd))%Qc
                          ∧ (-1 ≤ Qc_of_Z (wi nd) / Qc_of_Z (ni nd) ≤ 1)%Qc))
                (tree s)
       ∧ ∀ node value, (node < length (tree s))%nat →
           ∃ t' (path : list nat),
             backpropagate (is_max_player three_simulations) (tree s)
                           node value = Some t'
             ∧ length t' = length (tree s)
             ∧ path !! 0%nat = Some node
             ∧ (∀ i k nd, path !! i = Some k → tree s !! k = Some nd →
                          path !! S i = parent nd)
             ∧ (∀ i k, path !! i = Some k →
                  ∃ nd nd',
                    tree s !! k = Some nd ∧ t' !! k = Some nd'
                    ∧ ni nd' = ni nd + 1
                    ∧ wi nd'
                      = (let v := Z.max (-1) (Z.min 1 value) in
                         if bool_decide (bool_decide (Z.of_nat i `mod` 2 = 0)
                                         = is_max_player three_simulations)
                         then wi nd + v else wi nd - v)
                    ∧ Z.abs (wi nd' - wi nd) ≤ 1
                    ∧ children nd' = children nd ∧ parent nd' = parent nd
                    ∧ move nd' = move nd)
             ∧ (∀ k, k ∉ path → t' !! k = tree s !! k)
             ∧ Forall2 one_visit (tree s) t'
             ∧ Forall (λ nd, Z.abs (wi nd) ≤ ni nd) t'.
Proof.
  apply (counts_bounded count_up log_stub sqrt_stub three_simulations
           empty_board 3).
  - exact valid_empty_board.
  - right. reflexivity.
Defined.

(** ** The first simulation *)

Lemma filter_no_children (l : list Z) :
  filter (λ m, (∅ : gmap Z nat) !! m = None) l = l.
Proof.
  induction l as [|m l IH]; [done|].
  rewrite filter_cons, decide_True by apply lookup_empty. by rewrite IH.
Qed.

Lemma loop_steps_S : loop_steps = S 43.
Proof. reflexivity. Qed.

Section First.
Context (rnd : nat → nat) (math_log : Z → Qc) (math_sqrt : Qc → Qc).
Context (u : UCT) (g : ConnectFour).

(** The selection loop at the root of a fresh tree, on a board that is not
    terminal: one expansion. *)
Lemma selection_fresh_root steps l e g' :
  get_legal_moves g = Some l → is_terminal g = Some (false, None) →
  l ≠ [] → choice rnd l 0 = Some e →
  make_move g e (player u) = Some (true, g') →
  ∃ o, selection rnd math_log math_sqrt (S steps) u
                 (mkWalk (init_search g) 0%nat (player u) [])
       = Some (mkWalk
                 (mkSearch g'
                    [add_child (new_node None None) e 1;
                     new_node (Some 0%nat) (Some e)] 1 o)
                 1%nat (other (player u)) [e]).
Proof.
  intros Hl Hres Hne Hchoice Hmove.
  cbn [selection w_search w_node w_player w_moves init_search game tree
       drawn out].
  rewrite Hl. cbn [mbind option_bind].
  rewrite decide_True by (destruct l; [done|simpl; lia]).
  rewrite Hres. cbn [mbind option_bind lookup list_lookup].
  assert (is_fully_expanded (new_node None None) l = false) as ->.
  { apply bool_decide_eq_false. simpl. rewrite map_size_empty.
    destruct l; [done|]. simpl. lia. }
  change (children (new_node None None)) with (∅ : gmap Z nat).
  rewrite filter_no_children, Hchoice.
  simpl. rewrite Hmove. simpl. by eexists.
Qed.

Hypothesis Hvalid : valid_game g.
Hypothesis Hplayer : valid_player (player u).

(** On a board that is not terminal the first simulation expands the
    root: it draws one of the legal moves and gives the root one child,
    for that move. *)
Lemma first_simulation l :
  is_terminal g = Some (false, None) → get_legal_moves g = Some l →
  ∃ e s root child,
    choice rnd l 0 = Some e ∧ e ∈ l
    ∧ simulation rnd math_log math_sqrt u (init_search g) = Some s
    ∧ game s = g ∧ tree s = [root; child]
    ∧ children root = {[ e := 1%nat ]} ∧ parent root = None
    ∧ children child = ∅ ∧ parent child = Some 0%nat ∧ move child = Some e
    ∧ ni root = 1 ∧ ni child = 1.
Proof.
  intros Hres Hl. pose proof Hvalid as (Hwf & Hok & _).
  assert (l ≠ []) as Hne.
  { destruct (is_terminal_spec g Hwf Hok)
      as (res & l' & Hres' & Hl' & _ & _ & Hopen & _).
    simplify_eq. by apply Hopen. }
  destruct (choice_elem rnd l 0 Hne) as (e & Hchoice & He).
  destruct (make_move_legal g l e (player u) Hwf Hl He) as [_ [g' Hmove]].
  destruct (simulation_total rnd math_log math_sqrt u g Hvalid Hplayer
              (init_search g) [(g, player u)])
    as (s & pos & Hsim & Hg & _ & w & value & Hsel & Hbp);
    [done|apply tree_inv_init|].
  destruct (selection_fresh_root 43 l e g' Hl Hres Hne Hchoice Hmove)
    as [o Hexp].
  rewrite loop_steps_S, Hexp in Hsel. injection Hsel as <-.
  cbn [w_search w_node tree] in Hbp.
  assert (∀ n0 n1 : MCTSNode, parent n1 = Some 0%nat → parent n0 = None →
            backpropagate (is_max_player u) [n0; n1] 1 value
            = Some [visit (is_max_player u) 1 (Z.max (-1) (Z.min 1 value)) n0;
                    visit (is_max_player u) 0 (Z.max (-1) (Z.min 1 value)) n1])
    as Hcomp.
  { intros n0 n1 H1 H0. unfold backpropagate, visit. simpl. rewrite H1.
    simpl. by rewrite H0. }
  rewrite Hcomp in Hbp by done. injection Hbp as Hbp.
  eexists e, s, _, _. split; [done|]. split; [done|]. split; [done|].
  split; [done|]. split; [symmetry; exact Hbp|].
  cbn [visit children parent move ni add_child new_node].
  split; [by rewrite insert_empty|]. done.
Qed.
End First.

Lemma first_best_ext is_max (val val' : Z → Qc) l m :
  (∀ m', val m' = val' m') → first_best is_max val l m →
  first_best is_max val' l m.
Proof.
  intros Heq (i & Hi & Hall & Hbefore). exists i. split; [done|].
  split; intros j m'; rewrite <-!Heq; eauto.
Qed.

Lemma better_not_as_good is_max a b : better is_max a b → ¬ as_good is_max b a.
Proof. destruct is_max; simpl; intros Hlt Hle; by apply Qcle_not_lt in Hle. Qed.

(** C2, as the code has it. On a board that is not terminal, [select_move]
    with one simulation adds exactly one node to the tree, the child of the
    root for the move [e] that the expansion draws among the legal moves. The
    move it returns is the first legal move of best value, where [e] has the
    value of its child and every other legal move has 0: it is [e] when the
    value of the child is strictly better than 0 for the deciding player. *)
Theorem one_simulation_one_node (rnd : nat → nat) (math_log : Z → Qc)
    (math_sqrt : Qc → Qc) (u : UCT) (g : ConnectFour) (l : list Z) :
  valid_game g → valid_player (player u) → num_simulations u = 1 →
  is_terminal g = Some (false, None) → get_legal_moves g = Some l →
  ∃ e m s' root child,
    choice rnd l 0 = Some e ∧ e ∈ l
    ∧ select_move rnd math_log math_sqrt u (init_search g) = Some (m, s')
    ∧ tree s' = [root; child]
    ∧ children root = {[ e := 1%nat ]} ∧ parent root = None
    ∧ children child = ∅ ∧ parent child = Some 0%nat ∧ move child = Some e
    ∧ first_best (is_max_player u)
                 (λ m', if decide (m' = e) then get_value child else 0%Qc) l m
    ∧ (better (is_max_player u) (get_value child) 0%Qc → m = e).
Proof.
  intros Hvalid Hplayer Hone Hres Hl.
  destruct (first_simulation rnd math_log math_sqrt u g Hvalid Hplayer l Hres Hl)
    as (e & s & root & child & Hchoice & He & Hsim & Hg & Ht & Hcr & Hpr & Hcc
        & Hpc & Hmc & _).
  destruct (final_decision_spec u [root; child] root) with (s := s) (l := l)
    as (m & s' & Hfin & _ & Ht' & Hbest & _); [|done|done|by rewrite Hg|].
  { intros m cid. rewrite Hcr. intros [_ <-]%lookup_singleton_Some. by eexists. }
  assert (first_best (is_max_player u)
            (λ m', if decide (m' = e) then get_value child else 0%Qc) l m)
    as Hfirst.
  { apply (first_best_ext _ (move_value [root; child] root)).
    - intros m'. unfold move_value. rewrite Hcr. case_decide as Hm'.
      + subst m'. by rewrite lookup_singleton_eq.
      + by rewrite lookup_singleton_ne.
    - apply Hbest. intros ->. by apply elem_of_nil in He. }
  exists e, m, s', root, child. unfold select_move. rewrite Hone. simpl.
  rewrite Hsim. simpl. rewrite Hfin, Ht', Ht.
  do 10 (split; [done|]).
  intros Hbetter. destruct (decide (m = e)) as [|Hne]; [done|].
  destruct Hfirst as (i & _ & Hall & _).
  apply list_elem_of_lookup in He as [j Hj].
  specialize (Hall j e Hj). simpl in Hall.
  rewrite decide_False, decide_True in Hall by done.
  by destruct (better_not_as_good _ _ _ Hbetter).
Qed.

Lemma valid_two_left : valid_game two_left.
Proof. split; [|done]. split; [reflexivity|]. repeat constructor. Defined.

Lemma one_simulation_one_node_witness :
  ∃ e m s' root child,
    choice always_one [1; 2] 0 = Some e ∧ e ∈ [1; 2]
    ∧ select_move always_one log_stub sqrt_stub one_simulation
                  (init_search two_left) = Some (m, s')
    ∧ tree s' = [root; child]
    ∧ children root = {[ e := 1%nat ]} ∧ parent root = None
    ∧ children child = ∅ ∧ parent child = Some 0%nat ∧ move child = Some e
    ∧ first_best (is_max_player one_simulation)
                 (λ m', if decide (m' = e) then get_value child else 0%Qc)
                 [1; 2] m
    ∧ (better (is_max_player one_simulation) (get_value child) 0%Qc → m = e).
Proof.
  apply (one_simulation_one_node always_one log_stub sqrt_stub one_simulation
           two_left [1; 2]).
  - exact valid_two_left.
  - right. reflexivity.
  - reflexivity.
  - reflexivity.
  - reflexivity.
Defined.

(** C2 as stated fails: on [two_left], where columns 1 and 2 are legal, the
    one simulation expands move 2 and ends in a draw, so the child of move 2
    has value 0, the same as move 1 without a child, and the final decision
    returns move 1, the first of the two. *)
Lemma expanded_move_not_returned :
  (search ← simulation always_one log_stub sqrt_stub one_simulation
              (init_search two_left);
   root ← tree search !! 0%nat;
   Some (map_to_list (children root)))
  = Some [(2, 1%nat)]
  ∧ fst <$> select_move always_one log_stub sqrt_stub one_simulation
                        (init_search two_left)
    = Some 1.
Proof. split; vm_compute; reflexivity. Qed.

(** * Reporting *)

Section Reporting.
Context (rnd : nat → nat) (math_log : Z → Qc) (math_sqrt : Qc → Qc).

Lemma ucb_loop_quiet u t (node : MCTSNode) who moves acc :
  ucb_loop math_log math_sqrt (quiet u) t node who moves acc
  = ucb_loop math_log math_sqrt u t node who moves acc.
Proof.
  revert acc. induction moves as [|m rest IH]; intros [[bm bu] vals]; [done|].
  cbn [ucb_loop]. destruct (children node !! m) as [cid|]; [|done].
  cbn [mbind option_bind]. destruct (t !! cid) as [child|]; [|done].
  cbn [mbind option_bind]. change (exploration_constant (quiet u))
    with (exploration_constant u).
  destruct (get_ucb_value _ _ _ _ _ _) as [x|]; [|done].
  cbn [mbind option_bind]. apply IH.
Qed.

(** The loop records a score for every move it runs over. *)
Lemma ucb_loop_keys u t (node : MCTSNode) who moves bm bu vals bm' bu' vals' :
  ucb_loop math_log math_sqrt u t node who moves (bm, bu, vals)
  = Some (bm', bu', vals') →
  ∀ m, m ∈ moves ∨ is_Some (vals !! m) → is_Some (vals' !! m).
Proof.
  revert bm bu vals. induction moves as [|m rest IH]; intros bm bu vals.
  - intros [= <- <- <-] m [[]%elem_of_nil|?]. done.
  - cbn [ucb_loop]. destruct (children node !! m) as [cid|]; [|done].
    cbn [mbind option_bind]. destruct (t !! cid) as [child|]; [|done].
    cbn [mbind option_bind].
    destruct (get_ucb_value _ _ _ _ _ _) as [x|]; [|done].
    cbn [mbind option_bind].
    assert (∀ m0, m0 ∈ m :: rest ∨ is_Some (vals !! m0) →
                  m0 ∈ rest ∨ is_Some (<[m:=x]> vals !! m0)) as Hstep.
    { intros m0 [[->|?]%elem_of_cons|?]; [right|by left|right].
      - rewrite lookup_insert_eq. by eexists.
      - rewrite lookup_insert. by destruct (decide (m = m0)). }
    match goal with |- context [if ?c then _ else _] => destruct c end;
      intros Hloop m0 Hm0; eapply IH; eauto.
Qed.

(** The selection loop with and without reports. *)
Lemma selection_quiet steps u w :
  silence_walk <$> selection rnd math_log math_sqrt steps u w
  = selection rnd math_log math_sqrt steps (quiet u) (silence_walk w).
Proof.
  revert w. induction steps as [|steps IH]; intros [[g t k o] id p mv]; [done|].
  cbn [selection silence_walk silence w_search w_node w_player w_moves
       game tree drawn out].
  destruct (get_legal_moves g) as [l|]; [|done]. cbn [mbind option_bind].
  case_decide; [|done].
  destruct (is_terminal g) as [[[] v]|]; [done| |done]. cbn [mbind option_bind].
  destruct (t !! id) as [nd|]; [|done]. cbn [mbind option_bind].
  destruct (is_fully_expanded nd l).
  - rewrite ucb_loop_quiet.
    destruct (ucb_loop math_log math_sqrt u t nd p l _)
      as [[[bm bu] vals]|] eqn:Hloop; [|done].
    cbn [mbind option_bind].
    destruct (print_ucb_values_total l vals) as [lines Hlines].
    { intros m Hm. eapply ucb_loop_keys; [done|by left]. }
    change (verbose (quiet u)) with false.
    assert (∀ o', silence_walk <$>
              (move ← bm; cid ← children nd !! move;
               '(_, g') ← make_move g move p;
               selection rnd math_log math_sqrt steps u
                 (mkWalk (mkSearch g' t k o') cid (other p) (mv ++ [move])))
            = (move ← bm; cid ← children nd !! move;
               '(_, g') ← make_move g move p;
               selection rnd math_log math_sqrt steps (quiet u)
                 (mkWalk (mkSearch g' t k []) cid (other p) (mv ++ [move]))))
      as Hnext.
    { intros o'. destruct bm as [move|]; [|done]. cbn [mbind option_bind].
      destruct (children nd !! move) as [cid|]; [|done]. cbn [mbind option_bind].
      destruct (make_move g move p) as [[ok g']|]; [|done].
      cbn [mbind option_bind]. apply IH. }
    destruct (verbose u); [rewrite Hlines|]; cbn [mbind option_bind emit game
      tree drawn out]; apply Hnext.
  - destruct (choice rnd _ k) as [move|]; [|done]. cbn [mbind option_bind].
    simpl. destruct (make_move g move p) as [[ok g']|]; reflexivity.
Qed.

(** The rollout loop does not look at what was printed. *)
Lemma rollout_quiet steps s p moves :
  prod_map silence id <$> rollout rnd steps s p moves
  = rollout rnd steps (silence s) p moves.
Proof.
  revert s p moves. induction steps as [|steps IH]; intros [g t k o] p moves;
    [done|].
  cbn [rollout silence game tree drawn out].
  destruct (get_legal_moves g) as [l|]; [|done]. cbn [mbind option_bind].
  case_decide; [|done].
  destruct (is_terminal g) as [[[] v]|]; [done| |done]. cbn [mbind option_bind].
  destruct (choice rnd l k) as [move|]; [|done]. cbn [mbind option_bind].
  destruct (make_move g move p) as [[ok g']|]; [|done]. cbn [mbind option_bind].
  apply IH.
Qed.

(** One simulation with and without reports. *)
Lemma simulation_quiet u s :
  silence <$> simulation rnd math_log math_sqrt u s
  = simulation rnd math_log math_sqrt (quiet u) (silence s).
Proof.
  unfold simulation.
  change (player (quiet u)) with (player u).
  change (is_max_player (quiet u)) with (is_max_player u).
  change (verbose (quiet u)) with false.
  change (mkWalk (silence s) 0%nat (player u) [])
    with (silence_walk (mkWalk s 0%nat (player u) [])).
  rewrite <-selection_quiet.
  destruct (selection rnd math_log math_sqrt loop_steps u _) as [w|]; [|done].
  cbn [fmap option_fmap option_map mbind option_bind silence_walk w_search
       w_node w_player w_moves].
  rewrite <-rollout_quiet.
  destruct (rollout rnd loop_steps (w_search w) (w_player w) [])
    as [[s1 rollout_moves]|]; [|done].
  cbn [fmap option_fmap option_map mbind option_bind prod_map fst snd id].
  cbn [silence emit game tree drawn out].
  destruct (is_terminal (game s1)) as [[term v]|]; [|done].
  cbn [mbind option_bind].
  destruct (undo_all (game s1) (reverse rollout_moves)) as [g1|]; [|done].
  cbn [mbind option_bind].
  destruct (undo_all g1 (reverse (w_moves w))) as [g2|]; [|done].
  cbn [mbind option_bind].
  destruct (backpropagate (is_max_player u) (tree s1) (w_node w) (default 0 v))
    as [t'|] eqn:Hbp; [|done].
  cbn [mbind option_bind].
  destruct (print_updated_total _ _ _ _ _ Hbp) as [lines Hlines].
  destruct (verbose u); [rewrite Hlines|]; done.
Qed.

Lemma simulations_quiet n u s :
  silence <$> simulations rnd math_log math_sqrt n u s
  = simulations rnd math_log math_sqrt n (quiet u) (silence s).
Proof.
  revert s. induction n as [|n IH]; intros s; [done|].
  cbn [simulations]. rewrite <-simulation_quiet.
  destruct (simulation rnd math_log math_sqrt u s) as [s1|]; [|done].
  cbn [fmap option_fmap option_map mbind option_bind]. apply IH.
Qed.

Lemma decision_loop_quiet u t root moves acc :
  decision_loop (quiet u) t root moves acc = decision_loop u t root moves acc.
Proof.
  revert acc. induction moves as [|m rest IH]; intros [[bm bv] mv]; [done|].
  cbn [decision_loop].
  destruct (match children root !! m with
            | Some cid => child ← t !! cid; Some (get_value child)
            | None => Some 0%Qc
            end) as [value|]; [|done].
  cbn [mbind option_bind].
  change (is_max_player (quiet u)) with (is_max_player u). apply IH.
Qed.

(** The final decision with and without reports. *)
Lemma final_decision_quiet u s :
  prod_map id silence <$> final_decision u s
  = final_decision (quiet u) (silence s).
Proof.
  unfold final_decision. destruct s as [g t k o].
  cbn [silence game tree drawn out].
  change (is_max_player (quiet u)) with (is_max_player u).
  destruct (get_legal_moves g) as [l|]; [|done]. cbn [mbind option_bind].
  destruct (t !! 0%nat) as [root|]; [|done]. cbn [mbind option_bind].
  rewrite decision_loop_quiet.
  destruct (decision_loop u t root l _) as [[[bm bv] mv]|]; [|done].
  done.
Qed.

Lemma select_move_quiet u s :
  prod_map id silence <$> select_move rnd math_log math_sqrt u s
  = select_move rnd math_log math_sqrt (quiet u) (silence s).
Proof.
  unfold select_move.
  change (num_simulations (quiet u)) with (num_simulations u).
  rewrite <-simulations_quiet.
  destruct (simulations rnd math_log math_sqrt _ u s) as [s1|]; [|done].
  cbn [fmap option_fmap option_map mbind option_bind].
  apply final_decision_quiet.
Qed.
End Reporting.

(** C9. With the same board, player, simulation count, exploration constant
    and draws, [select_move] returns the same move whatever the reporting
    flags are; it also leaves the same board and the same tree, and has
    taken the same number of draws. *)
Theorem reporting_does_not_change_move (rnd : nat → nat) (math_log : Z → Qc)
    (math_sqrt : Qc → Qc) (who : string) (n : Z) (c : Qc)
    (verbose1 brief1 suppress1 verbose2 brief2 suppress2 : bool) (s : search) :
  let u1 := mkUCT who n verbose1 brief1 suppress1 c in
  let u2 := mkUCT who n verbose2 brief2 suppress2 c in
  fst <$> select_move rnd math_log math_sqrt u1 s
  = fst <$> select_move rnd math_log math_sqrt u2 s
  ∧ prod_map id silence <$> select_move rnd math_log math_sqrt u1 s
    = prod_map id silence <$> select_move rnd math_log math_sqrt u2 s.
Proof.
  intros u1 u2.
  assert (prod_map id silence <$> select_move rnd math_log math_sqrt u1 s
          = prod_map id silence <$> select_move rnd math_log math_sqrt u2 s)
    as Heq by (by rewrite !select_move_quiet).
  split; [|done].
  destruct (select_move rnd math_log math_sqrt u1 s) as [[m1 s1]|],
           (select_move rnd math_log math_sqrt u2 s) as [[m2 s2]|];
    simpl in *; congruence.
Qed.

(** * More about the board *)

(** ** [make_move]: legality, gravity *)

(** The loop of [make_move] stops at the first empty cell of the rows it
    runs over. *)
Lemma drop_piece_first b col_idx who rows b' :
  drop_piece b col_idx who rows = Some (true, b') →
  ∃ pre row post,
    rows = pre ++ row :: post
    ∧ Forall (λ r, cell (board b) r col_idx ≠ Some "O"%string) pre
    ∧ cell (board b) row col_idx = Some "O"%string
    ∧ set_cell (board b) row col_idx who = Some (board b')
    ∧ last_move b' = Some (row, col_idx)
    ∧ move_stack b' = move_stack b ++ [(row, col_idx)].
Proof.
  induction rows as [|row rest IH]; simpl; [done|].
  destruct (cell (board b) row col_idx) as [c|] eqn:Hc; simpl; [|done].
  case_decide as Hd.
  - subst c. destruct (set_cell (board b) row col_idx who) eqn:Hs; simpl; [|done].
    intros [= <-]. by exists [], row, rest.
  - intros H. destruct (IH H) as (pre & r & post & -> & Hpre & ?).
    exists (row :: pre), r, post. split; [done|]. split; [|done].
    constructor; [congruence|done].
Qed.

Lemma drop_piece_full b col_idx who rows :
  Forall (λ r, ∃ x, cell (board b) r col_idx = Some x ∧ x ≠ "O"%string) rows →
  drop_piece b col_idx who rows = Some (false, b).
Proof.
  induction 1 as [|row rest (x & Hx & Hne) _ IH]; simpl; [done|].
  rewrite Hx. simpl. by rewrite decide_False.
Qed.

Lemma range_split n pre row post r :
  Py.range n = pre ++ row :: post → 0 ≤ r < row → r ∈ pre.
Proof.
  intros Hsplit Hr.
  assert (0 ≤ row < Z.of_nat n) as Hrow.
  { apply range_bounds. rewrite Hsplit. apply elem_of_app. right. left. }
  assert (r ∈ Py.range n) as Hin by (apply range_bounds; lia).
  pose proof (range_sorted n) as Hsort. rewrite Hsplit in Hin, Hsort.
  apply StronglySorted_app in Hsort as (_ & _ & Hpost).
  apply StronglySorted_inv in Hpost as [_ Hall]. rewrite Forall_forall in Hall.
  apply elem_of_app in Hin as [?|[->|Hin]%elem_of_cons]; [done|lia|].
  specialize (Hall _ Hin). lia.
Qed.

(** X1. On a board where pieces rest on pieces, [make_move] returns [True]
    exactly for a legal column; on a full column it returns [False] and
    leaves the board, the marker and the stack as they were. *)
Theorem make_move_iff_legal (b : ConnectFour) (column : Z) (who : string)
    (l : list Z) :
  wf_grid (board b) → gravity (board b) → 1 ≤ column ≤ Z.of_nat COLS →
  get_legal_moves b = Some l →
  ∃ ok b', make_move b column who = Some (ok, b')
           ∧ (ok = true ↔ column ∈ l)
           ∧ (ok = false → b' = b).
Proof.
  intros Hwf Hgrav Hcol Hl.
  destruct (decide (column ∈ l)) as [Hin|Hout].
  - destruct (make_move_legal b l column who Hwf Hl Hin) as [_ [b' Hm]].
    exists true, b'. by rewrite Hm.
  - exists false, b. split; [|done].
    apply drop_piece_full, Forall_forall. intros r Hr. apply range_bounds in Hr.
    assert (on_board r (column - 1)) as Hon by (unfold on_board; lia).
    destruct (cell_on_board _ _ _ Hwf Hon) as [x Hx]. exists x. split; [done|].
    intros ->. apply Hout.
    destruct (get_legal_moves_spec b Hwf) as (l' & Hl' & Hmem & _). simplify_eq.
    apply Hmem. split; [done|].
    apply (Hgrav r); [done|unfold on_board, ROWS, COLS in *; lia|
                      unfold ROWS in *; lia|done].
Qed.

Lemma wf_two_left : wf_grid (board two_left).
Proof. split; [reflexivity|]. repeat constructor. Defined.

Lemma gravity_two_left : gravity (board two_left).
Proof.
  apply gravity_by_cells. apply (bool_decide_unpack _). vm_compute. exact I.
Defined.

Lemma make_move_iff_legal_witness :
  ∃ ok b', make_move two_left 3 "Y" = Some (ok, b')
           ∧ (ok = true ↔ 3 ∈ [1; 2])
           ∧ (ok = false → b' = two_left).
Proof.
  apply (make_move_iff_legal two_left 3 "Y" [1; 2]).
  - exact wf_two_left.
  - exact gravity_two_left.
  - unfold COLS. lia.
  - reflexivity.
Defined.

(** X2. A successful [make_move] of a player's piece changes one cell: the
    lowest empty cell of the column, which gets the piece; every cell below
    it is taken, and pieces still rest on pieces afterwards. *)
Theorem make_move_lowest_empty (b : ConnectFour) (column : Z) (who : string)
    (b' : ConnectFour) :
  wf_grid (board b) → gravity (board b) → 1 ≤ column ≤ Z.of_nat COLS →
  who ≠ "O"%string → make_move b column who = Some (true, b') →
  ∃ row, last_move b' = Some (row, column - 1)
    ∧ 0 ≤ row < Z.of_nat ROWS
    ∧ cell (board b) row (column - 1) = Some "O"%string
    ∧ (∀ r, 0 ≤ r < row → cell (board b) r (column - 1) ≠ Some "O"%string)
    ∧ (∀ r c, on_board r c →
         cell (board b') r c
         = if decide (r = row ∧ c = column - 1) then Some who
           else cell (board b) r c)
    ∧ gravity (board b').
Proof.
  intros Hwf Hgrav Hcol Hwho Hm.
  destruct (drop_piece_first _ _ _ _ _ Hm)
    as (pre & row & post & Hsplit & Hpre & Hc & Hset & Hlast & _).
  assert (0 ≤ row < Z.of_nat ROWS) as Hrow.
  { apply range_bounds. rewrite Hsplit. apply elem_of_app. right. left. }
  assert (on_board row (column - 1)) as Hon by (unfold on_board; lia).
  assert (∀ r c, on_board r c →
            cell (board b') r c
            = if decide (r = row ∧ c = column - 1) then Some who
              else cell (board b) r c) as Hcells.
  { intros r c Hrc. by apply cell_set_cell. }
  assert (∀ r, 0 ≤ r < row → cell (board b) r (column - 1) ≠ Some "O"%string)
    as Hbelow.
  { intros r Hr. rewrite Forall_forall in Hpre. apply Hpre.
    by eapply range_split. }
  exists row. do 5 (split; [done|]).
  intros r r' c Hrc Hrc' Hle. rewrite (Hcells _ _ Hrc), (Hcells _ _ Hrc').
  destruct (decide (r = row ∧ c = column - 1)) as [[-> ->]|Hne].
  { intros ?. simplify_eq. }
  intros Hempty.
  destruct (decide (r' = row ∧ c = column - 1)) as [[-> ->]|Hne'].
  - destruct (Hbelow r); [|done]. destruct Hrc. lia.
  - by apply (Hgrav r).
Qed.

Lemma wf_after_two_moves : wf_grid (board after_two_moves).
Proof. split; [reflexivity|]. repeat constructor. Defined.

Lemma gravity_after_two_moves : gravity (board after_two_moves).
Proof.
  apply gravity_by_cells. apply (bool_decide_unpack _). vm_compute. exact I.
Defined.

Lemma make_move_lowest_empty_witness :
  ∃ row, last_move after_three_moves = Some (row, 3 - 1)
    ∧ 0 ≤ row < Z.of_nat ROWS
    ∧ cell (board after_two_moves) row (3 - 1) = Some "O"%string
    ∧ (∀ r, 0 ≤ r < row →
         cell (board after_two_moves) r (3 - 1) ≠ Some "O"%string)
    ∧ (∀ r c, on_board r c →
         cell (board after_three_moves) r c
         = if decide (r = row ∧ c = 3 - 1) then Some "Y"%string
           else cell (board after_two_moves) r c)
    ∧ gravity (board after_three_moves).
Proof.
  apply (make_move_lowest_empty after_two_moves 3 "Y" after_three_moves).
  - exact wf_after_two_moves.
  - exact gravity_after_two_moves.
  - unfold COLS. lia.
  - done.
  - reflexivity.
Defined.

(** ** The fallback of [undo_move] *)

Lemma remove_topmost_first b col_idx rows pre row post x g' :
  rows = pre ++ row :: post →
  Forall (λ r, cell (board b) r col_idx = Some "O"%string) pre →
  cell (board b) row col_idx = Some x → x ≠ "O"%string →
  set_cell (board b) row col_idx "O" = Some g' →
  remove_topmost b col_idx rows
  = Some (let s' := if decide (stack_top (move_stack b) = Some (row, col_idx))
                    then removelast (move_stack b) else move_stack b in
          mkConnectFour g' (stack_top s') s').
Proof.
  intros -> Hpre Hx Hne Hset.
  induction Hpre as [|r pre Hr _ IH]; cbn [app remove_topmost].
  - rewrite Hx. cbn [mbind option_bind]. rewrite decide_True by done.
    by rewrite Hset.
  - rewrite Hr. cbn [mbind option_bind].
    rewrite decide_False by (intros H; by apply H). done.
Qed.

Lemma remove_topmost_empty b col_idx rows :
  Forall (λ r, cell (board b) r col_idx = Some "O"%string) rows →
  remove_topmost b col_idx rows = Some b.
Proof.
  induction 1 as [|r rows Hr _ IH]; cbn [remove_topmost]; [done|].
  rewrite Hr. cbn [mbind option_bind].
  rewrite decide_False by (intros H; by apply H). done.
Qed.

Lemma undo_move_fallback_path b column :
  (∀ rc, stack_top (move_stack b) = Some rc → rc.2 ≠ column - 1) →
  undo_move b column
  = remove_topmost b (column - 1) (reverse (Py.range ROWS)).
Proof.
  intros Htop. unfold undo_move.
  destruct (stack_top (move_stack b)) as [[r0 c0]|]; [|done].
  rewrite decide_False; [done|]. by apply (Htop (r0, c0)).
Qed.

(** X3. The fallback of [undo_move], taken when the move stack is empty or
    its top is in another column, takes the topmost piece of the column off:
    after a successful [make_move] on a board where pieces rest on pieces it
    gives the grid back as it was before the move, whatever the stack holds,
    leaves the stack as it is and sets the marker to the top of the stack. *)
Theorem undo_move_fallback (b : ConnectFour) (column : Z) (who : string)
    (b1 : ConnectFour) (stack : list (Z * Z)) :
  wf_grid (board b) → gravity (board b) → 1 ≤ column ≤ Z.of_nat COLS →
  who ≠ "O"%string → make_move b column who = Some (true, b1) →
  (∀ rc, stack_top stack = Some rc → rc.2 ≠ column - 1) →
  undo_move (mkConnectFour (board b1) (last_move b1) stack) column
  = Some (mkConnectFour (board b) (stack_top stack) stack).
Proof.
  intros Hwf Hgrav Hcol Hwho Hm Htop.
  destruct (drop_piece_first _ _ _ _ _ Hm)
    as (pre & row & post & Hsplit & _ & Hc & Hset & _).
  assert (0 ≤ row < Z.of_nat ROWS) as Hrow.
  { apply range_bounds. rewrite Hsplit. apply elem_of_app. right. left. }
  assert (on_board row (column - 1)) as Hon by (unfold on_board; lia).
  rewrite undo_move_fallback_path by done.
  rewrite (remove_topmost_first _ (column - 1) _ (reverse post) row
             (reverse pre) who (board b)); simpl.
  - rewrite decide_False; [done|]. intros Heq. by apply (Htop _ Heq).
  - rewrite Hsplit, reverse_app, reverse_cons. by rewrite <-app_assoc.
  - apply Forall_forall. intros r Hr. rewrite elem_of_reverse in Hr.
    assert (row < r < Z.of_nat ROWS) as Hr'.
    { pose proof (range_sorted ROWS) as Hsort. rewrite Hsplit in Hsort.
      apply StronglySorted_app in Hsort as (_ & _ & Hpost).
      apply StronglySorted_inv in Hpost as [_ Hall].
      rewrite Forall_forall in Hall. specialize (Hall _ Hr).
      assert (r ∈ Py.range ROWS) as Hin.
      { rewrite Hsplit. apply elem_of_app. right. by right. }
      apply range_bounds in Hin. lia. }
    assert (on_board r (column - 1)) as Hon' by (unfold on_board; lia).
    rewrite (cell_set_cell _ _ _ _ _ _ _ Hwf Hon Hon' Hset).
    rewrite decide_False by lia. apply (Hgrav row); [done|done|lia|done].
  - rewrite (cell_set_cell _ _ _ _ _ _ _ Hwf Hon Hon Hset).
    by rewrite decide_True.
  - done.
  - apply (set_cell_restore _ _ _ _ _ _ Hc Hset).
Qed.

Lemma undo_move_fallback_witness :
  undo_move (mkConnectFour (board after_three_moves)
                           (last_move after_three_moves) [(0, 3)]) 3
  = Some (mkConnectFour (board after_two_moves) (stack_top [(0, 3)]) [(0, 3)]).
Proof.
  apply (undo_move_fallback after_two_moves 3 "Y" after_three_moves [(0, 3)]).
  - exact wf_after_two_moves.
  - exact gravity_after_two_moves.
  - unfold COLS. lia.
  - done.
  - reflexivity.
  - intros rc [= <-]. simpl. lia.
Defined.

(** X4. On an empty column the fallback of [undo_move] finds no piece: the
    call returns without an exception and changes nothing, neither grid nor
    marker nor stack. *)
Theorem undo_move_empty_column (b : ConnectFour) (column : Z) :
  wf_grid (board b) → 1 ≤ column ≤ Z.of_nat COLS →
  (∀ r, 0 ≤ r < Z.of_nat ROWS → cell (board b) r (column - 1) = Some "O"%string) →
  (∀ rc, stack_top (move_stack b) = Some rc → rc.2 ≠ column - 1) →
  undo_move b column = Some b.
Proof.
  intros Hwf Hcol Hempty Htop.
  rewrite undo_move_fallback_path by done.
  apply remove_topmost_empty, Forall_forall.
  intros r Hr. rewrite elem_of_reverse in Hr. apply Hempty. by apply range_bounds.
Qed.

Lemma undo_move_empty_column_witness :
  undo_move after_two_moves 1 = Some after_two_moves.
Proof.
  apply (undo_move_empty_column after_two_moves 1).
  - exact wf_after_two_moves.
  - unfold COLS. lia.
  - intros r Hr. unfold ROWS in Hr.
    assert (r ∈ Py.range 6) as Hin by (apply range_bounds; lia).
    vm_compute in Hin. set_unfold.
    destruct Hin as [->|[->|[->|[->|[->|[->|[]]]]]]]; reflexivity.
  - intros rc [= <-]. simpl. lia.
Defined.

(** ** [is_terminal] on a board without a marker *)

Lemma scan_for_win_winner b cells w :
  wf_grid (board b) → (∀ r c, (r, c) ∈ cells → on_board r c) →
  scan_for_win b cells = Some (Some w) →
  ∃ r c, (r, c) ∈ cells ∧ cell (board b) r c = Some w ∧ w ≠ "O"%string
         ∧ wins_at (board b) r c.
Proof.
  intros Hwf. induction cells as [|[r c] rest IH]; intros Hon; cbn [scan_for_win];
    [done|].
  assert (∀ r' c', (r', c') ∈ rest → on_board r' c') as Hon'.
  { intros. apply Hon. by right. }
  destruct (cell_on_board (board b) r c Hwf) as [x Hx]; [apply Hon; left|].
  rewrite Hx. cbn [mbind option_bind]. case_decide as Hpiece.
  - destruct (check_win_spec b r c x Hwf Hx) as (res & -> & Hres & Hwin).
    cbn [mbind option_bind]. destruct Hres as [->| ->].
    + intros [= <-]. exists r, c. split; [left|]. split; [done|].
      split; [done|]. by apply Hwin.
    + intros H. destruct (IH Hon' H) as (r' & c' & ? & ?).
      exists r', c'. split; [by right|done].
  - intros H. destruct (IH Hon' H) as (r' & c' & ? & ?).
    exists r', c'. split; [by right|done].
Qed.

Lemma wins_at_line_of g row col who :
  wf_grid g → on_board row col → cell g row col = Some who →
  who ≠ "O"%string → wins_at g row col → line_of g who.
Proof.
  intros Hwf Hon Hc Hpiece Hwin.
  apply (wins_at_line_through _ _ _ who) in Hwin; [|done..].
  destruct Hwin as (who' & dx & dy & k0 & _ & Hax & Hk0 & Hline).
  assert (who' = who) as ->.
  { destruct (Hline k0) as [_ Hc']; [lia|].
    rewrite Z.sub_diag, !Z.mul_0_l, !Z.add_0_r in Hc'. congruence. }
  exists (row - k0 * dx), (col - k0 * dy), dx, dy. split; [done|].
  intros k Hk.
  replace (row - k0 * dx + k * dx) with (row + (k - k0) * dx) by lia.
  replace (col - k0 * dy + k * dy) with (col + (k - k0) * dy) by lia.
  by apply Hline.
Qed.

(** X5. Without a last-move marker [is_terminal] scans the whole board: it
    reports a win exactly when some line of four of a player's mark exists;
    the value is [-1] only with a line of ["R"], [1] only with a line of
    another mark; without a line it reports a draw when no move is legal and
    a running game otherwise. *)
Theorem is_terminal_without_marker (b : ConnectFour) :
  wf_grid (board b) → last_move b = None →
  ∃ res l, is_terminal b = Some res ∧ get_legal_moves b = Some l
    ∧ (reports_win res ↔ line_of_four (board b))
    ∧ (res = (true, Some (-1)) → line_of (board b) "R")
    ∧ (res = (true, Some 1) →
       ∃ who, who ≠ "O"%string ∧ who ≠ "R"%string ∧ line_of (board b) who)
    ∧ (res = (true, Some 0) ↔ ¬ line_of_four (board b) ∧ l = [])
    ∧ (res = (false, None) ↔ ¬ line_of_four (board b) ∧ l ≠ []).
Proof.
  intros Hwf Hlast.
  assert (marker_ok b) as Hok by (unfold marker_ok; by rewrite Hlast).
  assert (marker_on_piece b) as Hmark by (unfold marker_on_piece; by rewrite Hlast).
  destruct (is_terminal_spec b Hwf Hok) as (res & l & Hres & Hl & Hwin & Hdraw & Hrun & _).
  pose proof (win_seen_line_seen b Hwf Hmark) as Hseen.
  unfold line_seen in Hseen. rewrite Hlast in Hseen.
  exists res, l. split; [done|]. split; [done|].
  rewrite <-Hseen. split; [done|].
  split; [|split; [|done]].
  - intros ->. revert Hres. unfold is_terminal, _check_board_for_win.
    rewrite Hlast.
    destruct (scan_for_win b all_cells) as [[w|]|] eqn:Hscan;
      cbn [mbind option_bind]; [| |done].
    + case_decide as Hw; [|done]. subst w. intros _.
      destruct (scan_for_win_winner b all_cells "R" Hwf)
        as (r & c & Hin & Hc & Hne & Hw);
        [intros; by apply all_cells_on_board|done|].
      apply all_cells_on_board in Hin. by apply (wins_at_line_of _ r c).
    + destruct (get_legal_moves b); cbn [mbind option_bind]; [|done].
      by case_decide.
  - intros ->. revert Hres. unfold is_terminal, _check_board_for_win.
    rewrite Hlast.
    destruct (scan_for_win b all_cells) as [[w|]|] eqn:Hscan;
      cbn [mbind option_bind]; [| |done].
    + case_decide as Hw; [done|]. intros _.
      destruct (scan_for_win_winner b all_cells w Hwf)
        as (r & c & Hin & Hc & Hne & Hwins);
        [intros; by apply all_cells_on_board|done|].
      apply all_cells_on_board in Hin. exists w. split; [done|]. split; [done|].
      by apply (wins_at_line_of _ r c).
    + destruct (get_legal_moves b); cbn [mbind option_bind]; [|done].
      by case_decide.
Qed.

Lemma is_terminal_without_marker_witness :
  ∃ res l, is_terminal two_left = Some res ∧ get_legal_moves two_left = Some l
    ∧ (reports_win res ↔ line_of_four (board two_left))
    ∧ (res = (true, Some (-1)) → line_of (board two_left) "R")
    ∧ (res = (true, Some 1) →
       ∃ who, who ≠ "O"%string ∧ who ≠ "R"%string ∧ line_of (board two_left) who)
    ∧ (res = (true, Some 0) ↔ ¬ line_of_four (board two_left) ∧ l = [])
    ∧ (res = (false, None) ↔ ¬ line_of_four (board two_left) ∧ l ≠ []).
Proof.
  apply (is_terminal_without_marker two_left).
  - exact wf_two_left.
  - reflexivity.
Defined.

(** * More about the tree *)



(** ** The path of [backpropagate] *)

(** The path holds the parent of each of its nodes. *)
Lemma path_up_closed steps t cur path :
  path_up steps t cur = Some path →
  ∀ k nd p, k ∈ path → t !! k = Some nd → parent nd = Some p → p ∈ path.
Proof.
  revert cur path.
  induction steps as [|steps IH]; intros [id|] path; simpl; try done;
    try (intros [= <-] k nd p Hin; by apply elem_of_nil in Hin).
  destruct (t !! id) as [nd0|] eqn:Hnd; simpl; [|done].
  destruct (path_up steps t (parent nd0)) as [rest|] eqn:Hrest; simpl; [|done].
  intros [= <-] k nd p [->|Hin]%elem_of_cons Hk Hp.
  - simplify_eq. rewrite Hp in Hrest. right. by eapply path_up_head.
  - right. by eapply IH.
Qed.

(** What the loop of [backpropagate] does to the visit counts: one more for
    every node of the path, and no change elsewhere. *)
Lemma backprop_loop_ni steps t cur depth value is_max t' path :
  parents_below t →
  backprop_loop steps t cur depth value is_max = Some t' →
  path_up steps t cur = Some path →
  ∀ k nd, t !! k = Some nd →
    ∃ nd', t' !! k = Some nd' ∧ parent nd' = parent nd
           ∧ ni nd' = ni nd + (if decide (k ∈ path) then 1 else 0).
Proof.
  revert t cur depth path.
  induction steps as [|steps IH]; intros t [id|] depth path Hpb;
    cbn [backprop_loop path_up]; try done;
    try (intros [= <-] [= <-] k nd Hk; exists nd; split; [done|]; split; [done|];
         rewrite decide_False by apply not_elem_of_nil; lia).
  destruct (t !! id) as [nd0|] eqn:Hnd; cbn [mbind option_bind]; [|done].
  fold (visit is_max depth value nd0). intros Hloop.
  destruct (path_up steps t (parent nd0)) as [rest|] eqn:Hrest;
    cbn [mbind option_bind]; [|done].
  intros [= <-] k nd Hk.
  assert (links <$> <[id:=visit is_max depth value nd0]> t = links <$> t) as Hl
    by by apply (links_insert t id nd0).
  assert (id ∉ rest) as Hfresh.
  { intros Hin. destruct (parent nd0) as [p|] eqn:Hp.
    - pose proof (path_up_below _ _ _ _ Hpb Hrest id p eq_refl Hin).
      pose proof (Hpb _ _ _ Hnd Hp). lia.
    - apply path_up_none in Hrest as ->. by apply elem_of_nil in Hin. }
  rewrite <-(path_up_links _ _ _ _ Hl) in Hrest.
  pose proof (IH _ _ _ _ (parents_below_links _ _ (eq_sym Hl) Hpb) Hloop Hrest)
    as Hni.
  destruct (decide (k = id)) as [->|Hne].
  - assert (nd = nd0) as -> by congruence.
    destruct (Hni id (visit is_max depth value nd0)) as (nd' & Hk' & Hp' & Hn').
    { apply list_lookup_insert_eq. by eapply lookup_lt_Some. }
    exists nd'. split; [done|]. split; [done|]. rewrite Hn'.
    rewrite decide_False by done. rewrite decide_True by left. simpl. lia.
  - destruct (Hni k nd) as (nd' & Hk' & Hp' & Hn').
    { by rewrite list_lookup_insert_ne. }
    exists nd'. split; [done|]. split; [done|]. rewrite Hn'.
    destruct (decide (k ∈ rest)) as [Hin|Hout].
    + rewrite decide_True; [done|by right].
    + rewrite decide_False; [done|].
      intros [?|?]%elem_of_cons; done.
Qed.

(** [backpropagate] on a tree whose leaf may be new leaves every node but
    the root visited, and no node visited more often than its parent. *)
Lemma backpropagate_visits is_max t leaf value t' :
  parents_below t → visits_pending t leaf →
  backpropagate is_max t leaf value = Some t' → visits_ok t'.
Proof.
  intros Hpb Hpend Hbp. unfold backpropagate in Hbp.
  destruct (backprop_loop_path _ _ _ _ _ _ _ Hbp) as (path & Hpath & _).
  pose proof (backprop_loop_ni _ _ _ _ _ _ _ _ Hpb Hbp Hpath) as Hni.
  pose proof (backprop_loop_links _ _ _ _ _ _ _ Hbp) as Hl.
  pose proof (path_up_head _ _ _ _ Hpath) as Hleaf.
  intros k nd' Hk'.
  destruct (links_lookup _ _ _ _ Hl Hk') as (nd & Hk & _).
  destruct (Hni k nd Hk) as (nd'' & Hk'' & Hpar & Hn). simplify_eq.
  destruct (Hpend k nd Hk) as (H0 & H1 & Hle).
  split; [case_decide; lia|]. split.
  - intros Hroot. destruct (decide (k = leaf)) as [->|Hne].
    + rewrite Hn, decide_True by done. lia.
    + specialize (H1 Hroot Hne). rewrite Hn. case_decide; lia.
  - intros p pn' Hp Hpn'. rewrite Hpar in Hp.
    destruct (links_lookup _ _ _ _ Hl Hpn') as (pn & Hpn & _).
    destruct (Hni p pn Hpn) as (pn'' & Hpn'' & _ & Hn'). simplify_eq.
    specialize (Hle p pn Hp Hpn). rewrite Hn, Hn'.
    destruct (decide (k ∈ path)) as [Hin|Hout].
    + rewrite decide_True by (by eapply path_up_closed). lia.
    + case_decide; lia.
Qed.

(** ** The expansion step *)

Lemma expand_lookup t id nd m mv k nd1 :
  t !! id = Some nd →
  (<[id:=add_child nd m (length t)]> t ++ [new_node (Some id) mv]) !! k
  = Some nd1 →
  (∃ nd0, t !! k = Some nd0 ∧ (k < length t)%nat ∧ ni nd1 = ni nd0
          ∧ parent nd1 = parent nd0)
  ∨ (k = length t ∧ nd1 = new_node (Some id) mv).
Proof.
  intros Hnd Hk. apply lookup_app_Some in Hk as [Hk|[Hlen Hk]].
  - left. pose proof (lookup_lt_Some _ _ _ Hk) as Hlt.
    rewrite length_insert in Hlt.
    destruct (decide (k = id)) as [->|Hne].
    + rewrite list_lookup_insert_eq in Hk by done. simplify_eq.
      by exists nd.
    + rewrite list_lookup_insert_ne in Hk by done. by exists nd1.
  - right. rewrite length_insert in Hlen, Hk.
    destruct (k - length t)%nat as [|j] eqn:Hj; simplify_eq/=.
    split; [lia|done].
Qed.

Lemma expand_visits t id nd m mv :
  parents_below t → visits_ok t → t !! id = Some nd →
  visits_pending (<[id:=add_child nd m (length t)]> t
                  ++ [new_node (Some id) mv]) (length t).
Proof.
  intros Hpb Hok Hnd k nd1 Hk.
  destruct (expand_lookup _ _ _ _ _ _ _ Hnd Hk)
    as [(nd0 & Hk0 & Hlt & Hn & Hp)|[-> ->]].
  - destruct (Hok k nd0 Hk0) as (H0 & H1 & Hle). rewrite Hn, Hp.
    split; [done|]. split; [auto|].
    intros p pn Hp0 Hpn. pose proof (Hpb _ _ _ Hk0 Hp0).
    destruct (expand_lookup _ _ _ _ _ _ _ Hnd Hpn)
      as [(pn0 & Hpn0 & _ & Hn' & _)|[-> ->]]; [|lia].
    rewrite Hn'. by eapply Hle.
  - simpl. split; [done|]. split; [done|].
    intros p pn [= <-] Hpn.
    destruct (expand_lookup _ _ _ _ _ _ _ Hnd Hpn)
      as [(pn0 & Hpn0 & _ & Hn' & _)|[Hid _]].
    + rewrite Hn'. by destruct (Hok _ pn0 Hpn0).
    + apply lookup_lt_Some in Hnd. lia.
Qed.

Lemma expand_single_root t id nd m mv :
  single_root t → t !! id = Some nd →
  single_root (<[id:=add_child nd m (length t)]> t ++ [new_node (Some id) mv]).
Proof.
  intros Hsr Hnd k nd1 Hk Hp.
  destruct (expand_lookup _ _ _ _ _ _ _ Hnd Hk)
    as [(nd0 & Hk0 & _ & _ & Hp0)|[-> ->]]; [|done].
  rewrite Hp0 in Hp. by eapply Hsr.
Qed.

Section Searched.
Context (rnd : nat → nat) (math_log : Z → Qc) (math_sqrt : Qc → Qc).
Context (u : UCT) (g0 : ConnectFour).

(** The selection loop leaves the tree as it is or adds one node to it, a
    child of a node of the tree, at which it ends. *)
Lemma selection_shape steps w w' :
  selection rnd math_log math_sqrt steps u w = Some w' →
  tree (w_search w') = tree (w_search w)
  ∨ ∃ id nd m,
      tree (w_search w) !! id = Some nd
      ∧ tree (w_search w')
        = <[id:=add_child nd m (length (tree (w_search w)))]> (tree (w_search w))
          ++ [new_node (Some id) (Some m)]
      ∧ w_node w' = length (tree (w_search w)).
Proof.
  revert w. induction steps as [|steps IH]; intros [[g t k o] id p mv]; [done|].
  cbn [selection w_search w_node w_player w_moves game tree drawn out].
  destruct (get_legal_moves g) as [l|]; [|done]. cbn [mbind option_bind].
  case_decide; [|intros [= <-]; by left].
  destruct (is_terminal g) as [[[] v]|]; [intros [= <-]; by left| |done].
  cbn [mbind option_bind].
  destruct (t !! id) as [nd|] eqn:Hnd; [|done]. cbn [mbind option_bind].
  destruct (is_fully_expanded nd l).
  - destruct (ucb_loop math_log math_sqrt u t nd p l _)
      as [[[bm bu] vals]|]; [|done].
    cbn [mbind option_bind].
    destruct (if verbose u then print_ucb_values l vals else Some [])
      as [lines|]; [|done].
    cbn [mbind option_bind emit game tree drawn out].
    destruct bm as [move|]; [|done]. cbn [mbind option_bind].
    destruct (children nd !! move) as [cid|]; [|done]. cbn [mbind option_bind].
    destruct (make_move g move p) as [[ok g']|]; [|done].
    cbn [mbind option_bind]. intros Hsel. apply IH in Hsel. exact Hsel.
  - destruct (choice rnd _ k) as [move|]; [|done]. cbn [mbind option_bind].
    cbn [emit game tree drawn out].
    destruct (make_move g move p) as [[ok g']|]; [|done].
    cbn [mbind option_bind]. intros [= <-]. right. by exists id, nd, move.
Qed.

Hypothesis Hvalid : valid_game g0.
Hypothesis Hplayer : valid_player (player u).

(** One simulation: one more visit of the root, at most one more node. *)
Lemma simulation_searched n s pos :
  game s = g0 → tree_inv u g0 (tree s) pos → searched n (tree s) →
  ∃ s' pos',
    simulation rnd math_log math_sqrt u s = Some s'
    ∧ game s' = g0 ∧ tree_inv u g0 (tree s') pos'
    ∧ searched (S n) (tree s').
Proof.
  intros Hg Hinv (Hsr & (root & Hroot & Hrp & Hrn) & Hlen & Hvis).
  destruct (simulation_total rnd math_log math_sqrt u g0 Hvalid Hplayer s pos
              Hg Hinv)
    as (s' & pos' & Hsim & Hg' & Hinv' & w & value & Hsel & Hbp).
  exists s', pos'. do 3 (split; [done|]).
  pose proof Hbp as Hl. unfold backpropagate in Hl.
  apply backprop_loop_links in Hl.
  assert (parents_below (tree s)) as Hpb0 by apply Hinv.
  assert (parents_below (tree (w_search w))) as Hpb.
  { eapply parents_below_links; [exact Hl|]. apply Hinv'. }
  assert (single_root (tree (w_search w))
          ∧ (∃ root1, tree (w_search w) !! 0%nat = Some root1
                      ∧ parent root1 = None ∧ ni root1 = Z.of_nat n)
          ∧ (length (tree (w_search w)) ≤ S (S n))%nat
          ∧ visits_pending (tree (w_search w)) (w_node w))
    as (Hsr1 & (root1 & Hroot1 & Hrp1 & Hrn1) & Hlen1 & Hpend).
  { destruct (selection_shape _ _ _ Hsel) as [->|(id & nd & m & Hnd & -> & ->)];
      cbn [w_search tree] in *.
    - split; [done|]. split; [by exists root|]. split; [lia|].
      intros k nd Hk. destruct (Hvis k nd Hk) as (? & ? & ?). auto.
    - split; [by apply expand_single_root|]. split; [|split].
      + destruct (decide (id = 0%nat)) as [->|Hne].
        * assert (nd = root) as -> by congruence.
          exists (add_child root m (length (tree s))).
          split; [|done]. rewrite lookup_app_l
            by (rewrite length_insert; by eapply lookup_lt_Some).
          apply list_lookup_insert_eq. by eapply lookup_lt_Some.
        * exists root. split; [|done]. rewrite lookup_app_l
            by (rewrite length_insert; by eapply lookup_lt_Some).
          by rewrite list_lookup_insert_ne.
      + rewrite length_app, length_insert. simpl. lia.
      + by apply expand_visits. }
  destruct (backprop_loop_path _ _ _ _ _ _ _ Hbp) as (path & Hpath & _).
  destruct (backpropagate_root _ _ _ _ _ root1 path Hpb Hsr1 Hroot1 Hpath Hbp)
    as (root' & Hroot' & Hn' & _).
  split; [by eapply single_root_links; [symmetry; exact Hl|]|].
  split; [|split].
  - exists root'. split; [done|]. split; [|lia].
    destruct (links_lookup _ _ _ _ Hl Hroot') as (r1 & Hr1 & Hlinks).
    simplify_eq. unfold links in Hlinks. congruence.
  - apply links_length in Hl. lia.
  - by eapply backpropagate_visits.
Qed.

Lemma simulations_searched n k s pos :
  game s = g0 → tree_inv u g0 (tree s) pos → searched k (tree s) →
  ∃ s' pos',
    simulations rnd math_log math_sqrt n u s = Some s'
    ∧ game s' = g0 ∧ tree_inv u g0 (tree s') pos'
    ∧ searched (k + n) (tree s').
Proof.
  revert k s pos. induction n as [|n IH]; intros k s pos Hg Hinv Hs; simpl.
  - exists s, pos. by rewrite Nat.add_0_r.
  - destruct (simulation_searched k s pos Hg Hinv Hs)
      as (s1 & pos1 & -> & Hg1 & Hinv1 & Hs1).
    simpl. replace (k + S n)%nat with (S k + n)%nat by lia.
    by apply (IH (S k) s1 pos1).
Qed.

Lemma searched_init : searched 0 [new_node None None].
Proof.
  split; [|split; [|split]].
  - intros [|id] nd Hnd Hp; simplify_eq/=; done.
  - by eexists.
  - simpl. lia.
  - intros [|id] nd Hnd; simplify_eq/=. split; [done|]. split; [done|].
    by intros.
Qed.

Lemma simulations_from_init n :
  ∃ s pos,
    simulations rnd math_log math_sqrt n u (init_search g0) = Some s
    ∧ game s = g0 ∧ tree_inv u g0 (tree s) pos ∧ searched n (tree s).
Proof.
  apply (simulations_searched n 0 (init_search g0) [(g0, player u)]).
  - done.
  - by apply tree_inv_init.
  - apply searched_init.
Qed.
End Searched.

(** X7. After [n] simulations from a fresh tree the root has been visited
    [n] times and the tree has at most [n + 1] nodes: a simulation adds at
    most one node; the root is the only node without a parent. *)
Theorem root_visits_and_tree_size (rnd : nat → nat) (math_log : Z → Qc)
    (math_sqrt : Qc → Qc) (u : UCT) (g : ConnectFour) (n : nat) :
  valid_game g → valid_player (player u) →
  ∃ s root,
    simulations rnd math_log math_sqrt n u (init_search g) = Some s
    ∧ tree s !! 0%nat = Some root ∧ parent root = None
    ∧ ni root = Z.of_nat n
    ∧ (1 ≤ length (tree s) ≤ n + 1)%nat
    ∧ single_root (tree s).
Proof.
  intros Hvalid Hplayer.
  destruct (simulations_from_init rnd math_log math_sqrt u g Hvalid Hplayer n)
    as (s & pos & Hs & _ & _ & Hsr & (root & Hroot & Hp & Hn) & Hlen & _).
  exists s, root. do 4 (split; [done|]). split; [|done].
  apply lookup_lt_Some in Hroot. lia.
Qed.

Lemma root_visits_and_tree_size_witness :
  ∃ s root,
    simulations count_up log_stub sqrt_stub 3 three_simulations
                (init_search empty_board) = Some s
    ∧ tree s !! 0%nat = Some root ∧ parent root = None
    ∧ ni root = Z.of_nat 3
    ∧ (1 ≤ length (tree s) ≤ 3 + 1)%nat
    ∧ single_root (tree s).
Proof.
  apply (root_visits_and_tree_size count_up log_stub sqrt_stub
           three_simulations empty_board 3).
  - exact valid_empty_board.
  - right. reflexivity.
Defined.

(** X8. After any number of simulations every node but the root has a
    parent in the tree, has been visited, and not more often than its
    parent; so [get_ucb_value] of such a node takes neither of its early
    returns and gives the value with the exploration term. *)
Theorem visited_below_parent (rnd : nat → nat) (math_log : Z → Qc)
    (math_sqrt : Qc → Qc) (u : UCT) (g : ConnectFour) (n : nat) :
  valid_game g → valid_player (player u) →
  ∃ s,
    simulations rnd math_log math_sqrt n u (init_search g) = Some s
    ∧ ∀ id nd, tree s !! id = Some nd → id ≠ 0%nat →
        ∃ p pn, parent nd = Some p ∧ tree s !! p = Some pn
          ∧ 1 ≤ ni nd ≤ ni pn
          ∧ ∀ (c : Qc) (is_max : bool),
              get_ucb_value math_log math_sqrt (tree s) nd c is_max
              = Some (Fin (let exploration :=
                             (c * math_sqrt (math_log (ni pn)
                                             / Qc_of_Z (ni nd)))%Qc in
                           if is_max then (get_value nd + exploration)%Qc
                           else (get_value nd - exploration)%Qc)).
Proof.
  intros Hvalid Hplayer.
  destruct (simulations_from_init rnd math_log math_sqrt u g Hvalid Hplayer n)
    as (s & pos & Hs & _ & Hinv & Hsr & _ & _ & Hvis).
  exists s. split; [done|]. intros id nd Hnd Hid.
  destruct (parent nd) as [p|] eqn:Hp; [|by destruct Hid; eapply Hsr].
  assert (parents_below (tree s)) as Hpb by apply Hinv.
  pose proof (Hpb _ _ _ Hnd Hp) as Hlt.
  destruct (lookup_lt_is_Some_2 (tree s) p) as [pn Hpn].
  { apply lookup_lt_Some in Hnd. lia. }
  destruct (Hvis id nd Hnd) as (_ & H1 & Hle).
  specialize (H1 Hid). specialize (Hle p pn Hp Hpn).
  exists p, pn. do 2 (split; [done|]). split; [lia|].
  intros c is_max. unfold get_ucb_value.
  rewrite decide_False by lia. rewrite Hp, Hpn. cbn [mbind option_bind].
  by rewrite decide_False by lia.
Qed.

Lemma visited_below_parent_witness :
  ∃ s,
    simulations count_up log_stub sqrt_stub 3 three_simulations
                (init_search empty_board) = Some s
    ∧ ∀ id nd, tree s !! id = Some nd → id ≠ 0%nat →
        ∃ p pn, parent nd = Some p ∧ tree s !! p = Some pn
          ∧ 1 ≤ ni nd ≤ ni pn
          ∧ ∀ (c : Qc) (is_max : bool),
              get_ucb_value log_stub sqrt_stub (tree s) nd c is_max
              = Some (Fin (let exploration :=
                             (c * sqrt_stub (log_stub (ni pn)
                                             / Qc_of_Z (ni nd)))%Qc in
                           if is_max then (get_value nd + exploration)%Qc
                           else (get_value nd - exploration)%Qc)).
Proof.
  apply (visited_below_parent count_up log_stub sqrt_stub
           three_simulations empty_board 3).
  - exact valid_empty_board.
  - right. reflexivity.
Defined.

(** * The players *)

(** ** What [is_terminal] can return *)

Lemma is_terminal_shape b res :
  is_terminal b = Some res →
  res = (true, Some (-1)) ∨ res = (true, Some 1)
  ∨ (res = (true, Some 0) ∧ get_legal_moves b = Some [])
  ∨ (res = (false, None) ∧ ∃ l, get_legal_moves b = Some l ∧ l ≠ []).
Proof.
  unfold is_terminal.
  destruct (match last_move b with
            | Some (row, col) => _check_win b row col
            | None => _check_board_for_win b
            end) as [[w|]|]; cbn [mbind option_bind]; [| |done].
  - intros [= <-]. case_decide; auto.
  - destruct (get_legal_moves b) as [l|]; cbn [mbind option_bind]; [|done].
    case_decide as Hlen; intros [= <-].
    + right. right. left. split; [done|]. by destruct l.
    + right. right. right. split; [done|]. exists l. split; [done|].
      by intros ->.
Qed.

(** ** [UCT.select_move] *)

Lemma first_best_elem is_max val l m : first_best is_max val l m → m ∈ l.
Proof. intros (i & Hi & _). by eapply list_elem_of_lookup_2. Qed.

(** X9. [UCT.select_move] returns a legal move whenever the board has one,
    so that the [make_move] its callers do with it returns [True]; on a
    board without a legal move it returns column 1. The board is the one
    it was given. *)
Theorem select_move_legal (rnd : nat → nat) (math_log : Z → Qc)
    (math_sqrt : Qc → Qc) (u : UCT) (g : ConnectFour) (who : string) :
  valid_game g → valid_player (player u) →
  ∃ l m s',
    get_legal_moves g = Some l
    ∧ select_move rnd math_log math_sqrt u (init_search g) = Some (m, s')
    ∧ game s' = g
    ∧ (l ≠ [] → m ∈ l ∧ ∃ g', make_move (game s') m who = Some (true, g'))
    ∧ (l = [] → m = 1).
Proof.
  intros Hvalid Hplayer.
  destruct (select_move_spec rnd math_log math_sqrt u g Hvalid Hplayer)
    as (s & pos & l & root & m & s' & _ & _ & _ & Hl & _ & Hsel & Hg & _
        & Hbest & Hnone).
  exists l, m, s'. do 3 (split; [done|]). split; [|done].
  intros Hne. pose proof (first_best_elem _ _ _ _ (Hbest Hne)) as Hin.
  split; [done|]. rewrite Hg.
  by apply (make_move_legal g l m who); [apply Hvalid|..].
Qed.

Lemma select_move_legal_witness :
  ∃ l m s',
    get_legal_moves two_left = Some l
    ∧ select_move always_one log_stub sqrt_stub one_simulation
                  (init_search two_left) = Some (m, s')
    ∧ game s' = two_left
    ∧ (l ≠ [] → m ∈ l ∧ ∃ g', make_move (game s') m "Y" = Some (true, g'))
    ∧ (l = [] → m = 1).
Proof.
  apply (select_move_legal always_one log_stub sqrt_stub one_simulation
           two_left "Y").
  - exact valid_two_left.
  - right. reflexivity.
Defined.

(** X10. Without simulations ([num_simulations <= 0]) [UCT.select_move]
    values every legal move 0 and returns the first legal move, the lowest
    legal column; the tree stays the root alone. *)
Theorem no_simulation_first_legal (rnd : nat → nat) (math_log : Z → Qc)
    (math_sqrt : Qc → Qc) (u : UCT) (g : ConnectFour) (l : list Z) :
  num_simulations u ≤ 0 → get_legal_moves g = Some l →
  ∃ s', select_move rnd math_log math_sqrt u (init_search g)
        = Some (hd 1 l, s')
        ∧ game s' = g ∧ tree s' = [new_node None None].
Proof.
  intros Hn Hl. unfold select_move.
  replace (Z.to_nat (num_simulations u)) with 0%nat by lia.
  cbn [simulations mbind option_bind].
  destruct (final_decision_spec u [new_node None None] (new_node None None))
    with (s := init_search g) (l := l)
    as (m & s' & Hfin & Hg & Ht & Hbest & Hnone); [done..|].
  exists s'. rewrite Hfin. split; [|done]. do 2 f_equal.
  destruct l as [|m0 l]; [by apply Hnone|].
  destruct Hbest as (i & Hi & _ & Hbefore); [done|].
  destruct i as [|i]; [by simplify_eq/=|].
  specialize (Hbefore 0%nat m0 ltac:(lia) eq_refl).
  unfold better, move_value in Hbefore. simpl in Hbefore.
  destruct (is_max_player u);
    by apply (Qcle_not_lt _ _ (Qcle_refl 0%Qc)) in Hbefore.
Qed.

Lemma no_simulation_first_legal_witness :
  ∃ s', select_move count_up log_stub sqrt_stub
                    (mkUCT "R" 0 false false true 1%Qc) (init_search two_left)
        = Some (hd 1 [1; 2], s')
        ∧ game s' = two_left ∧ tree s' = [new_node None None].
Proof.
  apply (no_simulation_first_legal count_up log_stub sqrt_stub
           (mkUCT "R" 0 false false true 1%Qc) two_left [1; 2]).
  - simpl. lia.
  - reflexivity.
Defined.

(** ** [UniformRandom.select_move] *)

(** X11. [UniformRandom.select_move] returns on every 6 x 7 board and leaves
    board and tree alone. With a legal move it takes one draw, returns the
    legal move at the drawn position (the only one when there is one) and
    prints it unless output is suppressed; without a legal move it returns
    column 1, takes no draw and prints nothing. *)
Theorem uniform_random_move (rnd : nat → nat) (u : UCT) (s : search) :
  wf_grid (board (game s)) →
  ∃ l m s',
    get_legal_moves (game s) = Some l
    ∧ UniformRandom.select_move rnd u s = Some (m, s')
    ∧ game s' = game s ∧ tree s' = tree s
    ∧ (l ≠ [] →
       m ∈ l ∧ l !! (rnd (drawn s) `mod` length l)%nat = Some m
       ∧ drawn s' = S (drawn s)
       ∧ out s' = out s ++ (if suppress_output u then []
                            else [PrintFinalMove m])
       ∧ ∀ m0, l = [m0] → m = m0)
    ∧ (l = [] → m = 1 ∧ s' = s).
Proof.
  intros Hwf. destruct (get_legal_moves_spec _ Hwf) as (l & Hl & _).
  unfold UniformRandom.select_move. rewrite Hl. cbn [mbind option_bind].
  destruct l as [|m0 l].
  - exists [], 1, s. by rewrite decide_True.
  - rewrite decide_False by done.
    destruct (choice_elem rnd (m0 :: l) (drawn s)) as (m & Hm & Hin); [done|].
    rewrite Hm. cbn [mbind option_bind].
    eexists (m0 :: l), m, _. do 4 (split; [done|]). split; [|done].
    intros _. split; [done|]. split; [exact Hm|]. split; [done|]. split.
    + simpl. destruct (suppress_output u); simpl; [by rewrite app_nil_r|done].
    + intros m1 [= -> ->]. apply list_elem_of_singleton in Hin. done.
Qed.

Lemma uniform_random_move_witness :
  ∃ l m s',
    get_legal_moves (game (init_search two_left)) = Some l
    ∧ UniformRandom.select_move always_one one_simulation
                                (init_search two_left) = Some (m, s')
    ∧ game s' = game (init_search two_left)
    ∧ tree s' = tree (init_search two_left)
    ∧ (l ≠ [] →
       m ∈ l
       ∧ l !! (always_one (drawn (init_search two_left)) `mod` length l)%nat
         = Some m
       ∧ drawn s' = S (drawn (init_search two_left))
       ∧ out s' = out (init_search two_left)
                  ++ (if suppress_output one_simulation then []
                      else [PrintFinalMove m])
       ∧ ∀ m0, l = [m0] → m = m0)
    ∧ (l = [] → m = 1 ∧ s' = init_search two_left).
Proof.
  apply (uniform_random_move always_one one_simulation (init_search two_left)).
  exact wf_two_left.
Defined.

(** ** [MCTSAlgorithm.simulate] *)




(** * Loading and printing a board *)

Lemma mark_last_piece_spec g cells :
  wf_grid (board g) → (∀ r c, (r, c) ∈ cells → on_board r c) →
  ∃ g', mark_last_piece g cells = Some g' ∧ board g' = board g
    ∧ ((Forall (λ rc, cell (board g) rc.1 rc.2 = Some "O"%string) cells
        ∧ g' = g)
       ∨ ∃ pre rc post,
           cells = pre ++ rc :: post
           ∧ (∃ x, cell (board g) rc.1 rc.2 = Some x ∧ x ≠ "O"%string)
           ∧ Forall (λ rc', cell (board g) rc'.1 rc'.2 = Some "O"%string) post
           ∧ last_move g' = Some rc ∧ move_stack g' = [rc]).
Proof.
  revert g. induction cells as [|[r c] rest IH]; intros g Hwf Hon;
    cbn [mark_last_piece].
  - exists g. split; [done|]. split; [done|]. by left.
  - destruct (cell_on_board (board g) r c Hwf) as [x Hx]; [apply Hon; left|].
    rewrite Hx. cbn [mbind option_bind].
    assert (∀ r' c', (r', c') ∈ rest → on_board r' c') as Hon'.
    { intros. apply Hon. by right. }
    case_decide as Hpiece.
    + destruct (IH (mkConnectFour (board g) (Some (r, c)) [(r, c)]) Hwf Hon')
        as (g' & -> & Hb & [[Hall ->]|(pre & rc & post & -> & Hrc & Hpost & Hl & Hs)]);
        simpl in *; eexists; (split; [done|]); (split; [done|]); right.
      * exists [], (r, c), rest. split; [done|]. split; [by exists x|]. done.
      * by exists ((r, c) :: pre), rc, post.
    + subst x.
      destruct (IH g Hwf Hon')
        as (g' & -> & Hb & [[Hall ->]|(pre & rc & post & -> & Hrc & Hpost & Hl & Hs)]);
        eexists; (split; [done|]); (split; [done|]).
      * left. split; [|done]. by constructor.
      * right. by exists ((r, c) :: pre), rc, post.
Qed.

Lemma read_rows (board_lines : list string) :
  mapM (λ line, if decide (String.length line ≠ COLS) then None
                else Some (row_of line)) board_lines
  = if decide (Forall (λ line, String.length line = COLS) board_lines)
    then Some (row_of <$> board_lines) else None.
Proof.
  induction board_lines as [|line rest IH]; [done|].
  cbn [mapM]. rewrite IH. destruct (decide (String.length line ≠ COLS)) as [Hne|He].
  - cbn [mbind option_bind]. rewrite decide_False; [done|].
    intros Hall. by apply Forall_cons in Hall as [? _].
  - apply dec_stable in He. cbn [mbind option_bind].
    destruct (decide (Forall _ rest)) as [Hall|Hno]; cbn [mbind option_bind mret option_ret fmap option_fmap option_map].
    + rewrite decide_True by (by constructor). done.
    + rewrite decide_False; [done|]. intros H. by apply Forall_cons in H as [_ ?].
Qed.

Lemma length_row_of line : length (row_of line) = String.length line.
Proof. induction line as [|a line IH]; simpl; [done|by rewrite IH]. Qed.

Lemma concat_row_of line : String.concat EmptyString (row_of line) = line.
Proof.
  induction line as [|a line IH]; [done|].
  destruct line as [|b line]; [done|].
  change (row_of (String a (String b line)))
    with (String a EmptyString :: row_of (String b line)).
  cbn [String.concat]. cbn [row_of] in *. rewrite IH. done.
Qed.

Lemma board_lines_length (lines : list string) :
  ¬ (length lines < 8)%nat → length (take (8 - 2) (drop 2 lines)) = 6%nat.
Proof. intros. rewrite length_take, length_drop. lia. Qed.

(** What [from_file] does, step by step. *)
Lemma from_file_spec lines :
  (is_Some (from_file lines)
   ↔ (8 ≤ length lines)%nat
     ∧ Forall (λ line, String.length line = COLS) (take 6 (drop 2 lines)))
  ∧ ∀ g algorithm player,
      from_file lines = Some (g, algorithm, player) →
      lines !! 0%nat = Some algorithm ∧ lines !! 1%nat = Some player
      ∧ board g = reverse (row_of <$> take 6 (drop 2 lines))
      ∧ wf_grid (board g)
      ∧ mark_last_piece (mkConnectFour (board g) None []) all_cells = Some g.
Proof.
  unfold from_file. rewrite read_rows.
  change (8 - 2)%nat with 6%nat.
  destruct (decide (length lines < 8)%nat) as [Hshort|Hlong].
  { split.
    - split; [|intros [? _]; lia].
      destruct (Py.getitem lines 0); cbn [mbind option_bind];
        [|by intros []].
      destruct (Py.getitem lines 1); cbn [mbind option_bind]; by intros [].
    - intros g a p.
      destruct (Py.getitem lines 0); cbn [mbind option_bind]; [|done].
      destruct (Py.getitem lines 1); cbn [mbind option_bind]; done. }
  destruct lines as [|a [|p rest]]; [simpl in Hlong; lia..|].
  rewrite !getitem_nonneg by (simpl; lia). cbn [mbind option_bind].
  change (Z.to_nat 0) with 0%nat. change (Z.to_nat 1) with 1%nat.
  cbn [lookup list_lookup mbind option_bind].
  destruct (decide (Forall (λ line, String.length line = COLS)
                           (take 6 (drop 2 (a :: p :: rest))))) as [Hall|Hno];
    cbn [mbind option_bind].
  - set (L := take 6 (drop 2 (a :: p :: rest))) in *.
    assert (wf_grid (reverse (row_of <$> L))) as Hwf.
    { split.
      - rewrite length_reverse, length_fmap. subst L.
        by apply (board_lines_length (a :: p :: rest)).
      - apply Forall_reverse, Forall_fmap. eapply Forall_impl; [exact Hall|].
        intros line Hlen. simpl. by rewrite length_row_of. }
    destruct (mark_last_piece_spec (mkConnectFour (reverse (row_of <$> L)) None [])
                all_cells Hwf) as (g & Hg & Hb & _).
    { intros. by apply all_cells_on_board. }
    rewrite Hg. cbn [mbind option_bind]. split.
    + split; [intros _; split; [lia|done]|by eexists].
    + intros g' a' p' [= <- <- <-]. simpl in Hb. rewrite Hb. done.
  - split; [|done]. split; [by intros []|]. by intros [_ ?].
Qed.

(** X13. [from_file] succeeds exactly on a file of at least 8 lines whose
    lines 3 to 8 have 7 characters each, and raises otherwise. It returns
    line 1 as the algorithm, line 2 as the player, and the 6 x 7 board whose
    rows are the lines 3 to 8 in reverse order, the last of them the bottom
    row. *)
Theorem from_file_loads (lines : list string) :
  (is_Some (from_file lines)
   ↔ (8 ≤ length lines)%nat
     ∧ Forall (λ line, String.length line = COLS) (take 6 (drop 2 lines)))
  ∧ ∀ g algorithm player,
      from_file lines = Some (g, algorithm, player) →
      lines !! 0%nat = Some algorithm ∧ lines !! 1%nat = Some player
      ∧ board g = reverse (row_of <$> take 6 (drop 2 lines))
      ∧ wf_grid (board g).
Proof.
  destruct (from_file_spec lines) as [Hiff Hres]. split; [done|].
  intros g a p Hload. destruct (Hres g a p Hload) as (? & ? & ? & ? & _). done.
Qed.

Lemma all_cells_scanned : StronglySorted scanned_after all_cells.
Proof. apply (bool_decide_unpack _). vm_compute. exact I. Qed.

Lemma loaded_marker g :
  wf_grid (board g) →
  mark_last_piece (mkConnectFour (board g) None []) all_cells = Some g →
  (last_move g = None ∧ move_stack g = []
   ∧ ∀ r c, on_board r c → cell (board g) r c = Some "O"%string)
  ∨ ∃ rc, last_move g = Some rc ∧ move_stack g = [rc]
      ∧ on_board rc.1 rc.2
      ∧ (∃ x, cell (board g) rc.1 rc.2 = Some x ∧ x ≠ "O"%string)
      ∧ ∀ rc', on_board rc'.1 rc'.2 → scanned_after rc rc' →
               cell (board g) rc'.1 rc'.2 = Some "O"%string.
Proof.
  intros Hwf Hmark.
  destruct (mark_last_piece_spec (mkConnectFour (board g) None []) all_cells Hwf)
    as (g' & Hg' & _ & Hcases).
  { intros. by apply all_cells_on_board. }
  rewrite Hmark in Hg'. injection Hg' as <-.
  cbn [board last_move move_stack] in Hcases.
  destruct Hcases as [[Hall Hg]|(pre & rc & post & Hsplit & Hrc & Hpost & Hl & Hs)].
  - left. rewrite Hg. cbn [board last_move move_stack].
    split; [done|]. split; [done|].
    intros r c Hon. rewrite Forall_forall in Hall.
    apply (Hall (r, c)). by apply all_cells_on_board.
  - right. exists rc. split; [done|]. split; [done|].
    assert (rc ∈ all_cells) as Hin.
    { rewrite Hsplit. apply elem_of_app. right. left. }
    destruct rc as [r c]. split; [by apply all_cells_on_board|].
    split; [done|]. intros [r' c'] Hon' Hafter.
    apply all_cells_on_board in Hon'. rewrite Hsplit in Hon'.
    pose proof all_cells_scanned as Hsort.
    rewrite Hsplit in Hsort.
    apply StronglySorted_app in Hsort as (Hlt & _ & Hpost').
    apply StronglySorted_inv in Hpost' as [_ Hgt].
    rewrite Forall_forall in Hpost.
    apply elem_of_app in Hon' as [Hpre|[Heq|Hin']%elem_of_cons].
    + specialize (Hlt (r', c') (r, c) Hpre ltac:(left)).
      clear -Hlt Hafter. unfold scanned_after in *. cbn [fst snd] in *. lia.
    + clear -Heq Hafter. injection Heq as -> ->.
      unfold scanned_after in Hafter. cbn [fst snd] in Hafter. lia.
    + exact (Hpost (r', c') Hin').
Qed.

(** X14. On a loaded board the marker is on the last piece of the scan,
    bottom row first and left to right: a piece no piece comes after, the
    only entry of the move stack; on a board without pieces the marker is
    unset and the stack empty. So a loaded board is one that [select_move]
    leaves as it was. *)
Theorem from_file_marker (lines : list string) (g : ConnectFour)
    (algorithm player : string) :
  from_file lines = Some (g, algorithm, player) →
  valid_game g ∧ marker_on_piece g
  ∧ ((last_move g = None ∧ move_stack g = []
      ∧ ∀ r c, on_board r c → cell (board g) r c = Some "O"%string)
     ∨ ∃ rc, last_move g = Some rc ∧ move_stack g = [rc]
         ∧ ∀ rc', on_board rc'.1 rc'.2 → scanned_after rc rc' →
                  cell (board g) rc'.1 rc'.2 = Some "O"%string).
Proof.
  intros Hload.
  destruct (from_file_spec lines) as [_ Hres].
  destruct (Hres g algorithm player Hload) as (_ & _ & _ & Hwf & Hmark).
  destruct (loaded_marker g Hwf Hmark)
    as [(Hl & Hs & Hall)|([r c] & Hl & Hs & Hon & (x & Hx & Hne) & Hafter)].
  - split; [|split].
    + split; [done|]. unfold marker_ok, marker_top. by rewrite Hl, Hs.
    + unfold marker_on_piece. by rewrite Hl.
    + by left.
  - split; [|split].
    + split; [done|]. unfold marker_ok, marker_top. rewrite Hl, Hs.
      split; [by eexists|done].
    + unfold marker_on_piece. rewrite Hl. split; [done|]. by exists x.
    + right. by exists (r, c).
Qed.

Lemma from_file_marker_witness :
  valid_game board_file_game ∧ marker_on_piece board_file_game
  ∧ ((last_move board_file_game = None ∧ move_stack board_file_game = []
      ∧ ∀ r c, on_board r c →
               cell (board board_file_game) r c = Some "O"%string)
     ∨ ∃ rc, last_move board_file_game = Some rc
         ∧ move_stack board_file_game = [rc]
         ∧ ∀ rc', on_board rc'.1 rc'.2 → scanned_after rc rc' →
                  cell (board board_file_game) rc'.1 rc'.2 = Some "O"%string).
Proof.
  apply (from_file_marker board_file board_file_game "UCT" "Y"). reflexivity.
Defined.

(** X15. Printing a loaded board gives back the six board lines of the
    file, joined by line feeds: [__str__] undoes the reversal of the rows
    and the split into cells that [from_file] does. *)
Theorem str_of_loaded_board (lines : list string) (g : ConnectFour)
    (algorithm player : string) :
  from_file lines = Some (g, algorithm, player) →
  __str__ g = Some (String.concat newline (take 6 (drop 2 lines))).
Proof.
  intros Hload. destruct (from_file_spec lines) as [Hiff Hres].
  destruct (Hres g algorithm player Hload) as (_ & _ & Hboard & _).
  destruct (proj1 Hiff) as [Hlen _]; [by eexists|].
  pose proof (board_lines_length lines ltac:(lia)) as Hsix.
  change (8 - 2)%nat with 6%nat in Hsix.
  destruct (take 6 (drop 2 lines)) as [|l0 [|l1 [|l2 [|l3 [|l4 [|l5 [|]]]]]]];
    try done.
  unfold __str__. rewrite Hboard.
  change (reverse (Py.range ROWS)) with [5; 4; 3; 2; 1; 0].
  change (reverse (row_of <$> [l0; l1; l2; l3; l4; l5]))
    with [row_of l5; row_of l4; row_of l3; row_of l2; row_of l1; row_of l0].
  cbn [mapM]. rewrite !getitem_nonneg by (simpl; lia).
  change (Z.to_nat 5) with 5%nat. change (Z.to_nat 4) with 4%nat.
  change (Z.to_nat 3) with 3%nat. change (Z.to_nat 2) with 2%nat.
  change (Z.to_nat 1) with 1%nat. change (Z.to_nat 0) with 0%nat.
  cbn [lookup list_lookup mbind option_bind mret option_ret].
  by rewrite !concat_row_of.
Qed.

Lemma str_of_loaded_board_witness :
  __str__ board_file_game
  = Some (String.concat newline (take 6 (drop 2 board_file))).
Proof.
  apply (str_of_loaded_board board_file board_file_game "UCT" "Y").
  reflexivity.
Defined.

(** * The tournament *)

Section Game.
Context (rnd : nat → nat) (math_log : Z → Qc) (math_sqrt : Qc → Qc).
Context (sqrt_2 : Qc).
Context (PMCGS_select_move :
           UCT → ConnectFour → nat → option (Z * ConnectFour * nat)).

(** [UCT.select_move] on a fresh object, whatever was drawn before. *)
Lemma select_move_fresh u g k l :
  valid_game g → valid_player (player u) → get_legal_moves g = Some l →
  ∃ m s', select_move rnd math_log math_sqrt u
                      (mkSearch g [new_node None None] k []) = Some (m, s')
          ∧ game s' = g ∧ (l ≠ [] → m ∈ l).
Proof.
  intros Hvalid Hplayer Hl.
  destruct (simulations_total rnd math_log math_sqrt u g Hvalid Hplayer
              (Z.to_nat (num_simulations u))
              (mkSearch g [new_node None None] k []) [(g, player u)])
    as (s & pos & Hsims & Hg & Hinv); [done|apply tree_inv_init|].
  pose proof Hinv as (Hlen & Hroot & _ & _ & Hch).
  destruct (lookup_lt_is_Some_2 (tree s) 0) as [root Hr].
  { rewrite <-Hlen. by eapply lookup_lt_Some. }
  destruct (final_decision_spec u (tree s) root) with (s := s) (l := l)
    as (m & s' & Hfin & Hg' & Ht' & Hbest & Hnone); [|done|done|by rewrite Hg|].
  { intros m cid Hc.
    destruct (Hch _ _ _ _ Hr Hc) as (? & ? & ? & ? & ? & ? & ? & ? & ? & ? & ? & ?).
    by eexists. }
  exists m, s'. unfold select_move. rewrite Hsims. cbn [mbind option_bind].
  rewrite Hfin, Hg', Hg. split; [done|]. split; [done|].
  intros Hne. by eapply first_best_elem, Hbest.
Qed.

Lemma uniform_random_fresh u g k l :
  get_legal_moves g = Some l → l ≠ [] →
  ∃ m s', UniformRandom.select_move
            rnd u (mkSearch g [new_node None None] k []) = Some (m, s')
          ∧ game s' = g ∧ m ∈ l.
Proof.
  intros Hl Hne. unfold UniformRandom.select_move. cbn [game drawn].
  rewrite Hl. cbn [mbind option_bind].
  rewrite decide_False by (by destruct l).
  destruct (choice_elem rnd l k Hne) as (m & -> & Hm).
  cbn [mbind option_bind]. by eexists m, _.
Qed.

(** A fresh object of one of the two algorithms of the sources picks a
    legal move and leaves the board alone. *)
Lemma algo_select_move_legal name param p g k l :
  name = "UR"%string ∨ name = "UCT"%string →
  valid_game g → valid_player p → get_legal_moves g = Some l → l ≠ [] →
  ∃ algo m k',
    _create_algorithm sqrt_2 name param p = Some algo
    ∧ algo_select_move rnd math_log math_sqrt PMCGS_select_move algo g k
      = Some (m, g, k')
    ∧ m ∈ l.
Proof.
  intros [-> | ->] Hvalid Hp Hl Hne.
  - destruct (uniform_random_fresh (mkUCT p 0 false false true sqrt_2) g k l
                Hl Hne) as (m & s' & Hsel & Hg & Hm).
    eexists _, m, (drawn s'). split; [reflexivity|]. split; [|done].
    cbn [algo_select_move]. rewrite Hsel. cbn [mbind option_bind].
    by rewrite Hg.
  - destruct (select_move_fresh (mkUCT p param false false true sqrt_2) g k l
                Hvalid Hp Hl) as (m & s' & Hsel & Hg & Hm).
    eexists _, m, (drawn s'). split; [reflexivity|]. split; [|by apply Hm].
    cbn [algo_select_move]. rewrite Hsel. cbn [mbind option_bind].
    by rewrite Hg.
Qed.

Lemma play_loop_total steps a1 p1 a2 p2 g cur k :
  a1 = "UR"%string ∨ a1 = "UCT"%string →
  a2 = "UR"%string ∨ a2 = "UCT"%string →
  valid_game g → valid_player cur → (empties g < steps)%nat →
  ∃ res g' k' pm v,
    play_loop rnd math_log math_sqrt sqrt_2 PMCGS_select_move steps
              a1 p1 a2 p2 g cur k = Some (res, g', k')
    ∧ make_moves g pm = Some g' ∧ pm.*2 = turns cur (length pm)
    ∧ (length pm ≤ empties g)%nat
    ∧ is_terminal g' = Some (true, Some v)
    ∧ res = (if decide (v = 1) then "algo2"
             else if decide (v = -1) then "algo1" else "draw")%string.
Proof.
  intros Ha1 Ha2. revert g cur k.
  induction steps as [|steps IH]; intros g cur k Hvalid Hcur Hfuel; [lia|].
  cbn [play_loop]. pose proof Hvalid as (Hwf & Hok & Htop).
  destruct (is_terminal_spec g Hwf Hok) as (res & l & Hres & Hl & _).
  rewrite Hres.
  destruct (is_terminal_shape _ _ Hres)
    as [->|[->|[[-> _]|[-> (l' & Hl' & Hne)]]]]; cbn [mbind option_bind];
    try (eexists _, g, k, [], _; split; [done|]; split; [done|];
         split; [done|]; split; [simpl; lia|]; split; [done|]; done).
  simplify_eq.
  assert (∃ algo m k',
            (if decide (cur = "Y"%string)
             then _create_algorithm sqrt_2 a2 p2 "Y"
             else _create_algorithm sqrt_2 a1 p1 "R") = Some algo
            ∧ algo_select_move rnd math_log math_sqrt PMCGS_select_move algo g k
              = Some (m, g, k')
            ∧ m ∈ l) as (algo & m & k' & -> & Hsel & Hm).
  { case_decide.
    - apply algo_select_move_legal; [done..|by right|done|done].
    - apply algo_select_move_legal; [done..|by left|done|done]. }
  cbn [mbind option_bind]. rewrite Hsel. cbn [mbind option_bind].
  destruct (make_move_legal g l m cur Hwf Hl Hm) as [Hcol [g' Hmove]].
  destruct (make_move_valid g m cur g' Hwf Hcol Hmove)
    as (Hwf' & Hok' & Htop' & Hless).
  specialize (Hless (valid_player_piece cur Hcur)).
  rewrite Hmove. cbn [mbind option_bind].
  fold (other cur).
  destruct (IH g' (other cur) k') as (res & g2 & k2 & pm & v & Hloop & Hmk
                                     & Hturns & Hlen & Hterm & Hverdict);
    [done|apply valid_player_other|lia|].
  exists res, g2, k2, ((m, cur) :: pm), v. split; [done|].
  split; [simpl; rewrite Hmove; done|].
  split; [rewrite fmap_cons; simpl; by rewrite Hturns|].
  split; [simpl; lia|done].
Qed.
End Game.

(** X16. A tournament game between two of the algorithms of the sources,
    [UR] and [UCT] with any parameters, ends: within 42 moves, made in turn
    on the empty board by the starting player and the other, the board is
    terminal, and [play_game] returns ["algo2"] when its value is 1 (Yellow
    has won), ["algo1"] when it is -1 (Red has won) and ["draw"] when it is
    0. *)
Theorem play_game_ends (rnd : nat → nat) (math_log : Z → Qc)
    (math_sqrt : Qc → Qc) (sqrt_2 : Qc)
    (PMCGS_select_move : UCT → ConnectFour → nat → option (Z * ConnectFour * nat))
    (algo1_name : string) (algo1_param : Z) (algo2_name : string)
    (algo2_param : Z) (algo1_starts : bool) (k : nat) :
  algo1_name = "UR"%string ∨ algo1_name = "UCT"%string →
  algo2_name = "UR"%string ∨ algo2_name = "UCT"%string →
  ∃ res g' k' pm v,
    play_game rnd math_log math_sqrt sqrt_2 PMCGS_select_move
              algo1_name algo1_param algo2_name algo2_param algo1_starts k
    = Some (res, g', k')
    ∧ make_moves empty_board pm = Some g'
    ∧ pm.*2 = turns (if algo1_starts then "R" else "Y")%string (length pm)
    ∧ (length pm ≤ 42)%nat
    ∧ is_terminal g' = Some (true, Some v)
    ∧ (v = 1 ∨ v = -1 ∨ v = 0)
    ∧ res = (if decide (v = 1) then "algo2"
             else if decide (v = -1) then "algo1" else "draw")%string.
Proof.
  intros Ha1 Ha2. unfold play_game.
  destruct (play_loop_total rnd math_log math_sqrt sqrt_2 PMCGS_select_move
              loop_steps algo1_name algo1_param algo2_name algo2_param
              empty_board (if algo1_starts then "R" else "Y")%string k Ha1 Ha2)
    as (res & g' & k' & pm & v & Hloop & Hmk & Hturns & Hlen & Hterm & Hres).
  - exact valid_empty_board.
  - destruct algo1_starts; [by left|by right].
  - apply loop_steps_enough.
  - exists res, g', k', pm, v. do 3 (split; [done|]).
    split; [pose proof (empties_bound empty_board); unfold ROWS, COLS in *; lia|].
    split; [done|]. split; [|done].
    destruct (is_terminal_shape _ _ Hterm) as [?|[?|[[? _]|[? _]]]];
      simplify_eq; auto.
Qed.

Lemma play_game_ends_witness :
  ∃ res g' k' pm v,
    play_game count_up log_stub sqrt_stub 1%Qc no_pmcgs "UR" 0 "UCT" 3 true 0
    = Some (res, g', k')
    ∧ make_moves empty_board pm = Some g'
    ∧ pm.*2 = turns (if true then "R" else "Y")%string (length pm)
    ∧ (length pm ≤ 42)%nat
    ∧ is_terminal g' = Some (true, Some v)
    ∧ (v = 1 ∨ v = -1 ∨ v = 0)
    ∧ res = (if decide (v = 1) then "algo2"
             else if decide (v = -1) then "algo1" else "draw")%string.
Proof.
  apply (play_game_ends count_up log_stub sqrt_stub 1%Qc no_pmcgs
           "UR" 0 "UCT" 3 true 0).
  - by left.
  - by right.
Defined.

(** * The selection score of [main], the reports, full expansion *)

(** X17. The [UCT] object that [main] makes has the exploration constant
    [False], that is 0: [get_ucb_value] with it has no exploration term, for
    any [math.log] and [math.sqrt]. The score of a visited node is its plain
    average, so the selection step of such a search compares averages. *)
Theorem main_uct_no_exploration (math_log : Z → Qc) (math_sqrt : Qc → Qc)
    (t : list MCTSNode) (nd : MCTSNode) (who : string) (parameter : Z)
    (verbose brief is_max : bool) :
  get_ucb_value math_log math_sqrt t nd
    (exploration_constant (main_UCT who parameter verbose brief)) is_max
  = if decide (ni nd = 0) then Some (if is_max then PosInf else NegInf)
    else match parent nd with
         | None => Some (Fin (get_value nd))
         | Some p => _ ← t !! p; Some (Fin (get_value nd))
         end.
Proof.
  unfold get_ucb_value. case_decide; [done|].
  destruct (parent nd) as [p|]; [|done].
  destruct (t !! p) as [pn|]; cbn [mbind option_bind]; [|done].
  case_decide; [done|]. cbn [main_UCT UCT_init exploration_constant number_of_bool].
  do 2 f_equal. destruct is_max; ring.
Qed.

(** ** What a search prints *)

Section Output.
Context (rnd : nat → nat) (math_log : Z → Qc) (math_sqrt : Qc → Qc).
Context (u : UCT).
Hypothesis Hquiet : verbose u = false.

Lemma selection_out steps w w' :
  selection rnd math_log math_sqrt steps u w = Some w' →
  out (w_search w') = out (w_search w).
Proof.
  revert w. induction steps as [|steps IH]; intros [[g t k o] id p mv]; [done|].
  cbn [selection w_search w_node w_player w_moves game tree drawn out].
  rewrite Hquiet.
  destruct (get_legal_moves g) as [l|]; [|done]. cbn [mbind option_bind].
  case_decide; [|by intros [= <-]].
  destruct (is_terminal g) as [[[] v]|]; [by intros [= <-]| |done].
  cbn [mbind option_bind].
  destruct (t !! id) as [nd|] eqn:Hnd; [|done]. cbn [mbind option_bind].
  destruct (is_fully_expanded nd l).
  - destruct (ucb_loop math_log math_sqrt u t nd p l _)
      as [[[bm bu] vals]|]; [|done].
    cbn [mbind option_bind emit game tree drawn out].
    destruct bm as [move|]; [|done]. cbn [mbind option_bind].
    destruct (children nd !! move) as [cid|]; [|done]. cbn [mbind option_bind].
    destruct (make_move g move p) as [[ok g']|]; [|done].
    cbn [mbind option_bind]. intros Hsel. apply IH in Hsel. exact Hsel.
  - destruct (choice rnd _ k) as [move|]; [|done]. cbn [mbind option_bind].
    cbn [emit game tree drawn out].
    destruct (make_move g move p) as [[ok g']|]; [|done].
    cbn [mbind option_bind]. by intros [= <-].
Qed.

Lemma rollout_out steps s p moves s' moves' :
  rollout rnd steps s p moves = Some (s', moves') → out s' = out s.
Proof.
  revert s p moves. induction steps as [|steps IH]; intros [g t k o] p moves;
    [done|].
  cbn [rollout game tree drawn out].
  destruct (get_legal_moves g) as [l|]; [|done]. cbn [mbind option_bind].
  case_decide; [|by intros [= <- <-]].
  destruct (is_terminal g) as [[[] v]|]; [by intros [= <- <-]| |done].
  cbn [mbind option_bind].
  destruct (choice rnd l k) as [move|]; [|done]. cbn [mbind option_bind].
  destruct (make_move g move p) as [[ok g']|]; [|done]. cbn [mbind option_bind].
  intros Hroll. apply IH in Hroll. exact Hroll.
Qed.

Lemma simulation_out s s' :
  simulation rnd math_log math_sqrt u s = Some s' → out s' = out s.
Proof.
  unfold simulation. rewrite Hquiet.
  destruct (selection rnd math_log math_sqrt loop_steps u _) as [w|] eqn:Hsel;
    cbn [mbind option_bind]; [|done].
  apply selection_out in Hsel. cbn [w_search out] in Hsel.
  destruct (rollout rnd loop_steps (w_search w) (w_player w) [])
    as [[s1 ms]|] eqn:Hroll; cbn [mbind option_bind]; [|done].
  apply rollout_out in Hroll.
  destruct (is_terminal (game s1)) as [[term v]|]; cbn [mbind option_bind];
    [|done].
  cbn [emit game tree drawn out].
  destruct (undo_all (game s1) (reverse ms)) as [g1|]; cbn [mbind option_bind];
    [|done].
  destruct (undo_all g1 (reverse (w_moves w))) as [g2|];
    cbn [mbind option_bind]; [|done].
  destruct (backpropagate _ _ _ _) as [t'|]; cbn [mbind option_bind]; [|done].
  intros [= <-]. cbn [out]. rewrite app_nil_r. congruence.
Qed.

Lemma simulations_out n s s' :
  simulations rnd math_log math_sqrt n u s = Some s' → out s' = out s.
Proof.
  revert s. induction n as [|n IH]; intros s; cbn [simulations].
  - by intros [= <-].
  - destruct (simulation rnd math_log math_sqrt u s) as [s1|] eqn:Hsim;
      cbn [mbind option_bind]; [|done].
    intros Hrest. rewrite (IH _ Hrest). by apply simulation_out.
Qed.
End Output.

(** The values that the loop of the final decision records. *)
Lemma decision_loop_values u t root moves bm bv mv bm' bv' mv' :
  decision_loop u t root moves (bm, bv, mv) = Some (bm', bv', mv') →
  ∀ col, mv' !! col = if decide (col ∈ moves) then Some (move_value t root col)
                      else mv !! col.
Proof.
  revert bm bv mv. induction moves as [|m rest IH]; intros bm bv mv;
    cbn [decision_loop].
  - intros [= <- <- <-] col. by rewrite decide_False by apply not_elem_of_nil.
  - assert (∀ value,
              match children root !! m with
              | Some cid => child ← t !! cid; Some (get_value child)
              | None => Some 0%Qc
              end = Some value → value = move_value t root m) as Hval.
    { intros value. unfold move_value.
      destruct (children root !! m) as [cid|]; [|by intros [= <-]].
      destruct (t !! cid); cbn [mbind option_bind]; [by intros [= <-]|done]. }
    destruct (match children root !! m with
              | Some cid => child ← t !! cid; Some (get_value child)
              | None => Some 0%Qc
              end) as [value|]; cbn [mbind option_bind]; [|done].
    rewrite (Hval value eq_refl).
    intros Hloop col.
    assert (mv' !! col
            = if decide (col ∈ rest) then Some (move_value t root col)
              else <[m:=move_value t root m]> mv !! col) as ->.
    { destruct (if is_max_player u then _ else _); by eapply IH. }
    destruct (decide (col ∈ rest)) as [Hin|Hout].
    + rewrite decide_True; [done|by right].
    + destruct (decide (col = m)) as [->|Hne].
      * rewrite lookup_insert_eq. rewrite decide_True; [done|left].
      * rewrite lookup_insert_ne by done.
        rewrite decide_False; [done|]. by intros [?|?]%elem_of_cons.
Qed.

(** X18. What [UCT.select_move] prints when [verbose] is off: the
    simulations print nothing; the final decision prints the seven column
    lines when [brief] is on, each with the value of a legal move or [Null],
    and then the final move unless [suppress_output] is on. With all three
    off the call prints the final move alone, and in tournament mode
    nothing. *)
Theorem output_without_verbose (rnd : nat → nat) (math_log : Z → Qc)
    (math_sqrt : Qc → Qc) (u : UCT) (g : ConnectFour) :
  valid_game g → valid_player (player u) → verbose u = false →
  ∃ s l root m s',
    simulations rnd math_log math_sqrt (Z.to_nat (num_simulations u)) u
                (init_search g) = Some s
    ∧ get_legal_moves g = Some l ∧ tree s !! 0%nat = Some root
    ∧ select_move rnd math_log math_sqrt u (init_search g) = Some (m, s')
    ∧ out s = []
    ∧ out s' = (if brief u then column_lines (tree s) root l else [])
               ++ (if suppress_output u then [] else [PrintFinalMove m]).
Proof.
  intros Hvalid Hplayer Hquiet.
  destruct (select_move_spec rnd math_log math_sqrt u g Hvalid Hplayer)
    as (s & pos & l & root & m & s' & Hsims & Hg & _ & Hl & Hroot & Hsel & _).
  exists s, l, root, m, s'. do 4 (split; [done|]).
  pose proof (simulations_out rnd math_log math_sqrt u Hquiet _ _ _ Hsims)
    as Hout. cbn [init_search out] in Hout.
  split; [done|].
  unfold select_move in Hsel. rewrite Hsims in Hsel.
  cbn [mbind option_bind] in Hsel. unfold final_decision in Hsel.
  rewrite Hg, Hl, Hroot in Hsel. cbn [mbind option_bind] in Hsel.
  destruct (decision_loop u (tree s) root l _) as [[[bm bv] mv]|] eqn:Hloop;
    cbn [mbind option_bind] in Hsel; [|done].
  pose proof (decision_loop_values _ _ _ _ _ _ _ _ _ _ Hloop) as Hmv.
  injection Hsel as <- <-. cbn [emit out]. rewrite Hout, Hquiet, orb_false_r.
  unfold column_lines. cbn [fmap list_fmap seq]. rewrite !Hmv, !lookup_empty.
  destruct (brief u), (suppress_output u); cbn [negb app]; by rewrite ?app_nil_r.
Qed.

Lemma output_without_verbose_witness :
  ∃ s l root m s',
    simulations count_up log_stub sqrt_stub
                (Z.to_nat (num_simulations three_simulations))
                three_simulations (init_search empty_board) = Some s
    ∧ get_legal_moves empty_board = Some l ∧ tree s !! 0%nat = Some root
    ∧ select_move count_up log_stub sqrt_stub three_simulations
                  (init_search empty_board) = Some (m, s')
    ∧ out s = []
    ∧ out s' = (if brief three_simulations
                then column_lines (tree s) root l else [])
               ++ (if suppress_output three_simulations then []
                   else [PrintFinalMove m]).
Proof.
  apply (output_without_verbose count_up log_stub sqrt_stub three_simulations
           empty_board).
  - exact valid_empty_board.
  - right. reflexivity.
  - reflexivity.
Defined.

(** X19. In the tree of a search a node holds children for legal moves of
    its position only, so the count that [is_fully_expanded] compares
    decides what its name says: it returns [True] exactly when every legal
    move of the node's position has a child. *)
Theorem fully_expanded_iff (rnd : nat → nat) (math_log : Z → Qc)
    (math_sqrt : Qc → Qc) (u : UCT) (g : ConnectFour) (n : nat) :
  valid_game g → valid_player (player u) →
  ∃ s pos,
    simulations rnd math_log math_sqrt n u (init_search g) = Some s
    ∧ tree_inv u g (tree s) pos
    ∧ ∀ id nd gp p l,
        tree s !! id = Some nd → pos !! id = Some (gp, p) →
        wf_grid (board gp) → get_legal_moves gp = Some l →
        (∀ m, is_Some (children nd !! m) → m ∈ l)
        ∧ (is_fully_expanded nd l = true
           ↔ ∀ m, m ∈ l → is_Some (children nd !! m)).
Proof.
  intros Hvalid Hplayer.
  destruct (simulations_total rnd math_log math_sqrt u g Hvalid Hplayer n
              (init_search g) [(g, player u)])
    as (s & pos & Hsims & _ & Hinv); [done|apply tree_inv_init|].
  exists s, pos. do 2 (split; [done|]).
  intros id nd gp p l Hnd Hpos Hwf Hl.
  pose proof (children_legal u g (tree s) pos id nd gp p l Hinv Hnd Hpos Hl)
    as Hsub.
  pose proof (legal_NoDup gp l Hwf Hl) as Hnodup.
  split.
  - intros m Hm. apply elem_of_dom in Hm. apply Hsub in Hm.
    by apply elem_of_list_to_set in Hm.
  - split.
    + intros Hfull m Hm.
      destruct (fully_expanded_child u g (tree s) pos id nd gp p l Hinv Hnd
                  Hpos Hwf Hl m Hfull Hm) as (cid & _ & _ & Hc & _).
      by eexists.
    + intros Hall. apply bool_decide_eq_true.
      assert (dom (children nd) = (list_to_set l : gset Z)) as Hdom.
      { apply (anti_symm (⊆)); [done|].
        intros m Hm%elem_of_list_to_set. by apply elem_of_dom, Hall. }
      rewrite <-size_dom, Hdom. by apply size_list_to_set.
Qed.

Lemma fully_expanded_iff_witness :
  ∃ s pos,
    simulations count_up log_stub sqrt_stub 3 three_simulations
                (init_search empty_board) = Some s
    ∧ tree_inv three_simulations empty_board (tree s) pos
    ∧ ∀ id nd gp p l,
        tree s !! id = Some nd → pos !! id = Some (gp, p) →
        wf_grid (board gp) → get_legal_moves gp = Some l →
        (∀ m, is_Some (children nd !! m) → m ∈ l)
        ∧ (is_fully_expanded nd l = true
           ↔ ∀ m, m ∈ l → is_Some (children nd !! m)).
Proof.
  apply (fully_expanded_iff count_up log_stub sqrt_stub three_simulations
           empty_board 3).
  - exact valid_empty_board.
  - right. reflexivity.
Defined.

(** * Columns out of range, the win check after a move, the two playouts *)

(** ** [make_move] with a column that is not on the board *)

Lemma index_wrap n i :
  - Z.of_nat n ≤ i < 0 → Py.index n i = Py.index n (i + Z.of_nat n).
Proof.
  intros Hi. unfold Py.index.
  rewrite (decide_False (P := 0 ≤ i < Z.of_nat n)) by lia.
  rewrite (decide_True (P := - Z.of_nat n ≤ i < 0)) by lia.
  rewrite (decide_True (P := 0 ≤ i + Z.of_nat n < Z.of_nat n)) by lia.
  f_equal. lia.
Qed.

Lemma index_out n i :
  i < - Z.of_nat n ∨ Z.of_nat n ≤ i → Py.index n i = None.
Proof.
  intros Hi. unfold Py.index. by rewrite !decide_False by lia.
Qed.

Lemma getitem_elem {A} (l : list A) i x : Py.getitem l i = Some x → x ∈ l.
Proof.
  unfold Py.getitem. destruct (Py.index (length l) i) as [k|]; simpl; [|done].
  apply list_elem_of_lookup_2.
Qed.

Lemma wf_row g r row : wf_grid g → Py.getitem g r = Some row → length row = COLS.
Proof.
  intros [_ Hrows] Hrow%getitem_elem. rewrite Forall_forall in Hrows. auto.
Qed.

Lemma cell_wrap g r c :
  wf_grid g → - Z.of_nat COLS ≤ c < 0 → cell g r c = cell g r (c + Z.of_nat COLS).
Proof.
  intros Hwf Hc. unfold cell.
  destruct (Py.getitem g r) as [row|] eqn:Hrow; cbn [mbind option_bind]; [|done].
  pose proof (wf_row _ _ _ Hwf Hrow) as Hlen.
  unfold Py.getitem. rewrite Hlen. by rewrite index_wrap.
Qed.

Lemma set_cell_wrap g r c v :
  wf_grid g → - Z.of_nat COLS ≤ c < 0 →
  set_cell g r c v = set_cell g r (c + Z.of_nat COLS) v.
Proof.
  intros Hwf Hc. unfold set_cell.
  destruct (Py.getitem g r) as [row|] eqn:Hrow; cbn [mbind option_bind]; [|done].
  pose proof (wf_row _ _ _ Hwf Hrow) as Hlen.
  assert (Py.setitem row c v = Py.setitem row (c + Z.of_nat COLS) v) as ->;
    [|done].
  unfold Py.setitem. rewrite Hlen. by rewrite index_wrap.
Qed.

Lemma cell_out g r c :
  wf_grid g → c < - Z.of_nat COLS ∨ Z.of_nat COLS ≤ c → cell g r c = None.
Proof.
  intros Hwf Hc. unfold cell.
  destruct (Py.getitem g r) as [row|] eqn:Hrow; cbn [mbind option_bind]; [|done].
  pose proof (wf_row _ _ _ Hwf Hrow) as Hlen.
  unfold Py.getitem. rewrite Hlen. by rewrite index_out.
Qed.

Lemma drop_piece_wrap b c who rows :
  wf_grid (board b) → - Z.of_nat COLS ≤ c < 0 →
  (∀ r, r ∈ rows → 0 ≤ r < Z.of_nat ROWS) →
  ∃ ok b1 b2,
    drop_piece b c who rows = Some (ok, b1)
    ∧ drop_piece b (c + Z.of_nat COLS) who rows = Some (ok, b2)
    ∧ board b1 = board b2
    ∧ (ok = true →
       ∃ row, last_move b1 = Some (row, c)
              ∧ last_move b2 = Some (row, c + Z.of_nat COLS)).
Proof.
  intros Hwf Hc. induction rows as [|row rest IH]; intros Hrows;
    cbn [drop_piece].
  - by exists false, b, b.
  - rewrite (cell_wrap _ _ _ Hwf Hc).
    assert (on_board row (c + Z.of_nat COLS)) as Hon.
    { split; [apply Hrows; left|lia]. }
    destruct (cell_on_board _ _ _ Hwf Hon) as [x ->]. cbn [mbind option_bind].
    case_decide.
    + rewrite (set_cell_wrap _ _ _ _ Hwf Hc).
      destruct (set_cell_on_board (board b) row (c + Z.of_nat COLS) who Hwf Hon)
        as (r0 & _ & ->).
      cbn [mbind option_bind]. eexists true, _, _.
      split; [done|]. split; [done|]. split; [done|]. intros _. by exists row.
    + apply IH. intros r Hr. apply Hrows. by right.
Qed.

(** X20. [make_move] does not check its column. On a 6 x 7 board a column
    from -6 to 0 is read as a negative index: the piece lands where it does
    for the column 7 higher, and the marker keeps the negative column index.
    Any column below -6 or above 7 raises an [IndexError]. *)
Theorem make_move_off_board (b : ConnectFour) (column : Z) (who : string) :
  wf_grid (board b) →
  (-6 ≤ column ≤ 0 →
   ∃ ok b1 b2,
     make_move b column who = Some (ok, b1)
     ∧ make_move b (column + 7) who = Some (ok, b2)
     ∧ board b1 = board b2
     ∧ (ok = true →
        ∃ row, last_move b1 = Some (row, column - 1)
               ∧ last_move b2 = Some (row, column + 6)))
  ∧ (column < -6 ∨ 7 < column → make_move b column who = None).
Proof.
  intros Hwf. split.
  - intros Hcol. unfold make_move.
    destruct (drop_piece_wrap b (column - 1) who (Py.range ROWS) Hwf)
      as (ok & b1 & b2 & H1 & H2 & Hb & Hlast).
    { unfold COLS. lia. }
    { intros r Hr. by apply range_bounds. }
    exists ok, b1, b2. split; [done|].
    replace (column + 7 - 1) with (column - 1 + Z.of_nat COLS)
      by (unfold COLS; lia).
    split; [done|]. split; [done|].
    intros Hok. destruct (Hlast Hok) as (row & ? & Hl2). exists row.
    split; [done|]. rewrite Hl2. do 2 f_equal. unfold COLS. lia.
  - intros Hcol. unfold make_move.
    change (Py.range ROWS) with (0 :: (Z.of_nat <$> seq 1 5)).
    cbn [drop_piece]. rewrite cell_out; [done..|]. unfold COLS. lia.
Qed.

Lemma make_move_off_board_witness :
  (-6 ≤ 0 ≤ 0 →
   ∃ ok b1 b2,
     make_move empty_board 0 "Y" = Some (ok, b1)
     ∧ make_move empty_board (0 + 7) "Y" = Some (ok, b2)
     ∧ board b1 = board b2
     ∧ (ok = true →
        ∃ row, last_move b1 = Some (row, 0 - 1)
               ∧ last_move b2 = Some (row, 0 + 6)))
  ∧ (0 < -6 ∨ 7 < 0 → make_move empty_board 0 "Y" = None).
Proof.
  apply (make_move_off_board empty_board 0 "Y").
  apply valid_empty_board.
Defined.

(** ** The win check after a move *)

Lemma line_through_line_of_four g row col :
  line_through g row col → line_of_four g.
Proof.
  intros (who & dx & dy & k0 & Hwho & Hax & Hk0 & Hline).
  exists who, (row - k0 * dx), (col - k0 * dy), dx, dy.
  split; [done|]. split; [done|]. intros k Hk.
  replace (row - k0 * dx + k * dx) with (row + (k - k0) * dx) by lia.
  replace (col - k0 * dy + k * dy) with (col + (k - k0) * dy) by lia.
  by apply Hline.
Qed.

(** A line of four of a grid that differs from a grid without one in a
    single cell passes through that cell. *)
Lemma new_line_through g g' row col :
  (∀ r c, on_board r c → (r, c) ≠ (row, col) → cell g' r c = cell g r c) →
  ¬ line_of_four g → line_of_four g' → line_through g' row col.
Proof.
  intros Hsame Hno (who & r & c & dx & dy & Hwho & Hax & Hline).
  destruct (decide (Exists (λ k, (r + k * dx, c + k * dy) = (row, col))
                           [0; 1; 2; 3])) as [Hsome|Hnone].
  - apply Exists_exists in Hsome as (k0 & Hk0 & Heq).
    assert (0 ≤ k0 < 4) as Hk0' by (set_unfold; lia).
    injection Heq as <- <-.
    exists who, dx, dy, k0. split; [done|]. split; [done|]. split; [done|].
    intros k Hk.
    replace (r + k0 * dx + (k - k0) * dx) with (r + k * dx) by lia.
    replace (c + k0 * dy + (k - k0) * dy) with (c + k * dy) by lia.
    by apply Hline.
  - destruct Hno. exists who, r, c, dx, dy. split; [done|]. split; [done|].
    intros k Hk. destruct (Hline k Hk) as [Hon Hc]. split; [done|].
    rewrite <-Hsame; [done..|].
    intros Heq. apply Hnone, Exists_exists. exists k. split; [|done].
    assert (k = 0 ∨ k = 1 ∨ k = 2 ∨ k = 3) as [->|[->|[->| ->]]] by lia;
      repeat first [left; reflexivity | right].
Qed.

(** A scan of the whole board that finds no winner shows that the board has
    no line of four. *)
Lemma no_line_by_scan g :
  wf_grid g → _check_board_for_win (mkConnectFour g None []) = Some None →
  ¬ line_of_four g.
Proof.
  intros Hwf Hscan Hline.
  destruct (winner_spec (mkConnectFour g None []) Hwf I)
    as (winner & Hw & Hiff & _).
  cbn [last_move] in Hw. rewrite Hscan in Hw. injection Hw as <-.
  destruct (proj2 Hiff) as [? [=]].
  by apply (win_seen_line_seen (mkConnectFour g None []) Hwf I).
Qed.

(** X21. After a successful [make_move] of a player's piece on a board
    without a line of four, the win check of [is_terminal], which looks at
    the lines through the last move only, misses nothing: [is_terminal]
    reports a win exactly when the board has a line of four, and then with
    the value of the player who moved. *)
Theorem win_check_after_move (b : ConnectFour) (column : Z) (who : string)
    (b' : ConnectFour) :
  wf_grid (board b) → 1 ≤ column ≤ Z.of_nat COLS → who ≠ "O"%string →
  ¬ line_of_four (board b) → make_move b column who = Some (true, b') →
  ∃ res, is_terminal b' = Some res
    ∧ (reports_win res ↔ line_of_four (board b'))
    ∧ (reports_win res →
       res = (true, Some (if decide (who = "R"%string) then -1 else 1))).
Proof.
  intros Hwf Hcol Hwho Hno Hm.
  destruct (drop_piece_true _ _ _ _ _ Hm) as (row & Hc & Hset & _ & Hlast & Hrow).
  apply range_bounds in Hrow.
  assert (on_board row (column - 1)) as Hon by (unfold on_board; lia).
  destruct (make_move_valid b column who b' Hwf Hcol Hm) as (Hwf' & Hok' & _).
  assert (cell (board b') row (column - 1) = Some who) as Hnew.
  { rewrite (cell_set_cell _ _ _ _ _ _ _ Hwf Hon Hon Hset).
    by rewrite decide_True. }
  assert (marker_on_piece b') as Hmark.
  { unfold marker_on_piece. rewrite Hlast. split; [done|]. by exists who. }
  destruct (is_terminal_spec b' Hwf' Hok')
    as (res & l & Hres & _ & Hwin & _ & _ & Hval).
  pose proof (win_seen_line_seen b' Hwf' Hmark) as Hseen.
  unfold line_seen in Hseen. rewrite Hlast in Hseen.
  exists res. split; [done|]. split.
  - rewrite Hwin, Hseen. split; [apply line_through_line_of_four|].
    apply (new_line_through (board b)); [|done].
    intros r c Hrc Hne. rewrite (cell_set_cell _ _ _ _ _ _ _ Hwf Hon Hrc Hset).
    rewrite decide_False; [done|]. intros [-> ->]. done.
  - intros Hrep. apply (Hval row (column - 1) who); [done..|]. by apply Hwin.
Qed.

Lemma win_check_after_move_witness :
  ∃ res, is_terminal after_three_moves = Some res
    ∧ (reports_win res ↔ line_of_four (board after_three_moves))
    ∧ (reports_win res →
       res = (true, Some (if decide ("Y"%string = "R"%string) then -1 else 1))).
Proof.
  apply (win_check_after_move after_two_moves 3 "Y" after_three_moves).
  - exact wf_after_two_moves.
  - unfold COLS. lia.
  - done.
  - apply no_line_by_scan; [exact wf_after_two_moves|reflexivity].
  - reflexivity.
Defined.

(** ** The rollout of [UCT] and [simulate] *)

Lemma rollout_simulate rnd steps s p moves :
  wf_grid (board (game s)) → marker_ok (game s) → valid_player p →
  (empties (game s) < steps)%nat →
  ∃ s' moves' v,
    rollout rnd steps s p moves = Some (s', moves')
    ∧ simulate rnd steps (game s) p (drawn s) = Some (v, game s', drawn s')
    ∧ is_terminal (game s') = Some (true, Some v).
Proof.
  revert s p moves. induction steps as [|steps IH];
    intros [g t k o] p moves Hwf Hok Hvp Hfuel; [lia|].
  cbn [rollout simulate game tree drawn out] in *.
  destruct (is_terminal_spec g Hwf Hok) as (res & l & Hres & Hl & _).
  rewrite Hl, Hres. cbn [mbind option_bind].
  destruct (is_terminal_shape _ _ Hres)
    as [->|[->|[[-> Hl0]|[-> (l' & Hl' & Hne)]]]]; cbn [mbind option_bind];
    simplify_eq.
  - case_decide; eexists (mkSearch g t k o), _, _; done.
  - case_decide; eexists (mkSearch g t k o), _, _; done.
  - rewrite decide_False by (simpl; lia).
    by eexists (mkSearch g t k o), _, _.
  - rewrite decide_True by (destruct l; [done|simpl; lia]).
    rewrite decide_False by (by destruct l).
    destruct (choice_elem rnd l k Hne) as (m & -> & Hm).
    cbn [mbind option_bind].
    destruct (make_move_legal g l m p Hwf Hl Hm) as [Hcol [g' Hmove]].
    destruct (make_move_valid g m p g' Hwf Hcol Hmove)
      as (Hwf' & Hok' & _ & Hless).
    specialize (Hless (valid_player_piece p Hvp)).
    rewrite Hmove. cbn [mbind option_bind].
    apply (IH (mkSearch g' t (S k) o)); [done|done|apply valid_player_other|].
    simpl. lia.
Qed.

(** X22. The rollout that [UCT.select_move] spells out and
    [MCTSAlgorithm.simulate] are the same playout: from the same board, the
    same player and the same draws both end on the same board after the same
    number of draws, and [simulate] returns the value that [select_move]
    reads off that board. *)
Theorem rollout_is_simulate (rnd : nat → nat) (s : search) (p : string) :
  wf_grid (board (game s)) → marker_ok (game s) → valid_player p →
  ∃ s' moves v,
    rollout rnd loop_steps s p [] = Some (s', moves)
    ∧ simulate rnd loop_steps (game s) p (drawn s)
      = Some (v, game s', drawn s')
    ∧ is_terminal (game s') = Some (true, Some v).
Proof.
  intros Hwf Hok Hvp. apply rollout_simulate; [done..|].
  apply loop_steps_enough.
Qed.

Lemma rollout_is_simulate_witness :
  ∃ s' moves v,
    rollout count_up loop_steps (init_search two_left) "Y" [] = Some (s', moves)
    ∧ simulate count_up loop_steps (game (init_search two_left)) "Y"
               (drawn (init_search two_left))
      = Some (v, game s', drawn s')
    ∧ is_terminal (game s') = Some (true, Some v).
Proof.
  apply (rollout_is_simulate count_up (init_search two_left) "Y").
  - exact wf_two_left.
  - exact I.
  - right. reflexivity.
Defined.

